(** * poppy.wfe: wavefront-error sources, embedded from [src/poppy/wfe.py]

    The Python classes are embedded shallowly.  Arrays are lists of rows over
    the reals (the idealisation of float64 in which the arithmetic of the
    module is exact; [inf] and [nan] have no counterpart, so statements that
    divide carry the hypothesis that the divisor is not zero).  A method is a
    computation in a state-and-exception monad whose state holds the object
    ([self]) and the part of the outside world the module touches: the
    operating-system entropy consumed by unseeded generators and the log of
    Gaussian draws.  What the module imports (numpy's generator and FFT,
    astropy's units, poppy's optics and zernike modules) is bundled in
    type classes, so that every statement holds for whatever these are. *)

From Stdlib Require Import String Reals ZArith Lia Lra Bool Arith List.
Import ListNotations.
Local Open Scope R_scope.

(** ** Exceptions and the method monad *)

Inductive exn : Type :=
| ValueError (msg : string)
| IndexError
| AttributeError
| TypeError
| ZeroDivisionError
| AssertionError (msg : string)
| UnboundLocalError
| UnitConversionError
| Exception_ (msg : string).

Inductive result (A : Type) : Type :=
| Ok (a : A)
| Raise (e : exn).
Arguments Ok {A} a.
Arguments Raise {A} e.

Definition M (St A : Type) : Type := St -> result A * St.

Definition ret {St A : Type} (a : A) : M St A := fun s => (Ok a, s).

Definition raise {St A : Type} (e : exn) : M St A := fun s => (Raise e, s).

Definition bind {St A B : Type} (m : M St A) (k : A -> M St B) : M St B :=
  fun s => match m s with
           | (Ok a, s') => k a s'
           | (Raise e, s') => (Raise e, s')
           end.

Definition lift {St A : Type} (r : result A) : M St A := fun s => (r, s).

Definition gets {St A : Type} (f : St -> A) : M St A := fun s => (Ok (f s), s).

Definition modify {St : Type} (f : St -> St) : M St unit := fun s => (Ok tt, f s).

Declare Scope method_scope.
Delimit Scope method_scope with method.
Notation "x <- m ;; k" := (bind m (fun x => k))
  (at level 61, m at next level, right associativity) : method_scope.
Notation "m ;;; k" := (bind m (fun _ => k))
  (at level 61, right associativity) : method_scope.
Local Open Scope method_scope.

(** The world outside the object: how many times the operating system was
    asked for entropy, and the sizes of the Gaussian draws made so far
    (most recent first). *)
Record world : Type := mkWorld {
  entropy_used : nat;
  draws : list (nat * nat)
}.

Record st (Obj : Type) : Type := mkSt {
  self : Obj;
  env : world
}.
Arguments mkSt {Obj} self env.
Arguments self {Obj} s.
Arguments env {Obj} s.

Definition on_env {Obj : Type} (f : world -> world) (s : st Obj) : st Obj :=
  mkSt (self s) (f (env s)).

Definition on_self {Obj : Type} (f : Obj -> Obj) (s : st Obj) : st Obj :=
  mkSt (f (self s)) (env s).

(** ** Arrays *)

Definition vector : Type := list R.
Definition matrix : Type := list (list R).

Definition C : Type := (R * R)%type.
Definition cmatrix : Type := list (list C).

Definition get2 (a : matrix) (i j : nat) : R := nth j (nth i a []) 0.

(** [a.shape] of a two-dimensional array; a list of rows with no row has no
    column count of its own and reads as [(0, 0)]. *)
Definition shape (A : Type) (a : list (list A)) : nat * nat :=
  (length a, length (hd [] a)).
Arguments shape {A} a.

Definition rect {A : Type} (n m : nat) (a : list (list A)) : Prop :=
  length a = n /\ Forall (fun r => length r = m) a.

(** [l[lo:hi]] for non-negative bounds: bounds beyond the end are clamped,
    and [lo >= hi] selects nothing. *)
Definition slice {A : Type} (l : list A) (lo hi : nat) : list A :=
  firstn (hi - lo) (skipn lo l).

(** [a[r0:r1, c0:c1]] *)
Definition block {A : Type} (a : list (list A)) (r0 r1 c0 c1 : nat) : list (list A) :=
  map (fun r => slice r c0 c1) (slice a r0 r1).

Fixpoint imap_from {A B : Type} (k : nat) (f : nat -> A -> B) (l : list A) : list B :=
  match l with
  | [] => []
  | x :: t => f k x :: imap_from (S k) f t
  end.

Definition imap {A B : Type} (f : nat -> A -> B) (l : list A) : list B :=
  imap_from 0 f l.

(** numpy broadcasting of a value along one axis to [n] entries: the value
    has [n] entries already, or it has exactly one, which is repeated. *)
Definition broadcast1 {A : Type} (v : list A) (n : nat) : option (list A) :=
  if Nat.eqb (length v) n then Some v
  else match v with
       | [x] => Some (repeat x n)
       | _ => None
       end.

Fixpoint all_some {A : Type} (l : list (option A)) : option (list A) :=
  match l with
  | [] => Some []
  | None :: _ => None
  | Some x :: t => match all_some t with
                   | Some t' => Some (x :: t')
                   | None => None
                   end
  end.

Definition broadcast2 {A : Type} (v : list (list A)) (n m : nat) : option (list (list A)) :=
  match broadcast1 v n with
  | Some rows => all_some (map (fun r => broadcast1 r m) rows)
  | None => None
  end.

Definition in_block (r0 r1 c0 c1 i j : nat) : bool :=
  (r0 <=? i)%nat && (i <? r1)%nat && (c0 <=? j)%nat && (j <? c1)%nat.

(** The elementwise overwrite behind a slice assignment. *)
Definition paste (a : matrix) (r0 r1 c0 c1 : nat) (v : matrix) : matrix :=
  imap (fun i row =>
          imap (fun j x => if in_block r0 r1 c0 c1 i j
                           then get2 v (i - r0) (j - c0) else x) row) a.

Definition broadcast_error : exn :=
  ValueError "could not broadcast input array".

(** [a[r0:r1, c0:c1] = v]: the value is broadcast to the shape of the
    selected block (a shape mismatch raises) and written over it. *)
Definition set_block (a : matrix) (r0 r1 c0 c1 : nat) (v : matrix) : result matrix :=
  let '(n, m) := shape (block a r0 r1 c0 c1) in
  match broadcast2 v n m with
  | Some v' => Ok (paste a r0 (r0 + n) c0 (c0 + m) v')
  | None => Raise broadcast_error
  end.

(** [a[0, lo:hi] = v] for a one-dimensional [v]: an assignment to the block
    [a[0:1, lo:hi]] of the one-row value, once index 0 is known to exist. *)
Definition set_row0 (a : matrix) (lo hi : nat) (v : vector) : result matrix :=
  match a with
  | [] => Raise IndexError
  | _ => set_block a 0 1 lo hi [v]
  end.

(** [a[r0:r1, 0] = v] for a one-dimensional [v]. *)
Definition set_col0 (a : matrix) (r0 r1 : nat) (v : vector) : result matrix :=
  match hd [] a with
  | [] => Raise IndexError
  | _ => set_block a r0 r1 0 1 (map (fun x => [x]) v)
  end.

(** [a[0, lo:hi]] and [a[r0:r1, 0]] *)
Definition row0_slice (a : matrix) (lo hi : nat) : result vector :=
  match a with
  | [] => Raise IndexError
  | r :: _ => Ok (slice r lo hi)
  end.

Definition col0_slice (a : matrix) (r0 r1 : nat) : result vector :=
  match hd [] a with
  | [] => Raise IndexError
  | _ => Ok (map (fun r => nth 0 r 0) (slice a r0 r1))
  end.

(** [a[i, j] = x] *)
Definition set_item (a : matrix) (i j : nat) (x : R) : result matrix :=
  if (i <? length a)%nat && (j <? length (nth i a []))%nat
  then Ok (paste a i (S i) j (S j) [[x]])
  else Raise IndexError.

Definition scale1 (c : R) (v : vector) : vector := map (Rmult c) v.
Definition scale (c : R) (a : matrix) : matrix := map (scale1 c) a.

(** [np.rot90(a, 2)]: both axes reversed. *)
Definition rot90_2 {A : Type} (a : list (list A)) : list (list A) :=
  rev (map (@rev A) a).

(** [np.zeros((n, m))] *)
Definition zeros (n m : nat) : matrix := repeat (repeat 0 m) n.

Definition map2 {A B D : Type} (f : A -> B -> D) (l1 : list A) (l2 : list B) : list D :=
  map (fun p => f (fst p) (snd p)) (combine l1 l2).

Definition zip2 {A B D : Type} (f : A -> B -> D)
  (a : list (list A)) (b : list (list B)) : list (list D) :=
  map2 (map2 f) a b.

Definition mmap {A B : Type} (f : A -> B) (a : list (list A)) : list (list B) :=
  map (map f) a.

(** The shape two operands broadcast to, one axis at a time. *)
Definition broadcast_dim (n1 n2 : nat) : option nat :=
  if Nat.eqb n1 n2 then Some n1
  else if Nat.eqb n1 1 then Some n2
  else if Nat.eqb n2 1 then Some n1
  else None.

(** An elementwise binary operation with numpy broadcasting. *)
Definition binop {A B D : Type} (f : A -> B -> D)
  (a : list (list A)) (b : list (list B)) : result (list (list D)) :=
  match broadcast_dim (fst (shape a)) (fst (shape b)),
        broadcast_dim (snd (shape a)) (snd (shape b)) with
  | Some n, Some m =>
      match broadcast2 a n m, broadcast2 b n m with
      | Some a', Some b' => Ok (zip2 f a' b')
      | _, _ => Raise broadcast_error
      end
  | _, _ => Raise broadcast_error
  end.

(** [a += v]: the value is broadcast to the shape of [a]. *)
Definition iadd (a v : matrix) : result matrix :=
  match broadcast2 v (fst (shape a)) (snd (shape a)) with
  | Some v' => Ok (zip2 Rplus a v')
  | None => Raise broadcast_error
  end.

Definition sum (l : list R) : R := fold_right Rplus 0 l.

(** [np.mean] and [np.std] over all the entries. *)
Definition mean (l : list R) : R := sum l / INR (length l).
Definition std (l : list R) : R :=
  sqrt (mean (map (fun x => (x - mean l) ^ 2) l)).

(** [a[mask == True]]: the entries of [a] where the mask is 1, in row-major
    order; the mask must have the shape of the array. *)
Definition select_true (a mask : matrix) : result (list R) :=
  if Nat.eqb (length a) (length mask)
     && forallb (fun p => Nat.eqb (length (fst p)) (length (snd p))) (combine a mask)
  then Ok (map fst (filter (fun p => if Req_dec_T (snd p) 1 then true else false)
                           (combine (concat a) (concat mask))))
  else Raise IndexError.

(** ** Complex arrays *)

Definition Cre (z : C) : R := fst z.
Definition Cscale (c : R) (z : C) : C := (c * fst z, c * snd z).
Definition of_real (x : R) : C := (x, 0).

(** [np.roll] by [k] places along one axis, and the two FFT shifts, which
    roll every axis by half its length, forwards and backwards. *)
Definition roll {A : Type} (k : nat) (l : list A) : list A :=
  skipn (length l - k) l ++ firstn (length l - k) l.

Definition fftshift1 {A : Type} (l : list A) : list A := roll (length l / 2) l.
Definition ifftshift1 {A : Type} (l : list A) : list A :=
  roll (length l - length l / 2) l.

Definition fftshift {A : Type} (a : list (list A)) : list (list A) :=
  fftshift1 (map fftshift1 a).
Definition ifftshift {A : Type} (a : list (list A)) : list (list A) :=
  ifftshift1 (map ifftshift1 a).

(** ** What the module imports from numpy *)

(** [gauss z k] is the [k]-th standard normal deviate of a generator seeded
    with the integer [z]; [os_entropy n] is the seed material the operating
    system hands out at its [n]-th request.  [fft2_] and [ifft2_] are the
    two-dimensional transforms on arrays that have at least one entry. *)
Class Numpy : Type := {
  gauss : Z -> nat -> R;
  os_entropy : nat -> Z;
  fft2_ : cmatrix -> cmatrix;
  ifft2_ : cmatrix -> cmatrix;
  arctan2 : R -> R -> R
}.

(** A [np.random.RandomState]: the seed it was last seeded with. *)
Record RandomState : Type := mkRandomState { rs_key : Z }.

Definition is_empty {A : Type} (a : list (list A)) : bool :=
  match shape a with
  | (O, _) => true
  | (_, O) => true
  | _ => false
  end.

Section NumpyCalls.
Context {np : Numpy}.

Definition no_fft_points : exn :=
  ValueError "Invalid number of FFT data points (0) specified.".

Definition fft2 (a : cmatrix) : result cmatrix :=
  if is_empty a then Raise no_fft_points else Ok (fft2_ a).

Definition ifft2 (a : cmatrix) : result cmatrix :=
  if is_empty a then Raise no_fft_points else Ok (ifft2_ a).

(** The deviates of a generator seeded with [key] fill an [n] by [m]
    array in row-major order. *)
Definition normal_array (key : Z) (n m : nat) : matrix :=
  map (fun i => map (fun j => gauss key (i * m + j)) (seq 0 m)) (seq 0 n).

Context {Obj : Type}.

Definition fresh_entropy : M (st Obj) Z :=
  fun s =>
    (Ok (os_entropy (entropy_used (env s))),
     on_env (fun w => mkWorld (S (entropy_used w)) (draws w)) s).

(** [np.random.RandomState()]: a new generator, seeded from the system. *)
Definition RandomState_new : M (st Obj) RandomState :=
  z <- fresh_entropy ;; ret (mkRandomState z).

(** [rs.seed(seed)]: [None] reseeds from the system; an integer must lie
    in [[0, 2**32 - 1]]. *)
Definition rs_seed (rs : RandomState) (seed : option Z) : M (st Obj) RandomState :=
  match seed with
  | None => z <- fresh_entropy ;; ret (mkRandomState z)
  | Some z =>
      if ((0 <=? z) && (z <? 2 ^ 32))%Z then ret (mkRandomState z)
      else raise (ValueError "Seed must be between 0 and 2**32 - 1")
  end.

(** The first [rs.normal(size=(n, m))] after seeding; the draw is logged. *)
Definition rs_normal (rs : RandomState) (n m : nat) : M (st Obj) matrix :=
  modify (on_env (fun w => mkWorld (entropy_used w) ((n, m) :: draws w))) ;;;
  ret (normal_array (rs_key rs) n m).
End NumpyCalls.

(** ** Wavefronts and method arguments *)

(** The attributes of a wavefront the module reads: the array is [npix] by
    [npix]; lengths are in metres, [pixelscale] in metres per pixel. *)
Record Wavefront : Type := mkWavefront {
  npix : nat;
  pixelscale : R;
  ispadded : bool;
  oversample : nat;
  wavelength : R
}.

Definition wshape (w : Wavefront) : nat * nat := (npix w, npix w).

(** A Python value passed as the [wave] argument: an instance of
    [BaseWavefront], an object that has the attributes of one without being
    an instance, or a float. *)
Inductive pyobj : Type :=
| PyWavefront (w : Wavefront)
| PyDuck (w : Wavefront)
| PyFloat (x : R).

Definition isinstance_BaseWavefront (o : pyobj) : bool :=
  match o with
  | PyWavefront _ => true
  | _ => false
  end.

(** Attribute access on the argument. *)
Definition attrs (o : pyobj) : result Wavefront :=
  match o with
  | PyWavefront w => Ok w
  | PyDuck w => Ok w
  | PyFloat _ => Raise AttributeError
  end.

Definition not_a_wavefront : exn :=
  ValueError "The first argument must be a Wavefront or FresnelWavefront object.".

(** The decorator [_check_wavefront_arg]. *)
Definition _check_wavefront_arg {St A : Type} (f : pyobj -> M St A) : pyobj -> M St A :=
  fun wave =>
    if negb (isinstance_BaseWavefront wave) then raise not_a_wavefront
    else f wave.

(** ** What the module imports from the rest of poppy and from astropy *)

(** [get_coordinates] is [AnalyticOpticalElement.get_coordinates], giving
    [(y, x)] in metres; [circular_transmission r] is
    [CircularAperture(radius=r).get_transmission]; the last two are
    [zernike.zernike1] and [zernike.cached_zernike1] with [outside=0.0] and
    [noll_normalize=True]. *)
Class Poppy : Type := {
  get_coordinates : Wavefront -> matrix * matrix;
  circular_transmission : R -> Wavefront -> matrix;
  zernike1 : nat -> matrix -> matrix -> matrix;
  cached_zernike1 : nat -> nat * nat -> R -> R -> matrix
}.

(** astropy units as far as [PowerSpectrumWFE] uses them.  With the pixel
    scale in metres per pixel [dk.unit] is 1/m, and [psd_units b alpha] is
    [b / ((dk.unit**2)**(alpha/2))], [surf_unit u] is
    [(u * dk.unit**2)**0.5], and [to_m u] is the factor of [.to(u.m)],
    absent when the unit is no length. *)
Class Units : Type := {
  Unit : Type;
  unit_eqb : Unit -> Unit -> bool;
  psd_units : Unit -> R -> Unit;
  surf_unit : Unit -> Unit;
  to_m : Unit -> option R
}.

Record Quantity {U : Units} : Type := mkQuantity {
  value : R;
  qunit : Unit
}.
Arguments mkQuantity {U} value qunit.

(** Modelled from the spec: [utils.pad_or_crop_to_shape], which is not among
    the sources; the spec has the screen cropped centrally to the shape of
    the wavefront, and an array smaller than the target is set centrally
    into zeros. *)
Definition pad_or_crop_to_shape (a : matrix) (target_shape : nat * nat) : matrix :=
  let '(lx, ly) := shape a in
  let '(lx_w, ly_w) := target_shape in
  if (lx =? lx_w)%nat && (ly =? ly_w)%nat then a
  else
    let border_x := ((lx_w - lx + (lx - lx_w)) / 2)%nat in
    let border_y := ((ly_w - ly + (ly - ly_w)) / 2)%nat in
    if (lx <? lx_w)%nat || (ly <? ly_w)%nat
    then map (fun i =>
                map (fun j => if in_block border_x (border_x + lx) border_y (border_y + ly) i j
                              then get2 a (i - border_x) (j - border_y) else 0)
                    (seq 0 ly_w))
             (seq 0 lx_w)
    else map (fun i => map (fun j => get2 a (border_x + i) (border_y + j)) (seq 0 ly_w))
             (seq 0 lx_w).

(** [_wave_y_x_to_rho_theta] *)
Definition _wave_y_x_to_rho_theta {np : Numpy} (y x : matrix) (pupil_radius : R)
  : result (matrix * matrix) :=
  match binop (fun x y => sqrt (x ^ 2 + y ^ 2) / pupil_radius) x y,
        binop (fun y x => arctan2 (y / pupil_radius) (x / pupil_radius)) y x with
  | Ok rho, Ok theta => Ok (rho, theta)
  | Raise e, _ => Raise e
  | _, Raise e => Raise e
  end.

(** ** ParameterizedWFE *)

Module ParameterizedWFE.

(** A basis factory, called as
    [basis_factory(nterms=..., rho=..., theta=..., outside=...)]. *)
Definition basis : Type := nat -> matrix -> matrix -> R -> list matrix.

Record t : Type := mk {
  radius : R;
  coefficients : list R;
  basis_factory : basis
}.

(** [__init__]: the only check is that [basis_factory] is callable
    ([None] is the default, and is not). *)
Definition __init__ (coefficients : list R) (radius : R) (basis_factory : option basis)
  : result t :=
  match basis_factory with
  | None => Raise (ValueError
      "'basis_factory' must be a callable that can calculate basis functions")
  | Some f => Ok (mk radius coefficients f)
  end.

(** The loop of [get_opd] from index [idx] on. *)
Fixpoint accumulate (idx : nat) (coefficients : list R) (computed_terms : list matrix)
  (combined_distortion : matrix) : result matrix :=
  match coefficients with
  | [] => Ok combined_distortion
  | coefficient :: rest =>
      if Req_dec_T coefficient 0
      then accumulate (S idx) rest computed_terms combined_distortion
      else
        match nth_error computed_terms idx with
        | None => Raise IndexError
        | Some term =>
            match iadd combined_distortion (scale coefficient term) with
            | Ok c => accumulate (S idx) rest computed_terms c
            | Raise e => Raise e
            end
        end
  end.

Section Methods.
Context {np : Numpy} {pp : Poppy}.

Definition get_opd : pyobj -> M (st t) matrix :=
  _check_wavefront_arg (fun wave =>
    w <- lift (attrs wave) ;;
    k <- gets self ;;
    let (y, x) := get_coordinates w in
    p <- lift (_wave_y_x_to_rho_theta y x (radius k)) ;;
    let (rho, theta) := p in
    let combined_distortion := zeros (fst (shape rho)) (snd (shape rho)) in
    let nterms := length (coefficients k) in
    let computed_terms := basis_factory k nterms rho theta 0 in
    lift (accumulate 0 (coefficients k) computed_terms combined_distortion)).
End Methods.

End ParameterizedWFE.

(** ** ZernikeWFE *)

Module ZernikeWFE.

(** [has_offset_coords] records whether the base class gave the object a
    [shift_x], [shift_y] or [rotation] attribute. *)
Record t : Type := mk {
  radius : R;
  aperture_stop : bool;
  coefficients : list R;
  has_offset_coords : bool
}.

Definition __init__ (coefficients : list R) (radius : option R) (aperture_stop : bool)
  (has_offset_coords : bool) : result t :=
  match radius with
  | None => Raise (ValueError
      "You must specify a radius for the unit circle over which the Zernike polynomials are normalized")
  | Some r => Ok (mk r aperture_stop coefficients has_offset_coords)
  end.

Section Methods.
Context {np : Numpy} {pp : Poppy}.

Fixpoint accumulate (j : nat) (coefficients : list R) (term : nat -> matrix)
  (combined_zernikes : matrix) : result matrix :=
  match coefficients with
  | [] => Ok combined_zernikes
  | k_in_m :: rest =>
      match iadd combined_zernikes (scale k_in_m (term j)) with
      | Ok c => accumulate (S j) rest term c
      | Raise e => Raise e
      end
  end.

Definition get_opd : pyobj -> M (st t) matrix :=
  _check_wavefront_arg (fun wave =>
    w <- lift (attrs wave) ;;
    k <- gets self ;;
    let aperture_intensity := circular_transmission (radius k) w in
    let pixelscale_m := pixelscale w in
    term <- (if has_offset_coords k
             then let (y, x) := get_coordinates w in
                  p <- lift (_wave_y_x_to_rho_theta y x (radius k)) ;;
                  ret (fun j => zernike1 j (fst p) (snd p))
             else ret (fun j => cached_zernike1 j (wshape w) pixelscale_m (radius k))) ;;
    let combined_zernikes := zeros (npix w) (npix w) in
    c <- lift (accumulate 1 (coefficients k) term combined_zernikes) ;;
    (* combined_zernikes[aperture_intensity==0] = 0 *)
    if Nat.eqb (length c) (length aperture_intensity)
       && forallb (fun p => Nat.eqb (length (fst p)) (length (snd p)))
            (combine c aperture_intensity)
    then ret (zip2 (fun v t => if Req_dec_T t 0 then 0 else v) c aperture_intensity)
    else raise IndexError).

Definition get_transmission (k : t) (w : Wavefront) : matrix :=
  if aperture_stop k then circular_transmission (radius k) w
  else repeat (repeat 1 (npix w)) (npix w).
End Methods.

End ZernikeWFE.

(** ** SineWaveWFE *)

Module SineWaveWFE.

Record t : Type := mk {
  sine_spatial_freq : R;
  sine_phase_offset : R;
  sine_amplitude : R
}.

Definition __init__ (spatialfreq amplitude phaseoffset : R) : result t :=
  Ok (mk spatialfreq phaseoffset amplitude).

Section Methods.
Context {pp : Poppy}.

Definition get_opd : pyobj -> M (st t) matrix :=
  _check_wavefront_arg (fun wave =>
    w <- lift (attrs wave) ;;
    k <- gets self ;;
    let (y, x) := get_coordinates w in
    ret (mmap (fun x => sine_amplitude k
                        * sin (2 * PI * (x * sine_spatial_freq k + sine_phase_offset k)))
              x)).
End Methods.

End SineWaveWFE.

(** ** StatisticalPSDWFE *)

Module StatisticalPSDWFE.

Record t : Type := mk {
  index : R;
  wfe : R;
  radius : R;
  seed : option Z;
  opd : option matrix
}.

Definition set_opd (o : matrix) (k : t) : t :=
  mk (index k) (wfe k) (radius k) (seed k) (Some o).

Definition __init__ (index wfe radius : R) (seed : option Z) : result t :=
  Ok (mk index wfe radius seed None).

Section Methods.
Context {np : Numpy} {pp : Poppy}.

(** Lines 351-356, from the power-law PSD and the random phases to the
    normalised screen. *)
Definition screen (k : t) (psd rndm_phase : matrix) : result matrix :=
  match fft2 (fftshift (mmap of_real rndm_phase)) with
  | Raise e => Raise e
  | Ok f =>
  let rndm_psd := fftshift f in
  match binop (fun p z => Cscale (sqrt p) z) psd rndm_psd with
  | Raise e => Raise e
  | Ok scaled =>
  match ifft2 (ifftshift scaled) with
  | Raise e => Raise e
  | Ok g =>
  let phase_screen := mmap Cre (ifftshift g) in
  let phase_screen := mmap (fun v => v - mean (concat phase_screen)) phase_screen in
  Ok (mmap (fun v => v / std (concat phase_screen) * wfe k) phase_screen)
  end end end.

Definition get_opd : pyobj -> M (st t) matrix :=
  _check_wavefront_arg (fun wave =>
    w <- lift (attrs wave) ;;
    k <- gets self ;;
    let (y, x) := get_coordinates w in
    p <- lift (_wave_y_x_to_rho_theta y x (radius k)) ;;
    let psd := mmap (fun r => Rpower r (- index k)) (fst p) in
    psd_random_state <- RandomState_new ;;
    psd_random_state <- rs_seed psd_random_state (seed k) ;;
    rndm_phase <- rs_normal psd_random_state (length y) (length x) ;;
    o <- lift (screen k psd rndm_phase) ;;
    modify (on_self (set_opd o)) ;;;
    ret o).
End Methods.

End StatisticalPSDWFE.

(** ** PowerSpectrumWFE *)

Module PowerSpectrumWFE.

Section WithUnits.
Context {U : Units}.

(** One entry of [psd_parameters]:
    [[alpha, beta, outer_scale, inner_scale, surf_roughness]]; of the
    outer scale only [.value] is ever read. *)
Record psd_term : Type := mkTerm {
  alpha : R;
  beta : Quantity;
  outer_scale : R;
  inner_scale : R;
  surf_roughness : Quantity
}.

(** [incident_angle] is kept in radians. *)
Record t : Type := mk {
  psd_parameters : option (list psd_term);
  seed : option Z;
  apply_reflection : bool;
  screen_size : option nat;
  rms : option R;
  radius : option R;
  incident_angle : R;
  psd_weight : list R;
  opd : option matrix
}.

Definition set_opd (o : matrix) (k : t) : t :=
  mk (psd_parameters k) (seed k) (apply_reflection k) (screen_size k) (rms k)
     (radius k) (incident_angle k) (psd_weight k) (Some o).

Definition set_screen_size (n : nat) (k : t) : t :=
  mk (psd_parameters k) (seed k) (apply_reflection k) (Some n) (rms k)
     (radius k) (incident_angle k) (psd_weight k) (opd k).

Definition __init__ (psd_parameters : option (list psd_term)) (psd_weight : option (list R))
  (seed : option Z) (apply_reflection : bool) (screen_size : option nat)
  (rms : option R) (incident_angle : R) (radius : option R) : result t :=
  match rms, radius with
  | Some _, None =>
      Raise (ValueError "You must specify a radius for rms normalization.")
  | _, _ =>
      if Rle_dec (PI / 2) incident_angle
      then Raise (ValueError
        "Incident angle must be less than 90 degrees, or equivalent in other units.")
      else
        match psd_weight, psd_parameters with
        | Some wgt, _ =>
            Ok (mk psd_parameters seed apply_reflection screen_size rms radius
                   incident_angle wgt None)
        | None, Some ps =>
            Ok (mk psd_parameters seed apply_reflection screen_size rms radius
                   incident_angle (repeat 1 (length ps)) None)
        | None, None => Raise TypeError   (* len(None) *)
        end
  end.

(** The spatial-frequency map of lines 505-509: [2 * cen] samples a side,
    entry [(i, j)] at [((j - cen) * dk, (i - cen) * dk)]. *)
Definition k_grid (cen : nat) (dk : R) : matrix :=
  map (fun i =>
         map (fun j => sqrt (((INR j - INR cen) * dk) ^ 2 + ((INR i - INR cen) * dk) ^ 2))
             (seq 0 (2 * cen)))
      (seq 0 (2 * cen)).

(** Lines 529-543: the PSD of one term before the roughness floor, and
    the frequency map as the branch leaves it. *)
Definition psd_interm (cen : nat) (dk : R) (k_map : matrix) (p : psd_term)
  : result (matrix * matrix) :=
  let numerator k := value (beta p) * exp (- ((k * inner_scale p) ^ 2)) in
  if Req_dec_T (outer_scale p) 0
  then
    (* temporary overwrite of k_map at k=0 *)
    match set_item k_map cen cen (1 * dk) with
    | Raise e => Raise e
    | Ok k_map =>
    let psd_denom := mmap (fun k => Rpower (k ^ 2) (alpha p / 2)) k_map in
    let interm := zip2 (fun k d => numerator k / d) k_map psd_denom in
    (* overwrite PSD at k=0 to be 0 *)
    match set_item interm cen cen 0 with
    | Raise e => Raise e
    | Ok interm =>
    (* return k_map to original state *)
    match set_item k_map cen cen 0 with
    | Raise e => Raise e
    | Ok k_map => Ok (interm, k_map)
    end end end
  else
    let psd_denom :=
      mmap (fun k => Rpower (/ (outer_scale p) ^ 2 + k ^ 2) (alpha p / 2)) k_map in
    Ok (zip2 (fun k d => numerator k / d) k_map psd_denom, k_map).

(** Lines 545-549: what one term adds to the total PSD. *)
Definition contribution (weight : R) (p : psd_term) (interm : matrix) : matrix :=
  mmap (fun v => weight * (v + value (surf_roughness p))) interm.

Definition units_inconsistent : exn :=
  AssertionError "PSD parameter units are not consistent, please re-evaluate parameters.".

(** The loop of lines 513-549 from index [n] on; [surf] is [surf_unit],
    unbound until the first pass. *)
Fixpoint psd_loop (n : nat) (weights : list R) (params : option (list psd_term))
  (cen : nat) (dk : R) (k_map psd : matrix) (surf : option Unit)
  : result (matrix * option Unit) :=
  match weights with
  | [] => Ok (psd, surf)
  | weight :: rest =>
      match params with
      | None => Raise TypeError
      | Some ps =>
          match nth_error ps n with
          | None => Raise IndexError
          | Some p =>
              let u := psd_units (qunit (beta p)) (alpha p) in
              if negb (unit_eqb (qunit (surf_roughness p)) u)
              then Raise units_inconsistent
              else
                match psd_interm cen dk k_map p with
                | Raise e => Raise e
                | Ok (interm, k_map) =>
                    psd_loop (S n) rest params cen dk k_map
                      (zip2 Rplus psd (contribution weight p interm))
                      (Some (surf_unit u))
                end
          end
      end
  end.

Section Methods.
Context {np : Numpy} {pp : Poppy}.

(** Lines 486-499: the true size of the wavefront, and the screen
    size, which is stored on the object when it was left to default. *)
Definition resolve_screen_size (w : Wavefront) : M (st t) nat :=
  wave_size <- (if ispadded w
                then if (oversample w =? 0)%nat then raise ZeroDivisionError
                     else ret (npix w / oversample w)%nat
                else ret (npix w)) ;;
  size <- gets (fun s => screen_size (self s)) ;;
  match size with
  | None =>
      modify (on_self (set_screen_size (npix w))) ;;;
      (if negb (ispadded w)
       then modify (on_self (set_screen_size (npix w * 4)))
       else ret tt) ;;;
      gets (fun s => match screen_size (self s) with Some n => n | None => O end)
  | Some n =>
      if (n <? wave_size)%nat
      then raise (Exception_
        "PSD screen size smaller than wavefront size, recommend at least 2x larger")
      else ret n
  end.

(** Lines 501-549: the total PSD and the surface unit. *)
Definition psd_model (k : t) (w : Wavefront) (size : nat)
  : result (matrix * option Unit) :=
  let dk := 1 / (INR size * pixelscale w) in
  let cen := (size / 2)%nat in
  let k_map := k_grid cen dk in
  psd_loop 0 (psd_weight k) (psd_parameters k) cen dk k_map
           (zeros (2 * cen) (2 * cen)) None.

(** Lines 554-557: from the PSD and the noise to the screen in metres. *)
Definition shape_noise (w : Wavefront) (psd : matrix) (surf : option Unit)
  (noise : matrix) : result matrix :=
  match fft2 (mmap of_real noise) with
  | Raise e => Raise e
  | Ok f =>
  let rndm_noise := fftshift f in
  match binop (fun p z => Cscale (sqrt (p / (pixelscale w) ^ 2)) z) psd rndm_noise with
  | Raise e => Raise e
  | Ok psd_scaled =>
  match ifft2 (ifftshift psd_scaled) with
  | Raise e => Raise e
  | Ok g =>
  match surf with
  | None => Raise UnboundLocalError
  | Some u =>
      match to_m u with
      | None => Raise UnitConversionError
      | Some factor => Ok (mmap (fun z => Cre z * factor) g)
      end
  end end end end.

(** Lines 501-557: the screen before any calibration. *)
Definition synthesize (w : Wavefront) (size : nat) : M (st t) matrix :=
  k <- gets self ;;
  model <- lift (psd_model k w size) ;;
  psd_random <- RandomState_new ;;
  psd_random <- rs_seed psd_random (seed k) ;;
  noise <- rs_normal psd_random size size ;;
  lift (shape_noise w (fst model) (snd model) noise).

(** The root mean square over the entries inside the aperture (where
    the transmission is 1) on the grid of the wavefront. *)
Definition rms_measure (w : Wavefront) (radius : R) (opd : matrix) : result R :=
  let ap := circular_transmission radius w in
  let opd_crop := pad_or_crop_to_shape opd (wshape w) in
  match select_true opd_crop ap with
  | Raise e => Raise e
  | Ok active_ap => Ok (sqrt (mean (map (fun x => x ^ 2) active_ap)))
  end.

(** Lines 559-581. *)
Definition calibrate (w : Wavefront) (size : nat) (opd : matrix) : M (st t) matrix :=
  k <- gets self ;;
  opd <- match rms k with
         | Some target =>
             r <- match radius k with
                  | Some r => ret r
                  | None => raise TypeError
                  end ;;
             m <- lift (rms_measure w r opd) ;;
             ret (scale (target / m) opd)
         | None => ret opd
         end ;;
  let opd := if Req_dec_T (incident_angle k) 0 then opd
             else scale (/ cos (incident_angle k)) opd in
  let opd := if apply_reflection k then scale 2 opd else opd in
  let opd := if (npix w <? size)%nat then pad_or_crop_to_shape opd (wshape w)
             else opd in
  modify (on_self (set_opd opd)) ;;;
  ret opd.

Definition get_opd : pyobj -> M (st t) matrix :=
  _check_wavefront_arg (fun wave =>
    w <- lift (attrs wave) ;;
    size <- resolve_screen_size w ;;
    opd <- synthesize w size ;;
    calibrate w size opd).
End Methods.
End WithUnits.

End PowerSpectrumWFE.

(** ** KolmogorovWFE *)

Module KolmogorovWFE.

Record t : Type := mk {
  r0 : option R;
  Cn2 : option R;
  seed : option Z;
  dz : R;
  inner_scale : option R;
  outer_scale : option R;
  kind : string;
  opd : option matrix
}.

Definition set_opd (o : matrix) (k : t) : t :=
  mk (r0 k) (Cn2 k) (seed k) (dz k) (inner_scale k) (outer_scale k) (kind k) (Some o).

Definition is_not_None {A : Type} (x : option A) : bool :=
  match x with Some _ => true | None => false end.

Definition missing_parameters : exn :=
  ValueError "To prepare a turbulent phase screen, dz and either Cn2 or r0 must be given.".

(** [__init__]; the quantities arrive in metres ([Cn2] in m^(-2/3)), the
    unit validation of the decorator and the constructor of the base
    class being outside the module. *)
Definition __init__ (r0 Cn2 dz : option R) (inner_scale outer_scale : option R)
  (kind : string) (seed : option Z) : result t :=
  if negb (is_not_None dz)
     && negb (forallb (fun b => b) [is_not_None r0; is_not_None Cn2])
  then Raise missing_parameters
  else
    match dz with
    | None => Raise AttributeError   (* dz.to(u.m) *)
    | Some dz => Ok (mk r0 Cn2 seed dz inner_scale outer_scale kind None)
    end.

Definition no_outer_scale : exn :=
  ValueError "If von Karman kind of turbulent phase screen is chosen, the outer scale L_0 must be provided.".

Definition no_inner_scale : exn :=
  ValueError "If von Karman, Hill, or Tatarski kind of turbulent phase screen is chosen, the inner scale l_0 must be provided.".

(** Lines 741-750: the four mirror assignments and the zeroing of
    [a[0, 0]]; each right-hand side is read before its assignment. *)
Definition symmetrize (npix : nat) (sign : R) (a : matrix) : result matrix :=
  let h := (npix / 2)%nat in
  match row0_slice a 1 h with
  | Raise e => Raise e
  | Ok v =>
  match set_row0 a (h + 1) npix (scale1 sign (rev v)) with
  | Raise e => Raise e
  | Ok a =>
  match col0_slice a 1 h with
  | Raise e => Raise e
  | Ok v =>
  match set_col0 a (h + 1) npix (scale1 sign (rev v)) with
  | Raise e => Raise e
  | Ok a =>
  match set_block a (h + 1) npix (h + 1) npix
          (scale sign (rot90_2 (block a 1 h 1 h))) with
  | Raise e => Raise e
  | Ok a =>
  match set_block a (h + 1) npix 1 h
          (scale sign (rot90_2 (block a 1 h (h + 1) npix))) with
  | Raise e => Raise e
  | Ok a => set_item a 0 0 0
  end end end end end end.

Definition get_Cn2 (k : t) (wavelength : R) : option R :=
  match r0 k with
  | Some r0 => Some (wavelength ^ 2 / dz k * Rpower (r0 / 0.185) (- 5 / 3))
  | None => Cn2 k
  end.

(** [np.fft.fftfreq(n, d)] *)
Definition fftfreq (n : nat) (d : R) : vector :=
  map (fun i => (if (i <? (n + 1) / 2)%nat then INR i else INR i - INR n)
                / (d * INR n)) (seq 0 n).

Definition kinds : list string :=
  ["Kolmogorov"; "Tatarski"; "von Karman"; "Hill"]%string.

Section Methods.
Context {np : Numpy}.

(** Lines 736-739: a new generator, seeded with [self.seed], and one
    draw of [npix] by [npix] deviates. *)
Definition raw_samples (npix : nat) : M (st t) matrix :=
  random_numbers <- RandomState_new ;;
  sd <- gets (fun s => seed (self s)) ;;
  random_numbers <- rs_seed random_numbers sd ;;
  rs_normal random_numbers npix npix.

Definition rand_symmetrized (npix : nat) (sign : Z) : M (st t) matrix :=
  if negb (Z.abs sign =? 1)%Z
  then raise (ValueError "sign must be either +1 or -1")
  else
    let sign := IZR sign in
    a <- raw_samples npix ;;
    lift (symmetrize npix sign a).

(** [(a + 1j*b)/np.sqrt(2.0)] *)
Definition combine_fields (a b : matrix) : cmatrix :=
  zip2 (fun x y => (x / sqrt 2, y / sqrt 2)) a b.

Definition rand_turbulent (npix : nat) : M (st t) cmatrix :=
  a <- rand_symmetrized npix 1 ;;
  b <- rand_symmetrized npix (-1) ;;
  ret (combine_fields a b).

Definition power_spectrum (wave : pyobj) (kind : string) : M (st t) matrix :=
  if negb (existsb (String.eqb kind) kinds)
  then raise (ValueError "Kind of power spectrum not correctly defined.")
  else
    w <- lift (attrs wave) ;;
    Cn2 <- gets (fun s => get_Cn2 (self s) (wavelength w)) ;;
    let npix := npix w in
    let q := scale1 (2 * PI) (fftfreq npix (pixelscale w)) in
    (* qx[i][j] = q[j], qy[i][j] = q[i] *)
    let k2 := map (fun qi => map (fun qj => qj ^ 2 + qi ^ 2) q) q in
    L0 <- gets (fun s => outer_scale (self s)) ;;
    q2 <- (if String.eqb kind "von Karman"
           then match L0 with
                | Some L0 => ret (mmap (fun x => x + 1 / L0 ^ 2) k2)
                | None => raise no_outer_scale
                end
           else ret k2) ;;
    (* q2[0, 0] = np.inf, and inf ** (-11/6) is 0 *)
    _ <- (if (npix =? 0)%nat then raise IndexError else ret tt) ;;
    Cn2 <- match Cn2 with Some c => ret c | None => raise TypeError end ;;
    let phi :=
      imap (fun i row =>
              imap (fun j x => if ((i =? 0) && (j =? 0))%nat then 0
                               else 0.0330054 * Cn2 * Rpower x (- 11 / 6)) row) q2 in
    if (String.eqb kind "Tatarski" || String.eqb kind "von Karman"
        || String.eqb kind "Hill")%bool
    then
      l0 <- gets (fun s => inner_scale (self s)) ;;
      match l0 with
      | Some l0 =>
          if (String.eqb kind "Tatarski" || String.eqb kind "von Karman")%bool
          then let m := (5.92 / l0) ^ 2 in
               ret (zip2 (fun p k => p * exp (- k / m)) phi k2)
          else let f k := let m := sqrt k * l0 in
                          (1 + 0.70937 * m + 2.8235 * m ^ 2
                           - 0.28086 * m ^ 3 + 0.08277 * m ^ 4) * exp (- 1.109 * m) in
               ret (zip2 (fun p k => p * f k) phi k2)
      | None => raise no_inner_scale
      end
    else ret phi.

(** [get_opd] carries no decorator: the argument is used as it comes. *)
Definition get_opd (wave : pyobj) : M (st t) matrix :=
  w <- lift (attrs wave) ;;
  let npix := npix w in
  _ <- (if (npix =? 0)%nat then raise ZeroDivisionError else ret tt) ;;
  let dq := 2 * PI / INR npix / pixelscale w in
  a <- rand_turbulent npix ;;
  kd <- gets (fun s => kind (self s)) ;;
  phi <- power_spectrum wave kd ;;
  dz <- gets (fun s => dz (self s)) ;;
  let opd_FFT := zip2 (fun c p => Cscale (dq * sqrt (2 * PI * dz * p)) c) a phi in
  g <- lift (ifft2 opd_FFT) ;;
  let o := mmap (fun z => INR npix ^ 2 * Cre z) g in
  modify (on_self (set_opd o)) ;;;
  ret o.
End Methods.

End KolmogorovWFE.

(** ** Vocabulary of the statements *)

(** A seed that [RandomState.seed] accepts. *)
Definition seed_ok (seed : option Z) : Prop :=
  match seed with
  | None => True
  | Some z => (0 <= z < 2 ^ 32)%Z
  end.

(** The screen size a [PowerSpectrumWFE] holds after [get_opd] was called
    with [wave]. *)
Definition screen_size_after {U : Units} (wave : pyobj) (k : PowerSpectrumWFE.t)
  : option nat :=
  match PowerSpectrumWFE.screen_size k, wave with
  | Some n, _ => Some n
  | None, PyWavefront w =>
      if ispadded w
      then if (oversample w =? 0)%nat then None else Some (npix w)
      else Some (npix w * 4)%nat
  | None, _ => None
  end.

(** The seed a generator ends up with, and the world after one draw. *)
Definition seed_key {np : Numpy} (seed : option Z) (w : world) : Z :=
  match seed with
  | Some z => z
  | None => os_entropy (S (entropy_used w))
  end.

Definition after_draw (seed : option Z) (n m : nat) (w : world) : world :=
  mkWorld (match seed with
           | Some _ => S (entropy_used w)
           | None => S (S (entropy_used w))
           end)
          ((n, m) :: draws w).

(** What [get_opd] must leave alone on the objects that keep their last
    screen: every field but [opd] (and, for [PowerSpectrumWFE], but the
    screen size, which is followed by [screen_size_after]). *)
Definition StatisticalPSD_config (k : StatisticalPSDWFE.t) :=
  (StatisticalPSDWFE.index k, StatisticalPSDWFE.wfe k, StatisticalPSDWFE.radius k,
   StatisticalPSDWFE.seed k).

Definition Kolmogorov_config (k : KolmogorovWFE.t) :=
  (KolmogorovWFE.r0 k, KolmogorovWFE.Cn2 k, KolmogorovWFE.seed k, KolmogorovWFE.dz k,
   KolmogorovWFE.inner_scale k, KolmogorovWFE.outer_scale k, KolmogorovWFE.kind k).

Definition PowerSpectrum_config {U : Units} (k : PowerSpectrumWFE.t) :=
  (PowerSpectrumWFE.psd_parameters k, PowerSpectrumWFE.seed k,
   PowerSpectrumWFE.apply_reflection k, PowerSpectrumWFE.rms k,
   PowerSpectrumWFE.radius k, PowerSpectrumWFE.incident_angle k,
   PowerSpectrumWFE.psd_weight k).

(** A computation that leaves the observation [f] of the object as it was,
    whatever it returns. *)
Definition keeps {Obj A B : Type} (f : Obj -> B) (m : M (st Obj) A) : Prop :=
  forall s, f (self (snd (m s))) = f (self s).

(** One mirror assignment, entry by entry. *)
Definition stage (s : R) (r0 r1 c0 c1 p1 q1 : nat) (a a' : matrix) : Prop :=
  forall i j, get2 a' i j =
    if in_block r0 r1 c0 c1 i j
    then s * get2 a (p1 - 1 - (i - r0)) (q1 - 1 - (j - c0))
    else get2 a i j.

(** Two computations that, run on objects related by [R], return the same
    value or raise the same exception, whatever the two worlds hold, and
    leave the objects related. *)
Definition agree {Obj A : Type} (R : Obj -> Obj -> Prop) (m1 m2 : M (st Obj) A) : Prop :=
  forall s1 s2, R (self s1) (self s2) ->
    fst (m1 s1) = fst (m2 s2) /\ R (self (snd (m1 s1))) (self (snd (m2 s2))).

(** Two objects of one configuration whose seed is the integer [z]. *)
Definition seeded_alike {Obj B : Type} (config : Obj -> B) (seed : Obj -> option Z) (z : Z)
  (k1 k2 : Obj) : Prop :=
  config k1 = config k2 /\ seed k1 = Some z /\ seed k2 = Some z.

Definition PowerSpectrum_alike {U : Units} (z : Z) :=
  seeded_alike (fun k => (PowerSpectrum_config k, PowerSpectrumWFE.screen_size k))
    PowerSpectrumWFE.seed z.

(** ** Sample collaborators and inputs *)

(** A generator whose [k]-th deviate is [z + k + 1], and transforms that
    leave the array as it is. *)
Definition sample_numpy : Numpy :=
  {| gauss := fun z k => IZR z + INR k + 1;
     os_entropy := fun n => Z.of_nat n;
     fft2_ := fun a => a;
     ifft2_ := fun a => a;
     arctan2 := fun _ _ => 0 |}.

(** The same generator with transforms that return 1 at every sample. *)
Definition flat_numpy : Numpy :=
  {| gauss := fun z k => IZR z + INR k + 1;
     os_entropy := fun n => Z.of_nat n;
     fft2_ := mmap (fun _ => (1, 0));
     ifft2_ := mmap (fun _ => (1, 0));
     arctan2 := fun _ _ => 0 |}.

(** Coordinates that are 1 everywhere, a fully open aperture, and basis
    terms that are 1 everywhere. *)
Definition sample_poppy : Poppy :=
  {| get_coordinates := fun w => (repeat (repeat 1 (npix w)) (npix w),
                                  repeat (repeat 1 (npix w)) (npix w));
     circular_transmission := fun _ w => repeat (repeat 1 (npix w)) (npix w);
     zernike1 := fun _ rho _ => rho;
     cached_zernike1 := fun _ shp _ _ => repeat (repeat 1 (snd shp)) (fst shp) |}.

(** A single unit, which is the metre. *)
Definition sample_units : Units :=
  {| Unit := Datatypes.unit;
     unit_eqb := fun _ _ => true;
     psd_units := fun u _ => u;
     surf_unit := fun u => u;
     to_m := fun _ => Some 1 |}.

Definition sample_wave (n : nat) : Wavefront := mkWavefront n 1 true 1 1.

Definition world0 : world := mkWorld 0 [].

Definition sample_kolmogorov (seed : option Z) (kind : string) : KolmogorovWFE.t :=
  KolmogorovWFE.mk None (Some 1) seed 1 None None kind None.

(** One von Karman term without outer scale: index 2, unit normalisation,
    no inner scale, and a roughness floor of 1. *)
Definition sample_term : PowerSpectrumWFE.psd_term (U := sample_units) :=
  PowerSpectrumWFE.mkTerm 2 (mkQuantity (U := sample_units) 1 tt) 0 0
    (mkQuantity (U := sample_units) 1 tt).

Definition sample_power_spectrum (screen_size : option nat) (rms : option R)
  : PowerSpectrumWFE.t (U := sample_units) :=
  PowerSpectrumWFE.mk (Some [sample_term]) (Some 0%Z) false screen_size rms (Some 1) 0
    [1] None.

(** Two coefficients, a factory that returns one term whatever it is asked
    for, and a negative radius. *)
Definition sample_parameterized : ParameterizedWFE.t :=
  ParameterizedWFE.mk (-1) [1; 0] (fun _ rho _ _ => [rho]).

(** ** Vocabulary of the further statements *)

Definition Cim (z : C) : R := snd z.

Definition cget2 (a : cmatrix) (i j : nat) : C := nth j (nth i a []) (0, 0).

(** When [power_spectrum] has what it needs: a known kind, a wavefront with
    at least one sample, a structure constant that [get_Cn2] can give, the
    outer scale for ['von Karman'] and the inner scale for every kind but
    ['Kolmogorov']. *)
Definition spectrum_defined (k : KolmogorovWFE.t) (wave : pyobj) (kind : string) : Prop :=
  In kind KolmogorovWFE.kinds /\
  (exists w, attrs wave = Ok w /\ npix w <> 0%nat /\
             KolmogorovWFE.get_Cn2 k (wavelength w) <> None) /\
  (kind = "von Karman"%string -> KolmogorovWFE.outer_scale k <> None) /\
  (kind <> "Kolmogorov"%string -> KolmogorovWFE.inner_scale k <> None).

(** The object [k] with other inner and outer scales. *)
Definition with_scales (l0 L0 : option R) (k : KolmogorovWFE.t) : KolmogorovWFE.t :=
  KolmogorovWFE.mk (KolmogorovWFE.r0 k) (KolmogorovWFE.Cn2 k) (KolmogorovWFE.seed k)
    (KolmogorovWFE.dz k) l0 L0 (KolmogorovWFE.kind k) (KolmogorovWFE.opd k).


(** The sum of [coefficients[n] * term(idx + n)[i, j]] over the coefficients. *)
Fixpoint weighted_sum (term : nat -> matrix) (idx : nat) (coefficients : list R)
  (i j : nat) : R :=
  match coefficients with
  | [] => 0
  | c :: rest => c * get2 (term idx) i j + weighted_sum term (S idx) rest i j
  end.

(** The Zernike term [j] as [ZernikeWFE.get_opd] evaluates it on [w]. *)
Definition zernike_term {np : Numpy} {pp : Poppy} (k : ZernikeWFE.t) (w : Wavefront)
  (j : nat) : matrix :=
  if ZernikeWFE.has_offset_coords k
  then match _wave_y_x_to_rho_theta (fst (get_coordinates w)) (snd (get_coordinates w))
               (ZernikeWFE.radius k) with
       | Ok (rho, theta) => zernike1 j rho theta
       | Raise _ => []
       end
  else cached_zernike1 j (wshape w) (pixelscale w) (ZernikeWFE.radius k).

(** Two Zernike coefficients on the unit circle, without aperture stop and
    without offset coordinates. *)
Definition sample_zernike : ZernikeWFE.t := ZernikeWFE.mk 1 false [1; 2] false.

(** Lines 351-353 of [StatisticalPSDWFE.get_opd]: the phase screen before
    it is centred and normalised, and line 355, the centring. *)
Definition phase_screen {np : Numpy} (psd rndm_phase : matrix) : result matrix :=
  match fft2 (fftshift (mmap of_real rndm_phase)) with
  | Raise e => Raise e
  | Ok f =>
  match binop (fun p z => Cscale (sqrt p) z) psd (fftshift f) with
  | Raise e => Raise e
  | Ok scaled =>
  match ifft2 (ifftshift scaled) with
  | Raise e => Raise e
  | Ok g => Ok (mmap Cre (ifftshift g))
  end end end.

Definition centred (a : matrix) : matrix := mmap (fun v => v - mean (concat a)) a.

(** A method that returns the array it has just stored in the field [opd],
    and that leaves the field as it was when it raises. *)
Definition stores {Obj : Type} (opd : Obj -> option matrix) (m : M (st Obj) matrix) : Prop :=
  forall s,
    match fst (m s) with
    | Ok o => opd (self (snd (m s))) = Some o
    | Raise _ => opd (self (snd (m s))) = opd (self s)
    end.

(** Lines 534-536 and 542-543: the PSD of one term at the spatial frequency
    [k], before the roughness floor. *)
Definition psd_value {U : Units} (p : PowerSpectrumWFE.psd_term) (k : R) : R :=
  value (PowerSpectrumWFE.beta p)
  * exp (- ((k * PowerSpectrumWFE.inner_scale p) ^ 2))
  / (if Req_dec_T (PowerSpectrumWFE.outer_scale p) 0
     then Rpower (k ^ 2) (PowerSpectrumWFE.alpha p / 2)
     else Rpower (/ (PowerSpectrumWFE.outer_scale p) ^ 2 + k ^ 2)
            (PowerSpectrumWFE.alpha p / 2)).

(** The weighted sum of the terms from index [n] on at one sample of
    frequency [k]; at the zero-frequency sample ([centre]) a term without
    outer scale counts with its roughness floor alone. *)
Fixpoint psd_total {U : Units} (n : nat) (weights : list R)
  (ps : list PowerSpectrumWFE.psd_term) (centre : bool) (k : R) : R :=
  match weights with
  | [] => 0
  | weight :: rest =>
      match nth_error ps n with
      | Some p =>
          weight * ((if centre
                     then if Req_dec_T (PowerSpectrumWFE.outer_scale p) 0 then 0
                          else psd_value p k
                     else psd_value p k)
                    + value (PowerSpectrumWFE.surf_roughness p))
          + psd_total (S n) rest ps centre k
      | None => 0
      end
  end.

(** The unit check of line 523. *)
Definition units_consistent {U : Units} (p : PowerSpectrumWFE.psd_term) : bool :=
  unit_eqb (qunit (PowerSpectrumWFE.surf_roughness p))
    (psd_units (qunit (PowerSpectrumWFE.beta p)) (PowerSpectrumWFE.alpha p)).

(** Units that are told apart by one flag. *)
Definition strict_units : Units :=
  {| Unit := bool;
     unit_eqb := Bool.eqb;
     psd_units := fun u _ => u;
     surf_unit := fun u => u;
     to_m := fun _ => Some 1 |}.

(** A term whose roughness floor is not in the unit of its PSD, and an
    object made of it. *)
Definition odd_term : PowerSpectrumWFE.psd_term (U := strict_units) :=
  PowerSpectrumWFE.mkTerm 2 (mkQuantity (U := strict_units) 1 true) 0 0
    (mkQuantity (U := strict_units) 1 false).

Definition odd_power_spectrum : PowerSpectrumWFE.t (U := strict_units) :=
  PowerSpectrumWFE.mk (Some [odd_term]) (Some 0%Z) false (Some 2%nat) None None 0 [1] None.

(** The object [k] at normal incidence and without the doubling of a
    reflection, and the factor by which the two settings scale the screen
    (lines 568-574). *)
Definition paraxial {U : Units} (k : PowerSpectrumWFE.t) : PowerSpectrumWFE.t :=
  PowerSpectrumWFE.mk (PowerSpectrumWFE.psd_parameters k) (PowerSpectrumWFE.seed k) false
    (PowerSpectrumWFE.screen_size k) (PowerSpectrumWFE.rms k) (PowerSpectrumWFE.radius k) 0
    (PowerSpectrumWFE.psd_weight k) (PowerSpectrumWFE.opd k).

Definition geometry_factor {U : Units} (k : PowerSpectrumWFE.t) : R :=
  (if PowerSpectrumWFE.apply_reflection k then 2 else 1)
  * (if Req_dec_T (PowerSpectrumWFE.incident_angle k) 0 then 1
     else / cos (PowerSpectrumWFE.incident_angle k)).

(** Coordinates on a grid of two rows and three columns. *)
Definition wide_poppy : Poppy :=
  {| get_coordinates := fun _ => ([[1; 1; 1]; [1; 1; 1]], [[1; 1; 1]; [1; 1; 1]]);
     circular_transmission := fun _ _ => [[1; 1; 1]; [1; 1; 1]];
     zernike1 := fun _ rho _ => rho;
     cached_zernike1 := fun _ _ _ _ => [[1; 1; 1]; [1; 1; 1]] |}.

Definition sample_statistical (seed : option Z) : StatisticalPSDWFE.t :=
  StatisticalPSDWFE.mk 3 5 1 seed None.

(** The plain sum of the terms at one sample, each with its roughness. *)
Definition psd_sum {U : Units} (ps : list PowerSpectrumWFE.psd_term) (centre : bool)
  (k : R) : R :=
  fold_right
    (fun p acc =>
       ((if centre
         then if Req_dec_T (PowerSpectrumWFE.outer_scale p) 0 then 0 else psd_value p k
         else psd_value p k)
        + value (PowerSpectrumWFE.surf_roughness p)) + acc)
    0 ps.

(** The sample object with a target rms of 3 on a radius of 1, as a mirror. *)
Definition mirror_power_spectrum : PowerSpectrumWFE.t (U := sample_units) :=
  PowerSpectrumWFE.mk (Some [sample_term]) (Some 0%Z) true (Some 2%nat) (Some 3) (Some 1) 0
    [1] None.

(** An aperture that is sampled with gray pixels only: the transmission is
    one half at every sample, and 1 nowhere. *)
Definition gray_poppy : Poppy :=
  {| get_coordinates := fun w => (repeat (repeat 1 (npix w)) (npix w),
                                  repeat (repeat 1 (npix w)) (npix w));
     circular_transmission := fun _ w => repeat (repeat (1 / 2) (npix w)) (npix w);
     zernike1 := fun _ rho _ => rho;
     cached_zernike1 := fun _ shp _ _ => repeat (repeat 1 (snd shp)) (fst shp) |}.

(** A wavefront of side [n] that is not padded. *)
Definition plain_wave (n : nat) : Wavefront := mkWavefront n 1 false 1 1.

(** * Properties *)

(** *** Lists *)

Lemma imap_from_length {A B : Type} (f : nat -> A -> B) (l : list A) (k : nat) :
  length (imap_from k f l) = length l.
Proof.
  revert k; induction l as [|x t IH]; intro k; simpl; [reflexivity|].
  now rewrite IH.
Qed.

Lemma imap_from_nth {A B : Type} (f : nat -> A -> B) (l : list A) :
  forall k n d d', (n < length l)%nat ->
    nth n (imap_from k f l) d' = f (k + n)%nat (nth n l d).
Proof.
  induction l as [|x t IH]; intros k n d d' Hn; simpl in Hn; [lia|].
  destruct n as [|n]; simpl.
  - now rewrite Nat.add_0_r.
  - rewrite (IH (S k) n d d') by lia. f_equal. lia.
Qed.

Lemma imap_length {A B : Type} (f : nat -> A -> B) (l : list A) :
  length (imap f l) = length l.
Proof. apply imap_from_length. Qed.

Lemma imap_nth {A B : Type} (f : nat -> A -> B) (l : list A) (n : nat) (d : A) (d' : B) :
  (n < length l)%nat -> nth n (imap f l) d' = f n (nth n l d).
Proof. intro Hn. unfold imap. now rewrite (imap_from_nth f l 0 n d d'). Qed.

Lemma nth_slice {A : Type} (l : list A) (lo hi t : nat) (d : A) :
  (t < hi - lo)%nat -> nth t (slice l lo hi) d = nth (lo + t) l d.
Proof.
  intro Ht. unfold slice. rewrite nth_firstn.
  destruct (Nat.ltb_spec t (hi - lo)); [|lia].
  apply nth_skipn.
Qed.

Lemma slice_length {A : Type} (l : list A) (lo hi : nat) :
  (hi <= length l)%nat -> length (slice l lo hi) = (hi - lo)%nat.
Proof.
  intro H. unfold slice. rewrite length_firstn, length_skipn. lia.
Qed.

(** *** Rectangular arrays *)

Lemma rect_row {A : Type} (n m : nat) (a : list (list A)) (i : nat) :
  rect n m a -> (i < n)%nat -> length (nth i a []) = m.
Proof.
  intros [Hl Hr] Hi. rewrite Forall_nth in Hr. apply Hr. lia.
Qed.

Lemma get2_outside_rows (a : matrix) (i j : nat) :
  (length a <= i)%nat -> get2 a i j = 0.
Proof.
  intro H. unfold get2. rewrite (nth_overflow a) by exact H. now destruct j.
Qed.

Lemma rect_intro {A : Type} (n m : nat) (a : list (list A)) :
  length a = n -> (forall i, (i < n)%nat -> length (nth i a []) = m) -> rect n m a.
Proof.
  intros Hl Hr. split; [exact Hl|].
  apply Forall_nth. intros i d Hi.
  rewrite (nth_indep a d [] Hi). apply Hr. lia.
Qed.

Lemma paste_rect (n m : nat) (a : matrix) r0 r1 c0 c1 v :
  rect n m a -> rect n m (paste a r0 r1 c0 c1 v).
Proof.
  intro Ha. pose proof Ha as [Hl _]. apply rect_intro.
  - unfold paste. now rewrite imap_length.
  - intros i Hi. unfold paste.
    rewrite (imap_nth _ a i [] []) by lia.
    rewrite imap_length. now apply (rect_row n m).
Qed.

Lemma paste_get2 (n m : nat) (a : matrix) r0 r1 c0 c1 v i j :
  rect n m a -> (r1 <= n)%nat -> (c1 <= m)%nat ->
  get2 (paste a r0 r1 c0 c1 v) i j =
    if in_block r0 r1 c0 c1 i j then get2 v (i - r0) (j - c0) else get2 a i j.
Proof.
  intros Ha Hr Hc. pose proof Ha as [Hl _].
  destruct (Nat.lt_ge_cases i n) as [Hi|Hi].
  - pose proof (rect_row n m a i Ha Hi) as Hrow.
    destruct (Nat.lt_ge_cases j m) as [Hj|Hj].
    + unfold get2 at 1. unfold paste.
      rewrite (imap_nth _ a i [] []) by lia.
      rewrite (imap_nth _ _ j 0 0) by lia. reflexivity.
    + replace (in_block r0 r1 c0 c1 i j) with false.
      * unfold get2, paste. rewrite (imap_nth _ a i [] []) by lia.
        rewrite !nth_overflow; trivial; try lia. rewrite imap_length. lia.
      * symmetry. unfold in_block. rewrite !andb_false_iff. right.
        apply Nat.ltb_ge. lia.
  - replace (in_block r0 r1 c0 c1 i j) with false.
    + rewrite !get2_outside_rows; trivial; try lia.
      unfold paste. rewrite imap_length. lia.
    + symmetry. unfold in_block. rewrite !andb_false_iff. left. left. right.
      apply Nat.ltb_ge. lia.
Qed.

Lemma slice_nil {A : Type} (lo hi : nat) : slice (@nil A) lo hi = [].
Proof. unfold slice. rewrite skipn_nil. apply firstn_nil. Qed.

Lemma Forall_skipn' {A : Type} (P : A -> Prop) (n : nat) (l : list A) :
  Forall P l -> Forall P (skipn n l).
Proof.
  intro H. rewrite <- (firstn_skipn n l) in H. now apply Forall_app in H.
Qed.

Lemma Forall_firstn' {A : Type} (P : A -> Prop) (n : nat) (l : list A) :
  Forall P l -> Forall P (firstn n l).
Proof.
  intro H. rewrite <- (firstn_skipn n l) in H. now apply Forall_app in H.
Qed.

Lemma broadcast1_exact {A : Type} (v : list A) (n : nat) :
  length v = n -> broadcast1 v n = Some v.
Proof. intro H. unfold broadcast1. now rewrite H, Nat.eqb_refl. Qed.

Lemma all_some_exact {A : Type} (v : list (list A)) (m : nat) :
  Forall (fun r => length r = m) v ->
  all_some (map (fun r => broadcast1 r m) v) = Some v.
Proof.
  induction 1 as [|r t Hr _ IH]; simpl; [reflexivity|].
  now rewrite (broadcast1_exact r m Hr), IH.
Qed.

Lemma broadcast2_exact {A : Type} (v : list (list A)) (n m : nat) :
  rect n m v -> broadcast2 v n m = Some v.
Proof.
  intros [Hl Hr]. unfold broadcast2.
  rewrite (broadcast1_exact v n Hl). now apply all_some_exact.
Qed.

Lemma slice_rect {A : Type} (n m : nat) (a : list (list A)) (r0 r1 : nat) :
  rect n m a -> (r1 <= n)%nat -> rect (r1 - r0) m (slice a r0 r1).
Proof.
  intros [Hl Hr] H1. split.
  - apply slice_length. lia.
  - unfold slice. apply Forall_firstn', Forall_skipn', Hr.
Qed.

Lemma block_rect {A : Type} (n m : nat) (a : list (list A)) (r0 r1 c0 c1 : nat) :
  rect n m a -> (r1 <= n)%nat -> (c1 <= m)%nat ->
  rect (r1 - r0) (c1 - c0) (block a r0 r1 c0 c1).
Proof.
  intros Ha H1 H2. destruct (slice_rect n m a r0 r1 Ha H1) as [Hl Hr].
  unfold block. split.
  - now rewrite length_map.
  - apply Forall_map. rewrite Forall_forall in *. intros x Hx.
    apply slice_length. rewrite (Hr x Hx). exact H2.
Qed.

Lemma block_get2 (a : matrix) (r0 r1 c0 c1 i j : nat) :
  (i < r1 - r0)%nat -> (j < c1 - c0)%nat ->
  get2 (block a r0 r1 c0 c1) i j = get2 a (r0 + i) (c0 + j).
Proof.
  intros Hi Hj. unfold get2, block.
  replace (nth i (map (fun r => slice r c0 c1) (slice a r0 r1)) [])
    with (nth i (map (fun r => slice r c0 c1) (slice a r0 r1)) (slice [] c0 c1))
    by (f_equal; apply slice_nil).
  rewrite (map_nth (fun r => slice r c0 c1)). rewrite nth_slice by exact Hj.
  now rewrite nth_slice by exact Hi.
Qed.

Lemma rect_shape {A : Type} (n m : nat) (a : list (list A)) :
  rect n m a -> (0 < n)%nat -> shape a = (n, m).
Proof.
  intros [Hl Hr] Hn. unfold shape. rewrite Hl. f_equal.
  destruct a as [|r t]; simpl in *; [lia|]. now inversion Hr.
Qed.

Lemma rect_0 {A : Type} (m : nat) (a : list (list A)) : rect 0 m a -> a = [].
Proof. intros [Hl _]. now destruct a. Qed.

Lemma in_block_empty_rows r0 c0 c1 i j : in_block r0 r0 c0 c1 i j = false.
Proof.
  unfold in_block. destruct (Nat.leb_spec r0 i), (Nat.ltb_spec i r0); simpl; trivial; lia.
Qed.

Lemma in_block_empty_cols r0 r1 c0 i j : in_block r0 r1 c0 c0 i j = false.
Proof.
  unfold in_block. destruct (Nat.leb_spec c0 j), (Nat.ltb_spec j c0); simpl;
    rewrite ?andb_false_r; trivial; lia.
Qed.

(** A slice assignment whose value has the shape of the block succeeds and
    overwrites exactly the block. *)
Lemma set_block_exact (n m : nat) (a : matrix) (r0 r1 c0 c1 : nat) (v : matrix) :
  rect n m a -> (r0 <= r1 <= n)%nat -> (c0 <= c1 <= m)%nat ->
  rect (r1 - r0) (c1 - c0) v ->
  exists a', set_block a r0 r1 c0 c1 v = Ok a' /\ rect n m a' /\
    forall i j, get2 a' i j =
      if in_block r0 r1 c0 c1 i j then get2 v (i - r0) (j - c0) else get2 a i j.
Proof.
  intros Ha Hr Hc Hv. unfold set_block.
  pose proof (block_rect n m a r0 r1 c0 c1 Ha (proj2 Hr) (proj2 Hc)) as Hb.
  destruct (Nat.eq_dec r0 r1) as [->|Hne].
  - rewrite Nat.sub_diag in Hb, Hv.
    apply rect_0 in Hb. apply rect_0 in Hv. rewrite Hb, Hv. simpl.
    eexists. split; [reflexivity|]. split; [now apply paste_rect|].
    intros i j. rewrite (paste_get2 n m) by (trivial; lia).
    rewrite Nat.add_0_r. now rewrite !in_block_empty_rows.
  - rewrite (rect_shape _ _ _ Hb) by lia.
    rewrite (broadcast2_exact v _ _ Hv).
    eexists. split; [reflexivity|]. split; [now apply paste_rect|].
    intros i j. rewrite (paste_get2 n m) by (trivial; lia).
    now replace (r0 + (r1 - r0))%nat with r1 by lia;
      replace (c0 + (c1 - c0))%nat with c1 by lia.
Qed.

Lemma scale_rect (n m : nat) (c : R) (a : matrix) : rect n m a -> rect n m (scale c a).
Proof.
  intros [Hl Hr]. split.
  - unfold scale. now rewrite length_map.
  - apply Forall_map. rewrite Forall_forall in *. intros x Hx.
    unfold scale1. rewrite length_map. now apply Hr.
Qed.

Lemma scale_get2 (c : R) (a : matrix) (i j : nat) :
  get2 (scale c a) i j = c * get2 a i j.
Proof.
  unfold get2, scale.
  change (@nil R) with (scale1 c []) at 1. rewrite map_nth.
  unfold scale1. rewrite <- (map_nth (Rmult c)). now rewrite Rmult_0_r.
Qed.

Lemma rot90_2_rect {A : Type} (n m : nat) (a : list (list A)) :
  rect n m a -> rect n m (rot90_2 a).
Proof.
  intros [Hl Hr]. unfold rot90_2. split.
  - now rewrite length_rev, length_map.
  - apply Forall_rev, Forall_map. rewrite Forall_forall in *. intros x Hx.
    rewrite length_rev. now apply Hr.
Qed.

Lemma rot90_2_get2 (n m : nat) (a : matrix) (i j : nat) :
  rect n m a -> (i < n)%nat -> (j < m)%nat ->
  get2 (rot90_2 a) i j = get2 a (n - 1 - i) (m - 1 - j).
Proof.
  intros Ha Hi Hj. pose proof Ha as [Hl _]. unfold get2, rot90_2.
  rewrite rev_nth by (rewrite length_map; lia).
  rewrite length_map, Hl.
  change (@nil R) with (rev (@nil R)) at 1. rewrite map_nth.
  assert (Hrow : length (nth (n - S i) a []) = m) by (apply (rect_row n m); trivial; lia).
  rewrite rev_nth by lia. rewrite Hrow.
  now replace (n - S i)%nat with (n - 1 - i)%nat by lia;
    replace (m - S j)%nat with (m - 1 - j)%nat by lia.
Qed.

(** Writing the sign times the point reflection of one block over another
    block of the same shape. *)
Lemma mirror_block (n m : nat) (s : R) (a : matrix) (r0 r1 c0 c1 p0 p1 q0 q1 : nat) :
  rect n m a -> (r0 <= r1 <= n)%nat -> (c0 <= c1 <= m)%nat ->
  (p1 <= n)%nat -> (q1 <= m)%nat ->
  (p1 - p0 = r1 - r0)%nat -> (q1 - q0 = c1 - c0)%nat ->
  exists a',
    set_block a r0 r1 c0 c1 (scale s (rot90_2 (block a p0 p1 q0 q1))) = Ok a' /\
    rect n m a' /\
    forall i j, get2 a' i j =
      if in_block r0 r1 c0 c1 i j
      then s * get2 a (p1 - 1 - (i - r0)) (q1 - 1 - (j - c0))
      else get2 a i j.
Proof.
  intros Ha Hr Hc Hp Hq Hrows Hcols.
  pose proof (block_rect n m a p0 p1 q0 q1 Ha Hp Hq) as Hb.
  rewrite Hrows, Hcols in Hb.
  destruct (set_block_exact n m a r0 r1 c0 c1 _ Ha Hr Hc
              (scale_rect _ _ s _ (rot90_2_rect _ _ _ Hb))) as (a' & E & Hrect & Hget).
  exists a'. split; [exact E|]. split; [exact Hrect|].
  intros i j. rewrite Hget.
  destruct (in_block r0 r1 c0 c1 i j) eqn:Hin; [|reflexivity].
  unfold in_block in Hin. rewrite !andb_true_iff in Hin.
  destruct Hin as [[[H1 H2] H3] H4].
  apply Nat.leb_le in H1, H3. apply Nat.ltb_lt in H2, H4.
  rewrite scale_get2. f_equal.
  rewrite (rot90_2_get2 _ _ _ _ _ Hb) by lia.
  rewrite block_get2 by lia. f_equal; lia.
Qed.


Lemma slice_head {A : Type} (r : list A) (d : A) :
  (1 <= length r)%nat -> slice r 0 1 = [nth 0 r d].
Proof. destruct r; simpl; [lia|reflexivity]. Qed.

Lemma col_value_as_block (n m : nat) (s : R) (a : matrix) (p0 p1 : nat) :
  rect n m a -> (1 <= m)%nat ->
  map (fun x => [x]) (scale1 s (rev (map (fun r => nth 0 r 0) (slice a p0 p1))))
  = scale s (rot90_2 (block a p0 p1 0 1)).
Proof.
  intros [_ Hr] Hm.
  assert (Hs : Forall (fun r => length r = m) (slice a p0 p1))
    by (unfold slice; now apply Forall_firstn', Forall_skipn').
  unfold scale, rot90_2, block, scale1.
  rewrite !map_rev, !map_map. apply (f_equal (@rev (list R))).
  apply map_ext_in. intros r Hin. rewrite Forall_forall in Hs.
  rewrite (slice_head r 0) by (rewrite (Hs r Hin); exact Hm). reflexivity.
Qed.

Lemma set_item_exact (n m : nat) (a : matrix) (i j : nat) (x : R) :
  rect n m a -> (i < n)%nat -> (j < m)%nat ->
  exists a', set_item a i j x = Ok a' /\ rect n m a' /\
    forall i' j', get2 a' i' j' =
      if ((i' =? i) && (j' =? j))%nat then x else get2 a i' j'.
Proof.
  intros Ha Hi Hj. pose proof Ha as [Hl _]. unfold set_item.
  rewrite (rect_row n m a i Ha Hi), Hl.
  destruct (Nat.ltb_spec i n); [|lia]. destruct (Nat.ltb_spec j m); [|lia]. simpl.
  eexists. split; [reflexivity|]. split; [now apply paste_rect|].
  intros i' j'. rewrite (paste_get2 n m) by (trivial; lia).
  unfold in_block.
  destruct (Nat.eqb_spec i' i) as [->|Hne]; simpl.
  - destruct (Nat.eqb_spec j' j) as [->|Hne]; simpl.
    + rewrite !Nat.leb_refl, !Nat.sub_diag.
      destruct (Nat.ltb_spec i (S i)); [|lia].
      destruct (Nat.ltb_spec j (S j)); [|lia]. reflexivity.
    + destruct (Nat.leb_spec j j'), (Nat.ltb_spec j' (S j)); simpl;
        rewrite ?andb_false_r; trivial; lia.
  - destruct (Nat.leb_spec i i'), (Nat.ltb_spec i' (S i)); simpl; trivial; lia.
Qed.

(** The five writes of [symmetrize] on an array with an even side. *)
Lemma symmetrize_stages (h : nat) (s : R) (a : matrix) :
  (1 <= h)%nat -> rect (2 * h) (2 * h) a ->
  exists a1 a2 a3 a4 a5,
    KolmogorovWFE.symmetrize (2 * h) s a = Ok a5 /\ rect (2 * h) (2 * h) a5 /\
    stage s 0 1 (h + 1) (2 * h) 1 h a a1 /\
    stage s (h + 1) (2 * h) 0 1 h 1 a1 a2 /\
    stage s (h + 1) (2 * h) (h + 1) (2 * h) h h a2 a3 /\
    stage s (h + 1) (2 * h) 1 h h (2 * h) a3 a4 /\
    (forall i j, get2 a5 i j = if ((i =? 0) && (j =? 0))%nat then 0 else get2 a4 i j).
Proof.
  intros Hh Ha. unfold KolmogorovWFE.symmetrize.
  replace (2 * h / 2)%nat with h by (rewrite Nat.mul_comm, Nat.div_mul; lia).
  set (N := (2 * h)%nat) in *.
  assert (HN : N = (2 * h)%nat) by reflexivity.
  (* a[0, h+1:N] = sign * a[0, 1:h][::-1] *)
  destruct (mirror_block N N s a 0 1 (h + 1) N 0 1 1 h Ha) as (a1 & E1 & R1 & G1);
    try lia.
  assert (Hrow : exists r t, a = r :: t).
  { destruct a as [|r t]; [destruct Ha as [Hl _]; simpl in Hl; lia|eauto]. }
  destruct Hrow as (r & t & ->). cbn [row0_slice].
  change (set_row0 (r :: t) (h + 1) N (scale1 s (rev (slice r 1 h))))
    with (set_block (r :: t) 0 1 (h + 1) N
            (scale s (rot90_2 (block (r :: t) 0 1 1 h)))).
  rewrite E1.
  (* a[h+1:N, 0] = sign * a[1:h, 0][::-1] *)
  destruct (mirror_block N N s a1 (h + 1) N 0 1 1 h 0 1 R1) as (a2 & E2 & R2 & G2);
    try lia.
  assert (Hhd1 : exists x r1', hd [] a1 = x :: r1').
  { pose proof (rect_row N N a1 0 R1 ltac:(lia)) as Hlen.
    destruct a1 as [|r1 t1]; [destruct R1 as [Hl _]; simpl in Hl; lia|].
    simpl in *. destruct r1; simpl in Hlen; [lia|eauto]. }
  destruct Hhd1 as (x & r1' & Hhd1).
  unfold col0_slice, set_col0. rewrite Hhd1.
  rewrite (col_value_as_block N N s a1 1 h R1) by lia.
  rewrite E2.
  (* a[h+1:N, h+1:N] = sign * rot90(a[1:h, 1:h], 2) *)
  destruct (mirror_block N N s a2 (h + 1) N (h + 1) N 1 h 1 h R2) as (a3 & E3 & R3 & G3);
    try lia.
  rewrite E3.
  (* a[h+1:N, 1:h] = sign * rot90(a[1:h, h+1:N], 2) *)
  destruct (mirror_block N N s a3 (h + 1) N 1 h 1 h (h + 1) N R3) as (a4 & E4 & R4 & G4);
    try lia.
  rewrite E4.
  (* a[0, 0] = 0.0 *)
  destruct (set_item_exact N N a4 0 0 0 R4) as (a5 & E5 & R5 & G5); try lia.
  exists a1, a2, a3, a4, a5.
  split; [exact E5|]. split; [exact R5|].
  split; [exact G1|]. split; [exact G2|]. split; [exact G3|].
  split; [exact G4|exact G5].
Qed.

Ltac decide_cmp :=
  repeat match goal with
  | |- context [(?x <=? ?y)%nat] =>
      first [ replace (x <=? y)%nat with true by (symmetry; apply Nat.leb_le; lia)
            | replace (x <=? y)%nat with false by (symmetry; apply Nat.leb_gt; lia) ]
  | |- context [(?x <? ?y)%nat] =>
      first [ replace (x <? y)%nat with true by (symmetry; apply Nat.ltb_lt; lia)
            | replace (x <? y)%nat with false by (symmetry; apply Nat.ltb_ge; lia) ]
  | |- context [(?x =? ?y)%nat] =>
      first [ replace (x =? y)%nat with true by (symmetry; apply Nat.eqb_eq; lia)
            | replace (x =? y)%nat with false by (symmetry; apply Nat.eqb_neq; lia) ]
  end; cbn [andb orb negb].

Ltac through G := rewrite !G; unfold in_block; decide_cmp.

Ltac same_entry :=
  match goal with
  | |- get2 ?a ?i ?j = get2 ?a ?i' ?j' =>
      let Hi := fresh in let Hj := fresh in
      assert (Hi : i = i') by lia; assert (Hj : j = j') by lia;
      exact (f_equal2 (get2 a) Hi Hj)
  end.

Lemma symmetrize_even_symmetry (h : nat) (s : R) (a : matrix) :
  (1 <= h)%nat -> s * s = 1 -> rect (2 * h) (2 * h) a ->
  exists a', KolmogorovWFE.symmetrize (2 * h) s a = Ok a' /\ rect (2 * h) (2 * h) a' /\
    (forall i j, (1 <= i < 2 * h)%nat -> (1 <= j < 2 * h)%nat -> i <> h -> j <> h ->
       get2 a' (2 * h - i) (2 * h - j) = s * get2 a' i j) /\
    (forall j, (1 <= j < 2 * h)%nat -> j <> h ->
       get2 a' 0 (2 * h - j) = s * get2 a' 0 j) /\
    (forall i, (1 <= i < 2 * h)%nat -> i <> h ->
       get2 a' (2 * h - i) 0 = s * get2 a' i 0) /\
    get2 a' 0 0 = 0.
Proof.
  intros Hh Hs Ha.
  destruct (symmetrize_stages h s a Hh Ha)
    as (a1 & a2 & a3 & a4 & a5 & E & R5 & G1 & G2 & G3 & G4 & G5).
  unfold stage in *.
  assert (Hinv : forall x, s * (s * x) = x)
    by (intro x; rewrite <- Rmult_assoc, Hs; apply Rmult_1_l).
  exists a5. split; [exact E|]. split; [exact R5|].
  split; [|split; [|split]].
  - intros i j Hi Hj Hih Hjh.
    destruct (Nat.lt_ge_cases i h), (Nat.lt_ge_cases j h).
    + through G5. through G4. through G3. through G2. through G1.
      f_equal. same_entry.
    + through G5. through G4. through G3. through G2. through G1.
      f_equal. same_entry.
    + through G5. through G4. through G3. through G2. through G1.
      rewrite Hinv. same_entry.
    + through G5. through G4. through G3. through G2. through G1.
      rewrite Hinv. same_entry.
  - intros j Hj Hjh.
    destruct (Nat.lt_ge_cases j h).
    + through G5. through G4. through G3. through G2. through G1.
      f_equal. same_entry.
    + through G5. through G4. through G3. through G2. through G1.
      rewrite Hinv. same_entry.
  - intros i Hi Hih.
    destruct (Nat.lt_ge_cases i h).
    + through G5. through G4. through G3. through G2. through G1.
      f_equal. same_entry.
    + through G5. through G4. through G3. through G2. through G1.
      rewrite Hinv. same_entry.
  - rewrite G5. reflexivity.
Qed.

(** *** Running the monad *)

Lemma bind_ok {St A B : Type} (m : M St A) (k : A -> M St B) (s s' : St) (a : A) :
  m s = (Ok a, s') -> bind m k s = k a s'.
Proof. intro H. unfold bind. now rewrite H. Qed.

Lemma bind_raise {St A B : Type} (m : M St A) (k : A -> M St B) (s s' : St) (e : exn) :
  m s = (Raise e, s') -> bind m k s = (Raise e, s').
Proof. intro H. unfold bind. now rewrite H. Qed.

(** *** Seeded and unseeded draws *)

Lemma normal_array_rect {np : Numpy} (key : Z) (n m : nat) :
  rect n m (normal_array key n m).
Proof.
  unfold normal_array. split.
  - now rewrite length_map, length_seq.
  - apply Forall_map, Forall_forall. intros i _.
    now rewrite length_map, length_seq.
Qed.

Lemma seed_in_range (z : Z) :
  (0 <= z < 2 ^ 32)%Z -> ((0 <=? z) && (z <? 2 ^ 32))%Z = true.
Proof.
  intros [H1 H2]. apply andb_true_iff. split; [now apply Z.leb_le|now apply Z.ltb_lt].
Qed.

Lemma raw_samples_run {np : Numpy} (n : nat) (s : st KolmogorovWFE.t) :
  seed_ok (KolmogorovWFE.seed (self s)) ->
  KolmogorovWFE.raw_samples n s =
    (Ok (normal_array (seed_key (KolmogorovWFE.seed (self s)) (env s)) n n),
     mkSt (self s) (after_draw (KolmogorovWFE.seed (self s)) n n (env s))).
Proof.
  intro Hseed. destruct s as [k w]. cbn [self env] in *.
  unfold KolmogorovWFE.raw_samples, RandomState_new, rs_seed, rs_normal, fresh_entropy,
    bind, ret, gets, modify, on_env, after_draw, seed_key.
  cbn [self env entropy_used draws].
  destruct (KolmogorovWFE.seed k) as [z|]; cbn [seed_ok] in Hseed.
  - rewrite (seed_in_range z Hseed). reflexivity.
  - reflexivity.
Qed.

Lemma sign_squared (sign : Z) : Z.abs sign = 1%Z -> IZR sign * IZR sign = 1.
Proof.
  intro H. rewrite <- mult_IZR. f_equal. lia.
Qed.

Lemma sign_check (sign : Z) : Z.abs sign = 1%Z -> negb (Z.abs sign =? 1)%Z = false.
Proof. intro H. now rewrite H. Qed.

(** On an even side the symmetrisation never fails. *)
Lemma rand_symmetrized_run {np : Numpy} (h : nat) (sign : Z) (s : st KolmogorovWFE.t) :
  (1 <= h)%nat -> Z.abs sign = 1%Z -> seed_ok (KolmogorovWFE.seed (self s)) ->
  exists a,
    KolmogorovWFE.symmetrize (2 * h) (IZR sign)
      (normal_array (seed_key (KolmogorovWFE.seed (self s)) (env s)) (2 * h) (2 * h)) = Ok a /\
    KolmogorovWFE.rand_symmetrized (2 * h) sign s =
      (Ok a, mkSt (self s)
               (after_draw (KolmogorovWFE.seed (self s)) (2 * h) (2 * h) (env s))).
Proof.
  intros Hh Hsign Hseed.
  destruct (symmetrize_even_symmetry h (IZR sign) _ Hh (sign_squared sign Hsign)
              (normal_array_rect (seed_key (KolmogorovWFE.seed (self s)) (env s))
                 (2 * h) (2 * h))) as (a & E & _).
  exists a. split; [exact E|].
  unfold KolmogorovWFE.rand_symmetrized. rewrite (sign_check sign Hsign).
  rewrite (bind_ok _ _ _ _ _ (raw_samples_run (2 * h) s Hseed)).
  unfold lift. now rewrite E.
Qed.

(** C1, as the code has it: for an even side [N = 2h] and a sign of +1 or
    -1, [rand_symmetrized] returns an [N] by [N] array [a] with
    [a[N-i, N-j] = sign * a[i, j]] for all [i], [j] in [1 .. N-1] other than
    the Nyquist index [h]; on row 0 and column 0 the same relation holds
    along the row and the column; and [a[0, 0]] is 0.  Row [h] and column
    [h] are not written. *)
Theorem rand_symmetrized_mirror_symmetry {np : Numpy}
  (h : nat) (sign : Z) (s : st KolmogorovWFE.t) :
  (1 <= h)%nat -> Z.abs sign = 1%Z -> seed_ok (KolmogorovWFE.seed (self s)) ->
  exists a s',
    KolmogorovWFE.rand_symmetrized (2 * h) sign s = (Ok a, s') /\
    rect (2 * h) (2 * h) a /\
    (forall i j, (1 <= i < 2 * h)%nat -> (1 <= j < 2 * h)%nat -> i <> h -> j <> h ->
       get2 a (2 * h - i) (2 * h - j) = IZR sign * get2 a i j) /\
    (forall j, (1 <= j < 2 * h)%nat -> j <> h ->
       get2 a 0 (2 * h - j) = IZR sign * get2 a 0 j) /\
    (forall i, (1 <= i < 2 * h)%nat -> i <> h ->
       get2 a (2 * h - i) 0 = IZR sign * get2 a i 0) /\
    get2 a 0 0 = 0.
Proof.
  intros Hh Hsign Hseed.
  destruct (rand_symmetrized_run h sign s Hh Hsign Hseed) as (a & E & Hrun).
  destruct (symmetrize_even_symmetry h (IZR sign) _ Hh (sign_squared sign Hsign)
              (normal_array_rect (seed_key (KolmogorovWFE.seed (self s)) (env s))
                 (2 * h) (2 * h))) as (a' & E' & Hrect & Hsym).
  rewrite E in E'. injection E' as <-.
  exists a. eexists. split; [exact Hrun|]. split; [exact Hrect|exact Hsym].
Qed.

Lemma rand_symmetrized_mirror_symmetry_witness :
  exists a s',
    KolmogorovWFE.rand_symmetrized (np := sample_numpy) (2 * 3) (-1)
      (mkSt (sample_kolmogorov (Some 7%Z) "Kolmogorov") world0) = (Ok a, s') /\
    rect (2 * 3) (2 * 3) a /\
    (forall i j, (1 <= i < 2 * 3)%nat -> (1 <= j < 2 * 3)%nat -> i <> 3%nat -> j <> 3%nat ->
       get2 a (2 * 3 - i) (2 * 3 - j) = IZR (-1) * get2 a i j) /\
    (forall j, (1 <= j < 2 * 3)%nat -> j <> 3%nat ->
       get2 a 0 (2 * 3 - j) = IZR (-1) * get2 a 0 j) /\
    (forall i, (1 <= i < 2 * 3)%nat -> i <> 3%nat ->
       get2 a (2 * 3 - i) 0 = IZR (-1) * get2 a i 0) /\
    get2 a 0 0 = 0.
Proof.
  apply (rand_symmetrized_mirror_symmetry (np := sample_numpy) 3 (-1)
           (mkSt (sample_kolmogorov (Some 7%Z) "Kolmogorov") world0)).
  - lia.
  - reflexivity.
  - simpl. lia.
Defined.

(** C1 as stated fails on the code.  With sign +1 and side 4 the entries of
    row 2 are never written, so [a[4-2, 4-1]] and [a[2, 1]] are two
    unrelated deviates; with sign -1 and side 2 the entry [a[1, 1]] would
    have to be its own negative. *)
Lemma rand_symmetrized_nyquist_counterexample :
  (exists a s',
     KolmogorovWFE.rand_symmetrized (np := sample_numpy) 4 1
       (mkSt (sample_kolmogorov (Some 0%Z) "Kolmogorov") world0) = (Ok a, s') /\
     get2 a (4 - 2) (4 - 1) <> IZR 1 * get2 a 2 1) /\
  (exists a s',
     KolmogorovWFE.rand_symmetrized (np := sample_numpy) 2 (-1)
       (mkSt (sample_kolmogorov (Some 0%Z) "Kolmogorov") world0) = (Ok a, s') /\
     get2 a (2 - 1) (2 - 1) <> IZR (-1) * get2 a 1 1).
Proof.
  split.
  - eexists. eexists. split; [cbn; reflexivity|]. cbn. lra.
  - eexists. eexists. split; [cbn; reflexivity|]. cbn. lra.
Qed.

(** An odd side larger than 1 makes a mirror assignment fail: the two
    slices differ in length. *)
Example rand_symmetrized_odd_side :
  fst (KolmogorovWFE.rand_symmetrized (np := sample_numpy) 3 1
         (mkSt (sample_kolmogorov (Some 0%Z) "Kolmogorov") world0))
    = Raise broadcast_error /\
  fst (KolmogorovWFE.rand_symmetrized (np := sample_numpy) 5 1
         (mkSt (sample_kolmogorov (Some 0%Z) "Kolmogorov") world0))
    = Raise broadcast_error.
Proof. split; reflexivity. Qed.

(** Row [h] and column [h] of an array of even side [2h] come back as they
    were drawn. *)
Lemma symmetrize_leaves_nyquist (h : nat) (s : R) (a a' : matrix) :
  (1 <= h)%nat -> rect (2 * h) (2 * h) a ->
  KolmogorovWFE.symmetrize (2 * h) s a = Ok a' ->
  forall i, get2 a' h i = get2 a h i /\ get2 a' i h = get2 a i h.
Proof.
  intros Hh Ha E i.
  destruct (symmetrize_stages h s a Hh Ha)
    as (a1 & a2 & a3 & a4 & a5 & E' & _ & G1 & G2 & G3 & G4 & G5).
  rewrite E in E'. injection E' as <-. unfold stage in *.
  split.
  - do 5 (first [through G5|through G4|through G3|through G2|through G1];
          rewrite ?andb_false_r; cbv iota).
    reflexivity.
  - do 5 (first [through G5|through G4|through G3|through G2|through G1];
          rewrite ?andb_false_r; cbv iota).
    reflexivity.
Qed.

(** *** KolmogorovWFE: the complex field and the screen *)

Lemma rand_turbulent_run {np : Numpy} (h : nat) (s : st KolmogorovWFE.t) :
  (1 <= h)%nat -> seed_ok (KolmogorovWFE.seed (self s)) ->
  let sd := KolmogorovWFE.seed (self s) in
  let w1 := after_draw sd (2 * h) (2 * h) (env s) in
  exists a b,
    KolmogorovWFE.symmetrize (2 * h) (IZR 1)
      (normal_array (seed_key sd (env s)) (2 * h) (2 * h)) = Ok a /\
    KolmogorovWFE.symmetrize (2 * h) (IZR (-1))
      (normal_array (seed_key sd w1) (2 * h) (2 * h)) = Ok b /\
    KolmogorovWFE.rand_turbulent (2 * h) s =
      (Ok (KolmogorovWFE.combine_fields a b),
       mkSt (self s) (after_draw sd (2 * h) (2 * h) w1)).
Proof.
  intros Hh Hseed sd w1.
  destruct (rand_symmetrized_run h 1 s Hh eq_refl Hseed) as (a & Ea & Ra).
  destruct (rand_symmetrized_run h (-1) (mkSt (self s) w1) Hh eq_refl Hseed)
    as (b & Eb & Rb).
  exists a, b. split; [exact Ea|]. split; [exact Eb|].
  unfold KolmogorovWFE.rand_turbulent.
  rewrite (bind_ok _ _ _ _ _ Ra). fold sd w1.
  rewrite (bind_ok _ _ _ _ _ Rb). reflexivity.
Qed.

(** C8 on the code: with a fixed seed both calls of [rand_symmetrized]
    reseed their generator with it, so the two fields of [rand_turbulent]
    are the symmetrisations, with sign +1 and with sign -1, of one and the
    same array of deviates; on the rows [1 .. h], which are not written,
    the real and the imaginary part are the same numbers. *)
Theorem rand_turbulent_reuses_samples {np : Numpy}
  (h : nat) (z : Z) (s : st KolmogorovWFE.t) :
  (1 <= h)%nat -> (0 <= z < 2 ^ 32)%Z -> KolmogorovWFE.seed (self s) = Some z ->
  let g := normal_array z (2 * h) (2 * h) in
  exists a b s',
    KolmogorovWFE.symmetrize (2 * h) 1 g = Ok a /\
    KolmogorovWFE.symmetrize (2 * h) (-1) g = Ok b /\
    KolmogorovWFE.rand_turbulent (2 * h) s = (Ok (KolmogorovWFE.combine_fields a b), s') /\
    forall i j, (1 <= i <= h)%nat -> get2 a i j = get2 g i j /\ get2 b i j = get2 g i j.
Proof.
  intros Hh Hz Hs g.
  assert (Hseed : seed_ok (KolmogorovWFE.seed (self s))) by (rewrite Hs; exact Hz).
  destruct (rand_turbulent_run h s Hh Hseed) as (a & b & Ea & Eb & Hrun).
  rewrite Hs in Ea, Eb, Hrun. cbn [seed_key] in Ea, Eb.
  exists a, b. eexists. split; [exact Ea|]. split; [exact Eb|]. split; [exact Hrun|].
  intros i j Hi.
  destruct (symmetrize_stages h 1 g Hh (normal_array_rect z _ _))
    as (a1 & a2 & a3 & a4 & a5 & E & _ & G1 & G2 & G3 & G4 & G5).
  destruct (symmetrize_stages h (-1) g Hh (normal_array_rect z _ _))
    as (b1 & b2 & b3 & b4 & b5 & E' & _ & G1' & G2' & G3' & G4' & G5').
  fold g in Ea, Eb. rewrite Ea in E. rewrite Eb in E'.
  injection E as <-. injection E' as <-. unfold stage in *.
  split.
  - through G5. through G4. through G3. through G2. through G1. reflexivity.
  - through G5'. through G4'. through G3'. through G2'. through G1'. reflexivity.
Qed.

Lemma rand_turbulent_reuses_samples_witness :
  let g := normal_array (np := sample_numpy) 0 (2 * 1) (2 * 1) in
  exists a b s',
    KolmogorovWFE.symmetrize (2 * 1) 1 g = Ok a /\
    KolmogorovWFE.symmetrize (2 * 1) (-1) g = Ok b /\
    KolmogorovWFE.rand_turbulent (np := sample_numpy) (2 * 1)
      (mkSt (sample_kolmogorov (Some 0%Z) "Kolmogorov") world0)
      = (Ok (KolmogorovWFE.combine_fields a b), s') /\
    forall i j, (1 <= i <= 1)%nat -> get2 a i j = get2 g i j /\ get2 b i j = get2 g i j.
Proof.
  apply (rand_turbulent_reuses_samples (np := sample_numpy) 1 0
           (mkSt (sample_kolmogorov (Some 0%Z) "Kolmogorov") world0)).
  - lia.
  - lia.
  - reflexivity.
Defined.

(** The same on a side of 2 with seed 0: the array is only zeroed at
    [(0, 0)], so the two fields are equal entry by entry. *)
Example rand_turbulent_side_2 :
  fst (KolmogorovWFE.rand_turbulent (np := sample_numpy) 2
         (mkSt (sample_kolmogorov (Some 0%Z) "Kolmogorov") world0))
  = Ok (KolmogorovWFE.combine_fields
          [[0; 0 + 1 + 1]; [0 + (1 + 1) + 1; 0 + (1 + 1 + 1) + 1]]
          [[0; 0 + 1 + 1]; [0 + (1 + 1) + 1; 0 + (1 + 1 + 1) + 1]]).
Proof. reflexivity. Qed.

(** C2 as stated fails on the code: the failing call has drawn Gaussian
    numbers before the error is raised. *)
Lemma von_Karman_draws_counterexample :
  let r := KolmogorovWFE.get_opd (np := sample_numpy) (PyWavefront (sample_wave 2))
             (mkSt (sample_kolmogorov (Some 0%Z) "von Karman") world0) in
  fst r = Raise KolmogorovWFE.no_outer_scale /\
  draws (env (snd r)) <> draws world0.
Proof.
  split.
  - reflexivity.
  - cbn. discriminate.
Qed.

(** C4 on the code: the constructor raises its configuration error only
    when [dz] is missing together with [r0] or [Cn2]; a [dz] given alone,
    with neither [r0] nor [Cn2], is accepted, and a missing [dz] with both
    [r0] and [Cn2] given gets past the check and fails on [dz.to]. *)
Theorem init_outcome
  (r0 Cn2 dz inner_scale outer_scale : option R) (kind : string) (seed : option Z) :
  KolmogorovWFE.__init__ r0 Cn2 dz inner_scale outer_scale kind seed
  = match dz with
    | Some d => Ok (KolmogorovWFE.mk r0 Cn2 seed d inner_scale outer_scale kind None)
    | None => Raise (match r0, Cn2 with
                     | Some _, Some _ => AttributeError
                     | _, _ => KolmogorovWFE.missing_parameters
                     end)
    end.
Proof. destruct dz, r0, Cn2; reflexivity. Qed.

(** [KolmogorovWFE(dz=1*u.m)] is constructed. *)
Example init_with_dz_alone :
  KolmogorovWFE.__init__ None None (Some 1) None None "Kolmogorov" None
  = Ok (KolmogorovWFE.mk None None None 1 None None "Kolmogorov" None).
Proof. reflexivity. Qed.

(** *** The argument check *)

(** C10: the five decorated [get_opd] raise the [ValueError] of
    [_check_wavefront_arg] on every argument that is no instance of
    [BaseWavefront], and leave the state alone; [KolmogorovWFE.get_opd],
    which has no decorator, treats an object with the attributes of a
    wavefront like a wavefront, and on a float fails on the attribute
    access instead. *)
Theorem get_opd_argument_check {np : Numpy} {pp : Poppy} {U : Units} (wave : pyobj) :
  isinstance_BaseWavefront wave = false ->
  (forall s, ZernikeWFE.get_opd wave s = (Raise not_a_wavefront, s)) /\
  (forall s, ParameterizedWFE.get_opd wave s = (Raise not_a_wavefront, s)) /\
  (forall s, SineWaveWFE.get_opd wave s = (Raise not_a_wavefront, s)) /\
  (forall s, StatisticalPSDWFE.get_opd wave s = (Raise not_a_wavefront, s)) /\
  (forall s, PowerSpectrumWFE.get_opd wave s = (Raise not_a_wavefront, s)) /\
  (forall w s, KolmogorovWFE.get_opd (PyDuck w) s
               = KolmogorovWFE.get_opd (PyWavefront w) s) /\
  (forall x s, KolmogorovWFE.get_opd (PyFloat x) s = (Raise AttributeError, s)).
Proof.
  intro H.
  unfold ZernikeWFE.get_opd, ParameterizedWFE.get_opd, SineWaveWFE.get_opd,
    StatisticalPSDWFE.get_opd, PowerSpectrumWFE.get_opd, _check_wavefront_arg.
  rewrite H. cbn [negb].
  repeat split; reflexivity.
Qed.

Lemma get_opd_argument_check_witness :
  (forall s, ZernikeWFE.get_opd (np := sample_numpy) (pp := sample_poppy) (PyFloat 1) s
             = (Raise not_a_wavefront, s)) /\
  (forall s, ParameterizedWFE.get_opd (np := sample_numpy) (pp := sample_poppy) (PyFloat 1) s
             = (Raise not_a_wavefront, s)) /\
  (forall s, SineWaveWFE.get_opd (pp := sample_poppy) (PyFloat 1) s
             = (Raise not_a_wavefront, s)) /\
  (forall s, StatisticalPSDWFE.get_opd (np := sample_numpy) (pp := sample_poppy) (PyFloat 1) s
             = (Raise not_a_wavefront, s)) /\
  (forall s, PowerSpectrumWFE.get_opd (U := sample_units) (np := sample_numpy)
               (pp := sample_poppy) (PyFloat 1) s
             = (Raise not_a_wavefront, s)) /\
  (forall w s, KolmogorovWFE.get_opd (np := sample_numpy) (PyDuck w) s
               = KolmogorovWFE.get_opd (np := sample_numpy) (PyWavefront w) s) /\
  (forall x s, KolmogorovWFE.get_opd (np := sample_numpy) (PyFloat x) s
               = (Raise AttributeError, s)).
Proof.
  apply (get_opd_argument_check (np := sample_numpy) (pp := sample_poppy)
           (U := sample_units) (PyFloat 1)).
  reflexivity.
Defined.

(** *** What a call leaves on the object *)

Section Keeps.
Context {Obj B : Type} (f : Obj -> B).

Lemma keeps_ret {A : Type} (a : A) : keeps f (ret a).
Proof. intro s. reflexivity. Qed.

Lemma keeps_raise {A : Type} (e : exn) : keeps f (@raise (st Obj) A e).
Proof. intro s. reflexivity. Qed.

Lemma keeps_lift {A : Type} (r : result A) : keeps f (lift r).
Proof. intro s. reflexivity. Qed.

Lemma keeps_gets {A : Type} (g : st Obj -> A) : keeps f (gets g).
Proof. intro s. reflexivity. Qed.

Lemma keeps_on_env (g : world -> world) : keeps f (modify (on_env g)).
Proof. intro s. reflexivity. Qed.

Lemma keeps_on_self (g : Obj -> Obj) :
  (forall k, f (g k) = f k) -> keeps f (modify (on_self g)).
Proof. intros H s. apply H. Qed.

Lemma keeps_bind {A A' : Type} (m : M (st Obj) A) (k : A -> M (st Obj) A') :
  keeps f m -> (forall a, keeps f (k a)) -> keeps f (bind m k).
Proof.
  intros Hm Hk s. unfold bind.
  specialize (Hm s). destruct (m s) as [[a|e] s']; cbn [snd] in *.
  - rewrite (Hk a s'). exact Hm.
  - exact Hm.
Qed.

Lemma keeps_fresh_entropy {np : Numpy} : keeps f fresh_entropy.
Proof. intro s. reflexivity. Qed.

Lemma keeps_RandomState_new {np : Numpy} : keeps f RandomState_new.
Proof.
  apply keeps_bind; [apply keeps_fresh_entropy|intro; apply keeps_ret].
Qed.

Lemma keeps_rs_seed {np : Numpy} (rs : RandomState) (seed : option Z) :
  keeps f (rs_seed rs seed).
Proof.
  unfold rs_seed. destruct seed as [z|].
  - destruct ((0 <=? z) && (z <? 2 ^ 32))%Z; [apply keeps_ret|apply keeps_raise].
  - apply keeps_bind; [apply keeps_fresh_entropy|intro; apply keeps_ret].
Qed.

Lemma keeps_rs_normal {np : Numpy} (rs : RandomState) (n m : nat) :
  keeps f (rs_normal rs n m).
Proof.
  apply keeps_bind; [apply keeps_on_env|intro; apply keeps_ret].
Qed.

Lemma keeps_check {A : Type} (g : pyobj -> M (st Obj) A) (wave : pyobj) :
  (forall wave, keeps f (g wave)) -> keeps f (_check_wavefront_arg g wave).
Proof.
  intro H. unfold _check_wavefront_arg.
  destruct (negb (isinstance_BaseWavefront wave)); [apply keeps_raise|apply H].
Qed.
End Keeps.

Ltac keeps_step :=
  first
    [ apply keeps_ret | apply keeps_raise | apply keeps_lift | apply keeps_gets
    | apply keeps_on_env | apply keeps_RandomState_new | apply keeps_rs_seed
    | apply keeps_rs_normal
    | apply keeps_on_self; intros []; reflexivity
    | apply keeps_bind; [|intro]
    | apply keeps_check; intro
    | match goal with
      | |- keeps _ (if ?b then _ else _) => destruct b
      | |- keeps _ (match ?x with _ => _ end) => destruct x
      end ].

Ltac keeps_all := repeat keeps_step.

Lemma Zernike_get_opd_keeps {np : Numpy} {pp : Poppy} (wave : pyobj) :
  keeps (fun k => k) (ZernikeWFE.get_opd wave).
Proof. unfold ZernikeWFE.get_opd. keeps_all. Qed.

Lemma Parameterized_get_opd_keeps {np : Numpy} {pp : Poppy} (wave : pyobj) :
  keeps (fun k => k) (ParameterizedWFE.get_opd wave).
Proof. unfold ParameterizedWFE.get_opd. keeps_all. Qed.

Lemma SineWave_get_opd_keeps {pp : Poppy} (wave : pyobj) :
  keeps (fun k => k) (SineWaveWFE.get_opd wave).
Proof. unfold SineWaveWFE.get_opd. keeps_all. Qed.

Lemma StatisticalPSD_get_opd_keeps {np : Numpy} {pp : Poppy} (wave : pyobj) :
  keeps StatisticalPSD_config (StatisticalPSDWFE.get_opd wave).
Proof. unfold StatisticalPSDWFE.get_opd. keeps_all. Qed.

Lemma rand_symmetrized_keeps {np : Numpy} {B : Type} (f : KolmogorovWFE.t -> B)
  (n : nat) (sign : Z) : keeps f (KolmogorovWFE.rand_symmetrized n sign).
Proof.
  unfold KolmogorovWFE.rand_symmetrized, KolmogorovWFE.raw_samples. keeps_all.
Qed.

Lemma rand_turbulent_keeps {np : Numpy} {B : Type} (f : KolmogorovWFE.t -> B) (n : nat) :
  keeps f (KolmogorovWFE.rand_turbulent n).
Proof.
  unfold KolmogorovWFE.rand_turbulent.
  apply keeps_bind; [apply rand_symmetrized_keeps|intro].
  apply keeps_bind; [apply rand_symmetrized_keeps|intro]. apply keeps_ret.
Qed.

Lemma power_spectrum_keeps {np : Numpy} {B : Type} (f : KolmogorovWFE.t -> B)
  (wave : pyobj) (kind : string) : keeps f (KolmogorovWFE.power_spectrum wave kind).
Proof. unfold KolmogorovWFE.power_spectrum. keeps_all. Qed.

Lemma Kolmogorov_get_opd_keeps {np : Numpy} (wave : pyobj) :
  keeps Kolmogorov_config (KolmogorovWFE.get_opd wave).
Proof.
  unfold KolmogorovWFE.get_opd.
  apply keeps_bind; [apply keeps_lift|intro].
  apply keeps_bind; [keeps_all|intro].
  apply keeps_bind; [apply rand_turbulent_keeps|intro].
  apply keeps_bind; [apply keeps_gets|intro].
  apply keeps_bind; [apply power_spectrum_keeps|intro].
  keeps_all.
Qed.

(** *** PowerSpectrumWFE: the screen size *)

Lemma resolve_screen_size_keeps {np : Numpy} {pp : Poppy} {U : Units} (w : Wavefront) :
  keeps PowerSpectrum_config (PowerSpectrumWFE.resolve_screen_size w).
Proof. unfold PowerSpectrumWFE.resolve_screen_size. keeps_all. Qed.

Lemma synthesize_keeps {np : Numpy} {pp : Poppy} {U : Units} {B : Type}
  (f : PowerSpectrumWFE.t -> B) (w : Wavefront) (size : nat) :
  keeps f (PowerSpectrumWFE.synthesize w size).
Proof. unfold PowerSpectrumWFE.synthesize. keeps_all. Qed.

Lemma calibrate_keeps_config {np : Numpy} {pp : Poppy} {U : Units}
  (w : Wavefront) (size : nat) (opd : matrix) :
  keeps PowerSpectrum_config (PowerSpectrumWFE.calibrate w size opd).
Proof. unfold PowerSpectrumWFE.calibrate. keeps_all. Qed.

Lemma calibrate_keeps_size {np : Numpy} {pp : Poppy} {U : Units}
  (w : Wavefront) (size : nat) (opd : matrix) :
  keeps PowerSpectrumWFE.screen_size (PowerSpectrumWFE.calibrate w size opd).
Proof. unfold PowerSpectrumWFE.calibrate. keeps_all. Qed.

(** The screen size [resolve_screen_size] returns is the one it leaves on
    the object. *)
Lemma resolve_screen_size_run {np : Numpy} {pp : Poppy} {U : Units}
  (w : Wavefront) (s : st PowerSpectrumWFE.t) :
  let r := PowerSpectrumWFE.resolve_screen_size w s in
  PowerSpectrumWFE.screen_size (self (snd r)) = screen_size_after (PyWavefront w) (self s) /\
  env (snd r) = env s /\
  (forall size, fst r = Ok size ->
     PowerSpectrumWFE.screen_size (self (snd r)) = Some size /\
     (if ispadded w then npix w / oversample w else npix w) <= size)%nat.
Proof.
  destruct s as [k e]. unfold PowerSpectrumWFE.resolve_screen_size, screen_size_after.
  cbn [self env]. unfold bind, ret, raise, gets, modify, on_self.
  destruct (ispadded w) eqn:Hpad; cbn [negb]; cbv beta iota.
  - destruct (Nat.eqb_spec (oversample w) 0) as [H0|H0]; cbn [fst snd self env].
    + destruct (PowerSpectrumWFE.screen_size k);
        (split; [reflexivity|split; [reflexivity|discriminate]]).
    + destruct (PowerSpectrumWFE.screen_size k) as [n|] eqn:Hk;
        cbv beta iota; cbn [fst snd self env].
      * match goal with |- context [if ?b then _ else _] => destruct b eqn:Hlt end;
          cbn [fst snd self env];
          rewrite Hk; (split; [reflexivity|split; [reflexivity|]]); [discriminate|].
        apply Nat.ltb_ge in Hlt. intros sz [= <-]. split; [reflexivity|lia].
      * split; [reflexivity|split; [reflexivity|]].
        intros sz [= <-]. split; [reflexivity|].
        apply Nat.Div0.div_le_upper_bound. destruct (oversample w); [lia|]. nia.
  - cbn [self].
    destruct (PowerSpectrumWFE.screen_size k) as [n|] eqn:Hk;
      cbv beta iota; cbn [fst snd self env].
    + match goal with |- context [if ?b then _ else _] => destruct b eqn:Hlt end;
        cbn [fst snd self env];
        rewrite Hk; (split; [reflexivity|split; [reflexivity|]]); [discriminate|].
      apply Nat.ltb_ge in Hlt. intros sz [= <-]. split; [reflexivity|lia].
    + split; [reflexivity|split; [reflexivity|]].
      intros sz [= <-]. split; [reflexivity|lia].
Qed.

Lemma PowerSpectrum_get_opd_keeps {np : Numpy} {pp : Poppy} {U : Units} (wave : pyobj) :
  keeps PowerSpectrum_config (PowerSpectrumWFE.get_opd wave).
Proof.
  unfold PowerSpectrumWFE.get_opd.
  apply keeps_check. intro wv.
  apply keeps_bind; [apply keeps_lift|intro].
  apply keeps_bind; [apply resolve_screen_size_keeps|intro].
  apply keeps_bind; [apply synthesize_keeps|intro].
  apply calibrate_keeps_config.
Qed.

Lemma PowerSpectrum_get_opd_screen_size {np : Numpy} {pp : Poppy} {U : Units}
  (wave : pyobj) (s : st PowerSpectrumWFE.t) :
  PowerSpectrumWFE.screen_size (self (snd (PowerSpectrumWFE.get_opd wave s)))
  = screen_size_after wave (self s).
Proof.
  unfold PowerSpectrumWFE.get_opd, _check_wavefront_arg.
  destruct wave as [w|w|x]; cbn [isinstance_BaseWavefront negb raise snd];
    try (unfold screen_size_after; now destruct (PowerSpectrumWFE.screen_size (self s))).
  cbn [attrs]. unfold bind at 1. cbn [lift].
  destruct (resolve_screen_size_run w s) as (Hsize & _ & _).
  unfold bind at 1.
  destruct (PowerSpectrumWFE.resolve_screen_size w s) as [[size|e] s1];
    cbn [fst snd] in *; [|exact Hsize].
  rewrite <- Hsize.
  apply (keeps_bind PowerSpectrumWFE.screen_size).
  - apply synthesize_keeps.
  - intro. apply calibrate_keeps_size.
Qed.

(** C5, as the code has it: [get_opd] of [ZernikeWFE], [ParameterizedWFE]
    and [SineWaveWFE] leaves the object as it was; [get_opd] of
    [StatisticalPSDWFE], [KolmogorovWFE] and [PowerSpectrumWFE] writes no
    field set at construction other than, for [PowerSpectrumWFE], the screen
    size: a screen size given at construction stays, one left to default is
    replaced on the object by the size the call worked out. *)
Theorem get_opd_frame {np : Numpy} {pp : Poppy} {U : Units} (wave : pyobj) :
  (forall s, self (snd (ZernikeWFE.get_opd wave s)) = self s) /\
  (forall s, self (snd (ParameterizedWFE.get_opd wave s)) = self s) /\
  (forall s, self (snd (SineWaveWFE.get_opd wave s)) = self s) /\
  (forall s, StatisticalPSD_config (self (snd (StatisticalPSDWFE.get_opd wave s)))
             = StatisticalPSD_config (self s)) /\
  (forall s, Kolmogorov_config (self (snd (KolmogorovWFE.get_opd wave s)))
             = Kolmogorov_config (self s)) /\
  (forall s, PowerSpectrum_config (self (snd (PowerSpectrumWFE.get_opd wave s)))
             = PowerSpectrum_config (self s)) /\
  (forall s, PowerSpectrumWFE.screen_size (self (snd (PowerSpectrumWFE.get_opd wave s)))
             = screen_size_after wave (self s)).
Proof.
  split; [exact (Zernike_get_opd_keeps wave)|].
  split; [exact (Parameterized_get_opd_keeps wave)|].
  split; [exact (SineWave_get_opd_keeps wave)|].
  split; [exact (StatisticalPSD_get_opd_keeps wave)|].
  split; [exact (Kolmogorov_get_opd_keeps wave)|].
  split; [exact (PowerSpectrum_get_opd_keeps wave)|].
  exact (PowerSpectrum_get_opd_screen_size wave).
Qed.

(** *** Results that do not depend on the world *)

Section Agree.
Context {Obj : Type} (R : Obj -> Obj -> Prop).

Lemma agree_lift {A : Type} (r1 r2 : result A) :
  r1 = r2 -> agree R (lift r1) (lift r2).
Proof. intros -> s1 s2 H. split; [reflexivity|exact H]. Qed.

Lemma agree_ret {A : Type} (a : A) : agree R (ret a) (ret a).
Proof. intros s1 s2 H. split; [reflexivity|exact H]. Qed.

Lemma agree_raise {A : Type} (e : exn) : agree R (@raise _ A e) (raise e).
Proof. intros s1 s2 H. split; [reflexivity|exact H]. Qed.

Lemma agree_gets {A : Type} (g1 g2 : st Obj -> A) :
  (forall s1 s2, R (self s1) (self s2) -> g1 s1 = g2 s2) -> agree R (gets g1) (gets g2).
Proof. intros Hg s1 s2 H. split; [cbn; f_equal; now apply Hg|exact H]. Qed.

Lemma agree_on_env (g1 g2 : world -> world) :
  agree R (modify (on_env g1)) (modify (on_env g2)).
Proof. intros s1 s2 H. split; [reflexivity|exact H]. Qed.

Lemma agree_on_self (g1 g2 : Obj -> Obj) :
  (forall k1 k2, R k1 k2 -> R (g1 k1) (g2 k2)) ->
  agree R (modify (on_self g1)) (modify (on_self g2)).
Proof. intros Hg s1 s2 H. split; [reflexivity|now apply Hg]. Qed.

Lemma agree_bind {A B : Type} (m1 m2 : M (st Obj) A) (k1 k2 : A -> M (st Obj) B) :
  agree R m1 m2 -> (forall a, agree R (k1 a) (k2 a)) ->
  agree R (bind m1 k1) (bind m2 k2).
Proof.
  intros Hm Hk s1 s2 H. unfold bind.
  destruct (Hm s1 s2 H) as [Hv Hs].
  destruct (m1 s1) as [[a1|e1] t1], (m2 s2) as [[a2|e2] t2];
    cbn [fst snd] in *; try discriminate.
  - injection Hv as <-. now apply Hk.
  - injection Hv as <-. split; [reflexivity|exact Hs].
Qed.

Lemma agree_gets_self {B : Type} (k1 k2 : Obj -> M (st Obj) B) :
  (forall o1 o2, R o1 o2 -> agree R (k1 o1) (k2 o2)) ->
  agree R (bind (gets self) k1) (bind (gets self) k2).
Proof. intros Hk s1 s2 H. unfold bind, gets. now apply Hk. Qed.

(** A generator reseeded with an integer draws the same deviates wherever
    it is. *)
Lemma agree_seeded_draw {np : Numpy} {B : Type} (z : Z) (n m : nat)
  (k1 k2 : matrix -> M (st Obj) B) :
  (forall a, agree R (k1 a) (k2 a)) ->
  agree R
    (rs <- RandomState_new ;; rs <- rs_seed rs (Some z) ;; a <- rs_normal rs n m ;; k1 a)
    (rs <- RandomState_new ;; rs <- rs_seed rs (Some z) ;; a <- rs_normal rs n m ;; k2 a).
Proof.
  intros Hk s1 s2 H.
  unfold RandomState_new, rs_seed, rs_normal, fresh_entropy, bind, ret, raise, modify.
  cbn [fst snd]. destruct ((0 <=? z) && (z <? 2 ^ 32))%Z; cbn [fst snd rs_key].
  - apply Hk. exact H.
  - split; [reflexivity|exact H].
Qed.

Lemma agree_check {A : Type} (g1 g2 : pyobj -> M (st Obj) A) (wave : pyobj) :
  (forall wave, agree R (g1 wave) (g2 wave)) ->
  agree R (_check_wavefront_arg g1 wave) (_check_wavefront_arg g2 wave).
Proof.
  intro H. unfold _check_wavefront_arg.
  destruct (negb (isinstance_BaseWavefront wave)); [apply agree_raise|apply H].
Qed.
End Agree.

Ltac agree_step :=
  first
    [ apply agree_ret | apply agree_raise | apply agree_lift; reflexivity
    | apply agree_on_env
    | apply agree_seeded_draw; intro
    | apply agree_bind; [|intro]
    | apply agree_check; intro
    | match goal with
      | |- agree _ (if ?b then _ else _) (if ?b then _ else _) => destruct b
      | |- agree _ (match ?x with _ => _ end) (match ?x with _ => _ end) => destruct x
      end ].

Ltac agree_all := repeat agree_step.

(** *** StatisticalPSDWFE *)

Lemma StatisticalPSD_get_opd_agree {np : Numpy} {pp : Poppy} (z : Z) (wave : pyobj) :
  agree (seeded_alike StatisticalPSD_config StatisticalPSDWFE.seed z)
    (StatisticalPSDWFE.get_opd wave) (StatisticalPSDWFE.get_opd wave).
Proof.
  unfold StatisticalPSDWFE.get_opd.
  apply agree_check. intro wv.
  apply agree_bind; [apply agree_lift; reflexivity|intro w].
  apply agree_gets_self. intros [i1 w1 r1 sd1 o1] [i2 w2 r2 sd2 o2] (Hc & H1 & H2).
  cbn in Hc, H1, H2. injection Hc as -> -> -> _. subst sd1 sd2.
  cbn [StatisticalPSDWFE.radius StatisticalPSDWFE.index StatisticalPSDWFE.seed].
  destruct (get_coordinates w) as [y x].
  unfold StatisticalPSDWFE.screen. cbn [StatisticalPSDWFE.wfe].
  agree_all.
  apply agree_on_self. intros [] [] (Hc & H1 & H2). cbn in *.
  repeat split; assumption.
Qed.

(** *** KolmogorovWFE *)

Ltac by_config :=
  let H := fresh in
  intros [[] ?] [[] ?] (H & ? & ?); cbn in *; injection H as ?; subst;
  reflexivity.

Lemma raw_samples_agree {np : Numpy} (z : Z) (n : nat) :
  agree (seeded_alike Kolmogorov_config KolmogorovWFE.seed z)
    (KolmogorovWFE.raw_samples n) (KolmogorovWFE.raw_samples n).
Proof.
  intros s1 s2 H. pose proof H as (_ & H1 & H2).
  unfold KolmogorovWFE.raw_samples, RandomState_new, rs_seed, rs_normal, fresh_entropy,
    bind, ret, raise, modify, gets.
  cbn [fst snd self on_env]. rewrite H1, H2.
  destruct ((0 <=? z) && (z <? 2 ^ 32))%Z; cbn [fst snd rs_key self on_env];
    (split; [reflexivity|exact H]).
Qed.

Lemma rand_turbulent_agree {np : Numpy} (z : Z) (n : nat) :
  agree (seeded_alike Kolmogorov_config KolmogorovWFE.seed z)
    (KolmogorovWFE.rand_turbulent n) (KolmogorovWFE.rand_turbulent n).
Proof.
  assert (H : forall sign,
    agree (seeded_alike Kolmogorov_config KolmogorovWFE.seed z)
      (KolmogorovWFE.rand_symmetrized n sign) (KolmogorovWFE.rand_symmetrized n sign)).
  { intro sign. unfold KolmogorovWFE.rand_symmetrized.
    destruct (negb (Z.abs sign =? 1)%Z); [apply agree_raise|].
    apply agree_bind; [apply raw_samples_agree|intro]. now apply agree_lift. }
  unfold KolmogorovWFE.rand_turbulent.
  apply agree_bind; [apply H|intro]. apply agree_bind; [apply H|intro]. apply agree_ret.
Qed.

Lemma power_spectrum_agree {np : Numpy} (z : Z) (wave : pyobj) (kind : string) :
  agree (seeded_alike Kolmogorov_config KolmogorovWFE.seed z)
    (KolmogorovWFE.power_spectrum wave kind) (KolmogorovWFE.power_spectrum wave kind).
Proof.
  unfold KolmogorovWFE.power_spectrum.
  destruct (negb (existsb (String.eqb kind) KolmogorovWFE.kinds)); [apply agree_raise|].
  apply agree_bind; [now apply agree_lift|intro w].
  apply agree_bind; [apply agree_gets; unfold KolmogorovWFE.get_Cn2; by_config|intro c].
  apply agree_bind; [apply agree_gets; by_config|intro L0].
  apply agree_bind; [agree_all|intro q2].
  apply agree_bind; [agree_all|intro].
  apply agree_bind; [agree_all|intro c'].
  destruct (String.eqb kind "Tatarski" || String.eqb kind "von Karman"
            || String.eqb kind "Hill")%bool; [|apply agree_ret].
  apply agree_bind; [apply agree_gets; by_config|intro l0].
  agree_all.
Qed.

Lemma Kolmogorov_get_opd_agree {np : Numpy} (z : Z) (wave : pyobj) :
  agree (seeded_alike Kolmogorov_config KolmogorovWFE.seed z)
    (KolmogorovWFE.get_opd wave) (KolmogorovWFE.get_opd wave).
Proof.
  unfold KolmogorovWFE.get_opd.
  apply agree_bind; [now apply agree_lift|intro w].
  apply agree_bind; [agree_all|intro].
  apply agree_bind; [apply rand_turbulent_agree|intro fld].
  apply agree_bind; [apply agree_gets; by_config|intro kd].
  apply agree_bind; [apply power_spectrum_agree|intro phi].
  apply agree_bind; [apply agree_gets; by_config|intro dist].
  apply agree_bind; [now apply agree_lift|intro g].
  apply agree_bind; [|intro; apply agree_ret].
  apply agree_on_self. intros [] [] (Hc & H1 & H2). cbn in *.
  repeat split; assumption.
Qed.

(** *** PowerSpectrumWFE *)

Lemma PowerSpectrum_rest_agree {np : Numpy} {pp : Poppy} {U : Units}
  (z : Z) (w : Wavefront) (size : nat) :
  agree (PowerSpectrum_alike z)
    (opd <- PowerSpectrumWFE.synthesize w size ;; PowerSpectrumWFE.calibrate w size opd)
    (opd <- PowerSpectrumWFE.synthesize w size ;; PowerSpectrumWFE.calibrate w size opd).
Proof.
  assert (Hset : forall o, agree (PowerSpectrum_alike z)
            (modify (on_self (PowerSpectrumWFE.set_opd o)))
            (modify (on_self (PowerSpectrumWFE.set_opd o)))).
  { intro o. apply agree_on_self. intros [] [] (Hc & H1 & H2). cbn in *.
    repeat split; assumption. }
  apply agree_bind.
  - unfold PowerSpectrumWFE.synthesize.
    apply agree_gets_self.
    intros [ps1 sd1 ar1 ss1 rm1 rd1 ia1 wg1 o1] [ps2 sd2 ar2 ss2 rm2 rd2 ia2 wg2 o2]
      (Hc & H1 & H2).
    cbn in Hc, H1, H2. injection Hc as -> _ -> -> -> -> -> ->. subst sd1 sd2.
    unfold PowerSpectrumWFE.psd_model.
    cbn [PowerSpectrumWFE.psd_weight PowerSpectrumWFE.psd_parameters PowerSpectrumWFE.seed].
    agree_all.
  - intro opd. unfold PowerSpectrumWFE.calibrate.
    apply agree_gets_self.
    intros [ps1 sd1 ar1 ss1 rm1 rd1 ia1 wg1 o1] [ps2 sd2 ar2 ss2 rm2 rd2 ia2 wg2 o2]
      (Hc & H1 & H2).
    cbn in Hc, H1, H2. injection Hc as -> _ -> -> -> -> -> ->. subst sd1 sd2.
    cbn [PowerSpectrumWFE.rms PowerSpectrumWFE.radius PowerSpectrumWFE.incident_angle
         PowerSpectrumWFE.apply_reflection].
    apply agree_bind; [agree_all|intro o].
    apply agree_bind; [apply Hset|intro; apply agree_ret].
Qed.

Lemma PowerSpectrum_get_opd_agree {np : Numpy} {pp : Poppy} {U : Units}
  (z : Z) (wave : pyobj) :
  agree (PowerSpectrum_alike z)
    (PowerSpectrumWFE.get_opd wave) (PowerSpectrumWFE.get_opd wave).
Proof.
  assert (Hset : forall n, agree (PowerSpectrum_alike z)
            (modify (on_self (PowerSpectrumWFE.set_screen_size n)))
            (modify (on_self (PowerSpectrumWFE.set_screen_size n)))).
  { intro n. apply agree_on_self. intros [] [] (Hc & H1 & H2). cbn in *.
    inversion Hc; subst. repeat split; assumption || reflexivity. }
  assert (Hget : forall (B : Type) (g : option nat -> B),
            agree (PowerSpectrum_alike z)
              (gets (fun s => g (PowerSpectrumWFE.screen_size (self s))))
              (gets (fun s => g (PowerSpectrumWFE.screen_size (self s))))).
  { intros B g. apply agree_gets. intros s1 s2 (Hc & _).
    apply (f_equal snd) in Hc. cbn [snd] in Hc. now rewrite Hc. }
  unfold PowerSpectrumWFE.get_opd.
  apply agree_check. intro wv.
  apply agree_bind; [now apply agree_lift|intro w].
  apply agree_bind; [|intro; apply PowerSpectrum_rest_agree].
  unfold PowerSpectrumWFE.resolve_screen_size.
  apply agree_bind; [agree_all|intro wave_size].
  apply agree_bind; [apply (Hget _ (fun x => x))|intros [n|]].
  - agree_all.
  - apply agree_bind; [apply Hset|intro].
    apply agree_bind; [|intro; apply (Hget _ (fun x => match x with Some n => n | None => O end))].
    destruct (negb (ispadded w)); [apply Hset|apply agree_ret].
Qed.


(** A failing [resolve_screen_size] has written nothing, and a screen size
    that was accepted once is accepted again. *)
Lemma resolve_screen_size_again {np : Numpy} {pp : Poppy} {U : Units}
  (w : Wavefront) (s : st PowerSpectrumWFE.t) :
  let r := PowerSpectrumWFE.resolve_screen_size w s in
  (forall e, fst r = Raise e -> snd r = s) /\
  (forall size, fst r = Ok size ->
     forall s', PowerSpectrumWFE.screen_size (self s') = Some size ->
       PowerSpectrumWFE.resolve_screen_size w s' = (Ok size, s')).
Proof.
  destruct (resolve_screen_size_run w s) as (_ & _ & Hsize).
  cbv zeta in *. split.
  - intro e0. destruct s as [k e]. unfold PowerSpectrumWFE.resolve_screen_size.
    unfold bind, ret, raise, gets, modify, on_self. cbn [self env].
    destruct (ispadded w); cbn [negb]; cbv beta iota; cbn [self env fst snd].
    + destruct (oversample w =? 0)%nat; cbv beta iota; cbn [self env fst snd];
        [reflexivity|].
      destruct (PowerSpectrumWFE.screen_size k) as [n|]; cbv beta iota;
        cbn [self env fst snd]; [|discriminate].
      destruct (n <? npix w / oversample w)%nat; cbn [fst snd];
        [reflexivity|discriminate].
    + destruct (PowerSpectrumWFE.screen_size k) as [n|]; cbv beta iota;
        cbn [self env fst snd]; [|discriminate].
      destruct (n <? npix w)%nat; cbn [fst snd]; [reflexivity|discriminate].
  - intros size Hok s' Hs'. destruct (Hsize size Hok) as [_ Hle].
    assert (Hdiv : ispadded w = true -> (oversample w =? 0)%nat = false).
    { intro Hpad. destruct (oversample w =? 0)%nat eqn:E; [|reflexivity].
      exfalso. revert Hok. unfold PowerSpectrumWFE.resolve_screen_size.
      rewrite Hpad, E. unfold bind, raise. discriminate. }
    unfold PowerSpectrumWFE.resolve_screen_size, bind, ret, gets.
    destruct (ispadded w); cbv beta iota.
    + rewrite (Hdiv eq_refl). cbv beta iota. rewrite Hs'.
      replace (size <? npix w / oversample w)%nat with false
        by (symmetry; apply Nat.ltb_ge; exact Hle).
      reflexivity.
    + rewrite Hs'.
      replace (size <? npix w)%nat with false
        by (symmetry; apply Nat.ltb_ge; exact Hle).
      reflexivity.
Qed.

Lemma PowerSpectrum_get_opd_unfold {np : Numpy} {pp : Poppy} {U : Units}
  (w : Wavefront) (s : st PowerSpectrumWFE.t) :
  PowerSpectrumWFE.get_opd (PyWavefront w) s
  = bind (PowerSpectrumWFE.resolve_screen_size w)
      (fun size => opd <- PowerSpectrumWFE.synthesize w size ;;
                   PowerSpectrumWFE.calibrate w size opd) s.
Proof. reflexivity. Qed.

Lemma PowerSpectrum_get_opd_twice {np : Numpy} {pp : Poppy} {U : Units}
  (z : Z) (wave : pyobj) (s : st PowerSpectrumWFE.t) :
  PowerSpectrumWFE.seed (self s) = Some z ->
  fst (PowerSpectrumWFE.get_opd wave (snd (PowerSpectrumWFE.get_opd wave s)))
  = fst (PowerSpectrumWFE.get_opd wave s).
Proof.
  intro Hseed.
  destruct wave as [w|w|x]; try reflexivity.
  destruct (resolve_screen_size_run w s) as (_ & _ & Hsize).
  destruct (resolve_screen_size_again w s) as (Hraise & Hagain).
  pose proof (resolve_screen_size_keeps w s) as Hcfg.
  cbv zeta in *.
  set (rest := fun size => (opd <- PowerSpectrumWFE.synthesize w size ;;
                            PowerSpectrumWFE.calibrate w size opd)).
  destruct (PowerSpectrumWFE.resolve_screen_size w s) as [[size|e] s1] eqn:E;
    cbn [fst snd] in *.
  - destruct (Hsize size eq_refl) as [Hs1 _].
    rewrite (PowerSpectrum_get_opd_unfold w s), (bind_ok _ _ _ _ _ E). fold (rest size).
    assert (Hs2 : PowerSpectrumWFE.screen_size (self (snd (rest size s1))) = Some size).
    { rewrite <- Hs1. apply (keeps_bind PowerSpectrumWFE.screen_size).
      - apply synthesize_keeps.
      - intro. apply calibrate_keeps_size. }
    assert (Hc2 : PowerSpectrum_config (self (snd (rest size s1)))
                  = PowerSpectrum_config (self s1)).
    { apply (keeps_bind PowerSpectrum_config).
      - apply synthesize_keeps.
      - intro. apply calibrate_keeps_config. }
    rewrite PowerSpectrum_get_opd_unfold, (bind_ok _ _ _ _ _ (Hagain size eq_refl _ Hs2)).
    fold (rest size).
    assert (Hseed1 : PowerSpectrumWFE.seed (self s1) = Some z).
    { rewrite <- Hseed. unfold PowerSpectrum_config in Hcfg. congruence. }
    symmetry. apply (PowerSpectrum_rest_agree z w size).
    split; [|split].
    + now rewrite Hc2, Hs2, Hs1.
    + exact Hseed1.
    + rewrite <- Hseed1. unfold PowerSpectrum_config in Hc2. congruence.
  - rewrite (PowerSpectrum_get_opd_unfold w s), (bind_raise _ _ _ _ _ E).
    cbn [snd fst]. rewrite (Hraise e eq_refl).
    now rewrite PowerSpectrum_get_opd_unfold, (bind_raise _ _ _ _ _ E).
Qed.

(** C6: with a fixed integer seed a second call of [get_opd] on the same
    object and the same wavefront returns what the first call returned
    (the same array, or the same exception), for [StatisticalPSDWFE],
    [PowerSpectrumWFE] and [KolmogorovWFE], whatever the first call left in
    the world and on the object. *)
Theorem seeded_get_opd_repeats {np : Numpy} {pp : Poppy} {U : Units} (z : Z) (wave : pyobj) :
  (forall index wfe radius o e,
     let s := mkSt (StatisticalPSDWFE.mk index wfe radius (Some z) o) e in
     fst (StatisticalPSDWFE.get_opd wave (snd (StatisticalPSDWFE.get_opd wave s)))
     = fst (StatisticalPSDWFE.get_opd wave s)) /\
  (forall ps ar ss rms rad ia wgt o e,
     let s := mkSt (PowerSpectrumWFE.mk ps (Some z) ar ss rms rad ia wgt o) e in
     fst (PowerSpectrumWFE.get_opd wave (snd (PowerSpectrumWFE.get_opd wave s)))
     = fst (PowerSpectrumWFE.get_opd wave s)) /\
  (forall r0 Cn2 dz l0 L0 kind o e,
     let s := mkSt (KolmogorovWFE.mk r0 Cn2 (Some z) dz l0 L0 kind o) e in
     fst (KolmogorovWFE.get_opd wave (snd (KolmogorovWFE.get_opd wave s)))
     = fst (KolmogorovWFE.get_opd wave s)).
Proof.
  split; [|split].
  - intros index wfe radius o e s. symmetry.
    apply (StatisticalPSD_get_opd_agree z wave).
    pose proof (StatisticalPSD_get_opd_keeps wave s) as Hc.
    split; [now rewrite Hc|]. split; [reflexivity|].
    unfold StatisticalPSD_config in Hc. replace (Some z) with (StatisticalPSDWFE.seed (self s))
      by reflexivity. congruence.
  - intros ps ar ss rms rad ia wgt o e s.
    now apply (PowerSpectrum_get_opd_twice z).
  - intros r0 Cn2 dz l0 L0 kind o e s. symmetry.
    apply (Kolmogorov_get_opd_agree z wave).
    pose proof (Kolmogorov_get_opd_keeps wave s) as Hc.
    split; [now rewrite Hc|]. split; [reflexivity|].
    unfold Kolmogorov_config in Hc. replace (Some z) with (KolmogorovWFE.seed (self s))
      by reflexivity. congruence.
Qed.

(** The same from two objects of one configuration, each in its own world. *)
Lemma seeded_get_opd_same_config {np : Numpy} {pp : Poppy} {U : Units}
  (z : Z) (wave : pyobj) :
  (forall s1 s2,
     seeded_alike StatisticalPSD_config StatisticalPSDWFE.seed z (self s1) (self s2) ->
     fst (StatisticalPSDWFE.get_opd wave s1) = fst (StatisticalPSDWFE.get_opd wave s2)) /\
  (forall s1 s2,
     PowerSpectrum_alike z (self s1) (self s2) ->
     fst (PowerSpectrumWFE.get_opd wave s1) = fst (PowerSpectrumWFE.get_opd wave s2)) /\
  (forall s1 s2,
     seeded_alike Kolmogorov_config KolmogorovWFE.seed z (self s1) (self s2) ->
     fst (KolmogorovWFE.get_opd wave s1) = fst (KolmogorovWFE.get_opd wave s2)).
Proof.
  split; [|split]; intros s1 s2 H.
  - now apply (StatisticalPSD_get_opd_agree z wave).
  - now apply (PowerSpectrum_get_opd_agree z wave).
  - now apply (Kolmogorov_get_opd_agree z wave).
Qed.

(** *** PowerSpectrumWFE: the PSD of one term *)

Lemma map2_length {A B D : Type} (f : A -> B -> D) (l1 : list A) (l2 : list B) :
  length (map2 f l1 l2) = Nat.min (length l1) (length l2).
Proof. unfold map2. now rewrite length_map, length_combine. Qed.

Lemma map2_nth {A B D : Type} (f : A -> B -> D) (l1 : list A) (l2 : list B)
  (n : nat) (a : A) (b : B) (d : D) :
  (n < length l1)%nat -> (n < length l2)%nat ->
  nth n (map2 f l1 l2) d = f (nth n l1 a) (nth n l2 b).
Proof.
  revert l2 n. induction l1 as [|x t IH]; intros [|y u] [|n] H1 H2; simpl in *;
    try lia; [reflexivity|].
  apply IH; lia.
Qed.

Lemma mmap_rect {A B : Type} (f : A -> B) (n m : nat) (a : list (list A)) :
  rect n m a -> rect n m (mmap f a).
Proof.
  intros [Hl Hr]. unfold mmap. split.
  - now rewrite length_map.
  - apply Forall_map. rewrite Forall_forall in *. intros x Hx.
    rewrite length_map. now apply Hr.
Qed.

Lemma mmap_get2 (f : R -> R) (n m : nat) (a : matrix) (i j : nat) :
  rect n m a -> (i < n)%nat -> (j < m)%nat ->
  get2 (mmap f a) i j = f (get2 a i j).
Proof.
  intros Ha Hi Hj. pose proof Ha as [Hl _]. unfold get2, mmap.
  rewrite (nth_indep _ [] (map f []))
    by (rewrite length_map; lia).
  rewrite map_nth.
  rewrite (nth_indep _ 0 (f 0))
    by (rewrite length_map, (rect_row n m a i Ha Hi); lia).
  now rewrite map_nth.
Qed.

Lemma zip2_rect {A B D : Type} (f : A -> B -> D) (n m : nat)
  (a : list (list A)) (b : list (list B)) :
  rect n m a -> rect n m b -> rect n m (zip2 f a b).
Proof.
  intros Ha Hb. pose proof Ha as [Hla _]. pose proof Hb as [Hlb _].
  apply rect_intro.
  - unfold zip2. rewrite map2_length. lia.
  - intros i Hi. unfold zip2.
    rewrite (map2_nth _ a b i [] []) by lia.
    rewrite map2_length, (rect_row n m a i Ha Hi), (rect_row n m b i Hb Hi). lia.
Qed.

Lemma k_grid_rect (cen : nat) (dk : R) :
  rect (2 * cen) (2 * cen) (PowerSpectrumWFE.k_grid cen dk).
Proof.
  unfold PowerSpectrumWFE.k_grid. split.
  - now rewrite length_map, length_seq.
  - apply Forall_map, Forall_forall. intros i _. now rewrite length_map, length_seq.
Qed.

(** [psd_interm] on a term without outer scale: the value at the centre of
    the grid is forced to 0 and the frequency map gets its 0 back. *)
Lemma psd_interm_no_outer_scale {U : Units} (cen : nat) (dk : R) (k_map : matrix)
  (p : PowerSpectrumWFE.psd_term) :
  (1 <= cen)%nat -> rect (2 * cen) (2 * cen) k_map ->
  PowerSpectrumWFE.outer_scale p = 0 ->
  exists interm k_map',
    PowerSpectrumWFE.psd_interm cen dk k_map p = Ok (interm, k_map') /\
    rect (2 * cen) (2 * cen) interm /\
    rect (2 * cen) (2 * cen) k_map' /\
    get2 interm cen cen = 0 /\
    get2 k_map' cen cen = 0 /\
    (forall i j, (i, j) <> (cen, cen) -> get2 k_map' i j = get2 k_map i j).
Proof.
  intros Hcen Hk Hp. unfold PowerSpectrumWFE.psd_interm. cbv zeta. rewrite Hp.
  destruct (Req_dec_T 0 0) as [_|Hne]; [|now elim Hne].
  destruct (set_item_exact _ _ k_map cen cen (1 * dk) Hk) as (k1 & E1 & R1 & G1); try lia.
  rewrite E1.
  match goal with
  | |- context [set_item (zip2 ?f k1 ?den) cen cen 0] =>
      assert (Rz : rect (2 * cen) (2 * cen) (zip2 f k1 den))
        by (apply zip2_rect; [exact R1|now apply mmap_rect])
  end.
  destruct (set_item_exact _ _ _ cen cen 0 Rz) as (interm & E2 & R2 & G2); try lia.
  rewrite E2.
  destruct (set_item_exact _ _ k1 cen cen 0 R1) as (k2 & E3 & R3 & G3); try lia.
  rewrite E3.
  exists interm, k2. split; [reflexivity|]. split; [exact R2|]. split; [exact R3|].
  split; [|split].
  - rewrite G2, !Nat.eqb_refl. reflexivity.
  - rewrite G3, !Nat.eqb_refl. reflexivity.
  - intros i j Hij. rewrite G3, G1.
    destruct (Nat.eqb_spec i cen) as [->|Hi]; [|reflexivity].
    destruct (Nat.eqb_spec j cen) as [->|Hj]; [now elim Hij|reflexivity].
Qed.

(** C7, as the code has it: for a term whose outer scale is 0 the PSD value
    at the zero-frequency sample is forced to 0, the frequency map is put
    back, and the roughness floor is added afterwards, so that the term
    contributes [weight * surf_roughness] to the total PSD at zero spatial
    frequency. *)
Theorem zero_frequency_contribution {U : Units} (cen : nat) (dk weight : R)
  (k_map : matrix) (p : PowerSpectrumWFE.psd_term) :
  (1 <= cen)%nat -> rect (2 * cen) (2 * cen) k_map ->
  PowerSpectrumWFE.outer_scale p = 0 ->
  exists interm k_map',
    PowerSpectrumWFE.psd_interm cen dk k_map p = Ok (interm, k_map') /\
    get2 interm cen cen = 0 /\
    get2 k_map' cen cen = 0 /\
    get2 (PowerSpectrumWFE.contribution weight p interm) cen cen
    = weight * value (PowerSpectrumWFE.surf_roughness p).
Proof.
  intros Hcen Hk Hp.
  destruct (psd_interm_no_outer_scale cen dk k_map p Hcen Hk Hp)
    as (interm & k_map' & E & Ri & _ & Hi & Hk' & _).
  exists interm, k_map'. split; [exact E|]. split; [exact Hi|]. split; [exact Hk'|].
  unfold PowerSpectrumWFE.contribution.
  rewrite (mmap_get2 _ (2 * cen) (2 * cen)) by (trivial; lia).
  rewrite Hi. now rewrite Rplus_0_l.
Qed.

Lemma zero_frequency_contribution_witness :
  exists interm k_map',
    PowerSpectrumWFE.psd_interm 1 1 (PowerSpectrumWFE.k_grid 1 1) sample_term
      = Ok (interm, k_map') /\
    get2 interm 1 1 = 0 /\
    get2 k_map' 1 1 = 0 /\
    get2 (PowerSpectrumWFE.contribution 1 sample_term interm) 1 1
    = 1 * value (PowerSpectrumWFE.surf_roughness sample_term).
Proof.
  apply (zero_frequency_contribution (U := sample_units) 1 1 1
           (PowerSpectrumWFE.k_grid 1 1) sample_term).
  - lia.
  - apply k_grid_rect.
  - reflexivity.
Defined.

(** C7 as stated fails on the code: with a roughness floor of 1 and a weight
    of 1 the term adds 1, not 0, to the total PSD at zero frequency. *)
Lemma zero_frequency_counterexample :
  exists interm k_map',
    PowerSpectrumWFE.psd_interm 1 1 (PowerSpectrumWFE.k_grid 1 1) sample_term
      = Ok (interm, k_map') /\
    get2 (PowerSpectrumWFE.contribution 1 sample_term interm) 1 1 <> 0.
Proof.
  destruct (psd_interm_no_outer_scale (U := sample_units) 1 1
              (PowerSpectrumWFE.k_grid 1 1) sample_term
              (le_n 1) (k_grid_rect 1 1) eq_refl)
    as (interm & k_map' & E & Ri & _ & Hi & _).
  exists interm, k_map'. split; [exact E|].
  unfold PowerSpectrumWFE.contribution.
  rewrite (mmap_get2 _ 2 2) by (trivial; lia).
  rewrite Hi. cbn. lra.
Qed.

(** *** PowerSpectrumWFE: the rms calibration *)

Lemma shape_scale (c : R) (a : matrix) : shape (scale c a) = shape a.
Proof.
  unfold shape, scale. rewrite length_map. f_equal.
  destruct a as [|r t]; [reflexivity|]. cbn. unfold scale1. now rewrite length_map.
Qed.

Lemma pad_or_crop_scale (c : R) (a : matrix) (target : nat * nat) :
  pad_or_crop_to_shape (scale c a) target = scale c (pad_or_crop_to_shape a target).
Proof.
  unfold pad_or_crop_to_shape. rewrite shape_scale.
  destruct (shape a) as [lx ly], target as [lx_w ly_w].
  destruct ((lx =? lx_w)%nat && (ly =? ly_w)%nat); [reflexivity|].
  destruct ((lx <? lx_w)%nat || (ly <? ly_w)%nat);
    unfold scale, scale1; rewrite map_map; apply map_ext; intro i;
    rewrite map_map; apply map_ext; intro j.
  - destruct (in_block _ _ _ _ i j); [apply scale_get2|now rewrite Rmult_0_r].
  - apply scale_get2.
Qed.

Lemma grid_shape {A : Type} (f : nat -> nat -> A) (n m : nat) :
  (0 < n)%nat ->
  shape (map (fun i => map (fun j => f i j) (seq 0 m)) (seq 0 n)) = (n, m).
Proof.
  intro Hn. unfold shape. rewrite length_map, length_seq. f_equal.
  destruct n; [lia|]. cbn. now rewrite length_map, length_seq.
Qed.

(** What was brought to a shape once is not changed by doing it again. *)
Lemma pad_or_crop_idempotent (a : matrix) (target : nat * nat) :
  pad_or_crop_to_shape (pad_or_crop_to_shape a target) target
  = pad_or_crop_to_shape a target.
Proof.
  destruct target as [lx_w ly_w].
  assert (Hgrid : forall f : nat -> nat -> R,
    pad_or_crop_to_shape (map (fun i => map (fun j => f i j) (seq 0 ly_w)) (seq 0 lx_w))
      (lx_w, ly_w)
    = map (fun i => map (fun j => f i j) (seq 0 ly_w)) (seq 0 lx_w)).
  { intro f. destruct lx_w as [|n].
    - cbn. destruct ly_w; reflexivity.
    - unfold pad_or_crop_to_shape. rewrite grid_shape by lia.
      now rewrite !Nat.eqb_refl. }
  remember (pad_or_crop_to_shape a (lx_w, ly_w)) as b eqn:Hb.
  unfold pad_or_crop_to_shape in Hb.
  destruct (shape a) as [lx ly] eqn:Hs.
  destruct ((lx =? lx_w)%nat && (ly =? ly_w)%nat) eqn:Heq.
  - subst b. unfold pad_or_crop_to_shape. now rewrite Hs, Heq.
  - destruct ((lx <? lx_w)%nat || (ly <? ly_w)%nat); subst b; apply Hgrid.
Qed.

Lemma select_true_scale (c : R) (a mask : matrix) (l : list R) :
  select_true a mask = Ok l -> select_true (scale c a) mask = Ok (map (Rmult c) l).
Proof.
  unfold select_true.
  assert (Hcheck : forallb (fun p : list R * list R =>
                     (length (fst p) =? length (snd p))%nat) (combine (scale c a) mask)
                   = forallb (fun p : list R * list R =>
                     (length (fst p) =? length (snd p))%nat) (combine a mask)).
  { revert mask. induction a as [|r t IH]; intros [|r' t']; cbn; trivial.
    unfold scale1 at 1. rewrite length_map. f_equal. apply IH. }
  rewrite Hcheck. unfold scale at 1. rewrite length_map.
  intro H.
  match type of H with
  | (if ?b then _ else _) = _ => destruct b eqn:Hb; [|discriminate]
  end.
  match goal with
  | |- (if ?b then _ else _) = _ => replace b with true by (symmetry; exact Hb)
  end.
  injection H as <-. f_equal.
  change (scale c a) with (map (map (Rmult c)) a). rewrite <- concat_map.
  generalize (concat a) (concat mask). clear.
  intro l. induction l as [|x t IH]; intros [|y u]; cbn; try reflexivity.
  destruct (Req_dec_T y 1); cbn; now rewrite IH.
Qed.

Lemma sum_squares_scale (c : R) (l : list R) :
  sum (map (fun x => x ^ 2) (map (Rmult c) l)) = c ^ 2 * sum (map (fun x => x ^ 2) l).
Proof.
  induction l as [|x t IH]; cbn [map sum fold_right].
  - ring.
  - fold (sum (map (fun x => x ^ 2) (map (Rmult c) t))).
    fold (sum (map (fun x => x ^ 2) t)). rewrite IH. ring.
Qed.

Lemma rms_scale (c : R) (l : list R) :
  sqrt (mean (map (fun x => x ^ 2) (map (Rmult c) l)))
  = Rabs c * sqrt (mean (map (fun x => x ^ 2) l)).
Proof.
  unfold mean. rewrite sum_squares_scale, !length_map.
  unfold Rdiv. rewrite Rmult_assoc.
  rewrite sqrt_mult_alt by apply pow2_ge_0.
  f_equal. replace (c ^ 2) with (Rsqr c) by (unfold Rsqr; ring).
  apply sqrt_Rsqr_abs.
Qed.

Lemma rms_measure_scale {pp : Poppy} (w : Wavefront) (r c m : R) (a : matrix) :
  PowerSpectrumWFE.rms_measure w r a = Ok m ->
  PowerSpectrumWFE.rms_measure w r (scale c a) = Ok (Rabs c * m).
Proof.
  unfold PowerSpectrumWFE.rms_measure. rewrite pad_or_crop_scale.
  destruct (select_true (pad_or_crop_to_shape a (wshape w)) _) as [l|e] eqn:E;
    [|discriminate].
  intros [= <-]. rewrite (select_true_scale c _ _ _ E). now rewrite rms_scale.
Qed.

Lemma rms_measure_cropped {pp : Poppy} (w : Wavefront) (r : R) (a : matrix) :
  PowerSpectrumWFE.rms_measure w r (pad_or_crop_to_shape a (wshape w))
  = PowerSpectrumWFE.rms_measure w r a.
Proof.
  unfold PowerSpectrumWFE.rms_measure. now rewrite pad_or_crop_idempotent.
Qed.

(** Scaling by target over measure brings the measure to the target. *)
Lemma rescaled_rms {pp : Poppy} (w : Wavefront) (r target m : R) (a : matrix) :
  PowerSpectrumWFE.rms_measure w r a = Ok m -> m <> 0 -> 0 <= target ->
  PowerSpectrumWFE.rms_measure w r (scale (target / m) a) = Ok target.
Proof.
  intros Hm Hne Ht.
  assert (Hpos : 0 < m).
  { unfold PowerSpectrumWFE.rms_measure in Hm.
    destruct (select_true _ _); [|discriminate]. injection Hm as <-.
    destruct (sqrt_pos (mean (map (fun x => x ^ 2) a0))) as [H|H]; [exact H|].
    now elim Hne. }
  rewrite (rms_measure_scale w r (target / m) m a Hm). f_equal.
  rewrite Rabs_right.
  - field. exact Hne.
  - apply Rle_ge. apply Rmult_le_pos; [exact Ht|].
    left. now apply Rinv_0_lt_compat.
Qed.

(** C3: on a [PowerSpectrumWFE] with a target rms and a radius, a zero
    incident angle and no reflection doubling, whenever the screen was
    synthesised and its rms inside the aperture is not zero, [get_opd]
    returns an array whose root mean square over the entries inside the
    aperture of that radius, on the grid of the wavefront, is the target. *)
Theorem rms_matches_target {np : Numpy} {pp : Poppy} {U : Units}
  (w : Wavefront) (s s1 s2 : st PowerSpectrumWFE.t) (size : nat) (opd0 : matrix)
  (target r m0 : R) :
  PowerSpectrumWFE.rms (self s) = Some target ->
  PowerSpectrumWFE.radius (self s) = Some r ->
  PowerSpectrumWFE.incident_angle (self s) = 0 ->
  PowerSpectrumWFE.apply_reflection (self s) = false ->
  PowerSpectrumWFE.resolve_screen_size w s = (Ok size, s1) ->
  PowerSpectrumWFE.synthesize w size s1 = (Ok opd0, s2) ->
  PowerSpectrumWFE.rms_measure w r opd0 = Ok m0 ->
  m0 <> 0 -> 0 <= target ->
  exists out s3,
    PowerSpectrumWFE.get_opd (PyWavefront w) s = (Ok out, s3) /\
    PowerSpectrumWFE.rms_measure w r out = Ok target.
Proof.
  intros Hrms Hrad Hang Hrefl Hres Hsyn Hm0 Hne Ht.
  assert (Hcfg : PowerSpectrum_config (self s2) = PowerSpectrum_config (self s)).
  { pose proof (resolve_screen_size_keeps w s) as H1.
    pose proof (synthesize_keeps PowerSpectrum_config w size s1) as H2.
    rewrite Hres in H1. rewrite Hsyn in H2. cbn [snd] in *. congruence. }
  unfold PowerSpectrum_config in Hcfg. injection Hcfg as _ _ Hrefl2 Hrms2 Hrad2 Hang2 _.
  rewrite Hrefl in Hrefl2. rewrite Hrms in Hrms2. rewrite Hrad in Hrad2.
  rewrite Hang in Hang2.
  rewrite PowerSpectrum_get_opd_unfold, (bind_ok _ _ _ _ _ Hres), (bind_ok _ _ _ _ _ Hsyn).
  unfold PowerSpectrumWFE.calibrate, bind, gets, ret, lift, modify.
  rewrite Hrms2, Hrad2, Hang2, Hrefl2, Hm0.
  destruct (Req_dec_T 0 0) as [_|H]; [|now elim H].
  eexists. eexists. split; [reflexivity|].
  destruct (npix w <? size)%nat.
  - rewrite rms_measure_cropped. now apply rescaled_rms.
  - now apply rescaled_rms.
Qed.

(** *** Concrete runs *)

Ltac decide_R :=
  match goal with
  | |- context [Req_dec_T ?a ?b] =>
      destruct (Req_dec_T a b) as [?|?]; [try (exfalso; lra)|try (exfalso; lra)]
  end.

Ltac run_step :=
  unfold PowerSpectrumWFE.get_opd, ParameterizedWFE.get_opd, _check_wavefront_arg,
    PowerSpectrumWFE.resolve_screen_size, PowerSpectrumWFE.synthesize,
    PowerSpectrumWFE.calibrate, PowerSpectrumWFE.psd_model, PowerSpectrumWFE.psd_interm,
    PowerSpectrumWFE.shape_noise, PowerSpectrumWFE.rms_measure,
    PowerSpectrumWFE.contribution, _wave_y_x_to_rho_theta, select_true,
    RandomState_new, rs_seed, rs_normal, fresh_entropy,
    bind, gets, lift, ret, raise, modify;
  cbn -[Rpower exp sqrt INR Rdiv Rmult Rplus Rminus Rinv cos PI];
  try decide_R.

Ltac run := repeat (progress run_step).

Lemma rms_matches_target_witness :
  exists out s3,
    PowerSpectrumWFE.get_opd (np := flat_numpy) (pp := sample_poppy)
      (PyWavefront (sample_wave 2))
      (mkSt (sample_power_spectrum (Some 2%nat) (Some 3)) world0) = (Ok out, s3) /\
    PowerSpectrumWFE.rms_measure (pp := sample_poppy) (sample_wave 2) 1 out = Ok 3.
Proof.
  eapply (rms_matches_target (np := flat_numpy) (pp := sample_poppy) (U := sample_units)
            (sample_wave 2)
            (mkSt (sample_power_spectrum (Some 2%nat) (Some 3)) world0)
            _ _ 2 _ 3 1 _).
  - reflexivity.
  - reflexivity.
  - reflexivity.
  - reflexivity.
  - reflexivity.
  - run. reflexivity.
  - run. reflexivity.
  - apply Rgt_not_eq, Rlt_gt, sqrt_lt_R0. unfold mean, sum.
    cbn -[Rdiv Rmult Rplus]. apply Rdiv_lt_0_compat; lra.
  - lra.
Defined.

(** C5 as stated fails on the code: a [PowerSpectrumWFE] constructed without
    a screen size holds one after a successful [get_opd]. *)
Lemma screen_size_counterexample :
  let k := sample_power_spectrum None None in
  let r := PowerSpectrumWFE.get_opd (np := sample_numpy) (pp := sample_poppy)
             (PyWavefront (sample_wave 2)) (mkSt k world0) in
  (exists o, fst r = Ok o) /\
  PowerSpectrumWFE.screen_size (self (snd r)) = Some 2%nat /\
  PowerSpectrumWFE.screen_size (self (snd r)) <> PowerSpectrumWFE.screen_size k.
Proof.
  cbv zeta. split; [eexists; run; reflexivity|].
  rewrite PowerSpectrum_get_opd_screen_size. split; [reflexivity|discriminate].
Qed.

(** *** ParameterizedWFE *)

Lemma binop_exact {A B D : Type} (f : A -> B -> D) (n m : nat)
  (a : list (list A)) (b : list (list B)) :
  rect n m a -> rect n m b -> (0 < n)%nat -> binop f a b = Ok (zip2 f a b).
Proof.
  intros Ha Hb Hn. unfold binop.
  rewrite (rect_shape n m a Ha Hn), (rect_shape n m b Hb Hn). cbn [fst snd].
  unfold broadcast_dim. rewrite !Nat.eqb_refl.
  now rewrite (broadcast2_exact a n m Ha), (broadcast2_exact b n m Hb).
Qed.

Lemma rho_theta_rect {np : Numpy} (n m : nat) (y x : matrix) (radius : R) :
  rect n m y -> rect n m x -> (0 < n)%nat ->
  exists rho theta,
    _wave_y_x_to_rho_theta y x radius = Ok (rho, theta) /\
    rect n m rho /\ rect n m theta.
Proof.
  intros Hy Hx Hn. unfold _wave_y_x_to_rho_theta.
  rewrite (binop_exact _ n m x y Hx Hy Hn), (binop_exact _ n m y x Hy Hx Hn).
  eexists. eexists. split; [reflexivity|]. split; now apply zip2_rect.
Qed.

Lemma zeros_rect (n m : nat) : rect n m (zeros n m).
Proof.
  unfold zeros. split; [apply repeat_length|].
  apply Forall_forall. intros r Hr. apply repeat_spec in Hr. subst r.
  apply repeat_length.
Qed.

Lemma iadd_exact (n m : nat) (a v : matrix) :
  rect n m a -> rect n m v -> (0 < n)%nat ->
  iadd a v = Ok (zip2 Rplus a v) /\ rect n m (zip2 Rplus a v).
Proof.
  intros Ha Hv Hn. unfold iadd. rewrite (rect_shape n m a Ha Hn). cbn [fst snd].
  rewrite (broadcast2_exact v n m Hv). split; [reflexivity|now apply zip2_rect].
Qed.

(** With basis arrays of the shape of the grid, the loop of [get_opd]
    fails exactly when a non-zero coefficient has no term at its index. *)
Lemma accumulate_ok (n m : nat) (terms : list matrix) (coefficients : list R) :
  Forall (rect n m) terms -> (0 < n)%nat ->
  forall idx combined, rect n m combined ->
    (forall i c, nth_error coefficients i = Some c -> c <> 0 ->
                 (idx + i < length terms)%nat) ->
    exists out, ParameterizedWFE.accumulate idx coefficients terms combined = Ok out.
Proof.
  intros Hterms Hn. induction coefficients as [|c rest IH]; intros idx combined Hc Hidx.
  - eexists. reflexivity.
  - cbn [ParameterizedWFE.accumulate].
    assert (Hrest : forall i c', nth_error rest i = Some c' -> c' <> 0 ->
                                 (S idx + i < length terms)%nat).
    { intros i c' Hi Hc'. specialize (Hidx (S i) c' Hi Hc'). lia. }
    destruct (Req_dec_T c 0) as [_|Hne]; [now apply IH|].
    specialize (Hidx 0%nat c eq_refl Hne). rewrite Nat.add_0_r in Hidx.
    destruct (nth_error terms idx) as [term|] eqn:E;
      [|apply nth_error_None in E; lia].
    assert (Hterm : rect n m term).
    { rewrite Forall_forall in Hterms. apply Hterms. eapply nth_error_In. exact E. }
    destruct (iadd_exact n m combined (scale c term) Hc (scale_rect n m c term Hterm) Hn)
      as [-> Hc']. now apply IH.
Qed.

Lemma accumulate_index_error (n m : nat) (terms : list matrix) (coefficients : list R) :
  Forall (rect n m) terms -> (0 < n)%nat ->
  forall idx combined, rect n m combined ->
    (exists i c, nth_error coefficients i = Some c /\ c <> 0 /\
                 (length terms <= idx + i)%nat) ->
    ParameterizedWFE.accumulate idx coefficients terms combined = Raise IndexError.
Proof.
  intros Hterms Hn. induction coefficients as [|c rest IH];
    intros idx combined Hc (i & c' & Hi & Hc' & Hlen).
  - now destruct i.
  - cbn [ParameterizedWFE.accumulate].
    assert (Hrest : i <> 0%nat ->
              exists j d, nth_error rest j = Some d /\ d <> 0 /\
                          (length terms <= S idx + j)%nat).
    { intro H0. destruct i as [|j]; [now elim H0|].
      exists j, c'. repeat split; trivial. lia. }
    destruct (Req_dec_T c 0) as [Hz|Hne].
    + apply IH; [exact Hc|]. apply Hrest. intros ->. cbn in Hi. congruence.
    + destruct (nth_error terms idx) as [term|] eqn:E; [|reflexivity].
      assert (Hterm : rect n m term).
      { rewrite Forall_forall in Hterms. apply Hterms. eapply nth_error_In. exact E. }
      destruct (iadd_exact n m combined (scale c term) Hc (scale_rect n m c term Hterm) Hn)
        as [-> Hc2].
      apply IH; [exact Hc2|]. apply Hrest. intros ->.
      assert (idx < length terms)%nat by (apply nth_error_Some; congruence). lia.
Qed.

(** C9, as the code has it: the constructor accepts every radius and every
    list of coefficients, and rejects only a [basis_factory] that is not
    callable; with basis arrays of the shape of the grid [get_opd] raises
    [IndexError] exactly when a non-zero coefficient has no basis term at
    its index, and otherwise returns, whatever the radius and however many
    terms the factory returned. *)
Theorem Parameterized_errors {np : Numpy} {pp : Poppy}
  (w : Wavefront) (s : st ParameterizedWFE.t) (y x : matrix) (n m L : nat) :
  get_coordinates w = (y, x) -> rect n m y -> rect n m x -> (0 < n)%nat ->
  (forall rho theta, rect n m rho -> rect n m theta ->
     let terms := ParameterizedWFE.basis_factory (self s)
                    (length (ParameterizedWFE.coefficients (self s))) rho theta 0 in
     length terms = L /\ Forall (rect n m) terms) ->
  ParameterizedWFE.__init__ (ParameterizedWFE.coefficients (self s))
    (ParameterizedWFE.radius (self s)) (Some (ParameterizedWFE.basis_factory (self s)))
  = Ok (self s) /\
  ((forall i c, nth_error (ParameterizedWFE.coefficients (self s)) i = Some c ->
                c <> 0 -> (i < L)%nat) ->
   exists out, ParameterizedWFE.get_opd (PyWavefront w) s = (Ok out, s)) /\
  ((exists i c, nth_error (ParameterizedWFE.coefficients (self s)) i = Some c /\
                c <> 0 /\ (L <= i)%nat) ->
   ParameterizedWFE.get_opd (PyWavefront w) s = (Raise IndexError, s)).
Proof.
  intros Hcoord Hy Hx Hn Hbasis.
  destruct (rho_theta_rect n m y x (ParameterizedWFE.radius (self s)) Hy Hx Hn)
    as (rho & theta & E & Hrho & Htheta).
  destruct (Hbasis rho theta Hrho Htheta) as [Hlen Hterms].
  assert (Hrun : ParameterizedWFE.get_opd (PyWavefront w) s
                 = (ParameterizedWFE.accumulate 0 (ParameterizedWFE.coefficients (self s))
                      (ParameterizedWFE.basis_factory (self s)
                         (length (ParameterizedWFE.coefficients (self s))) rho theta 0)
                      (zeros n m), s)).
  { unfold ParameterizedWFE.get_opd, _check_wavefront_arg.
    cbn [isinstance_BaseWavefront negb attrs]. unfold bind, lift, gets.
    rewrite Hcoord, E. now rewrite (rect_shape n m rho Hrho Hn). }
  split; [now destruct (self s)|]. split.
  - intro Hidx.
    destruct (accumulate_ok n m _ (ParameterizedWFE.coefficients (self s)) Hterms Hn
                0%nat (zeros n m) (zeros_rect n m)) as (out & Hout).
    + intros i c Hi Hc. rewrite Hlen. exact (Hidx i c Hi Hc).
    + exists out. now rewrite Hrun, Hout.
  - intros (i & c & Hi & Hc & Hle). rewrite Hrun. f_equal.
    apply (accumulate_index_error n m); trivial; [apply zeros_rect|].
    exists i, c. repeat split; trivial. rewrite Hlen. exact Hle.
Qed.

Lemma Parameterized_errors_witness :
  let s := mkSt sample_parameterized world0 in
  ParameterizedWFE.__init__ (ParameterizedWFE.coefficients (self s))
    (ParameterizedWFE.radius (self s)) (Some (ParameterizedWFE.basis_factory (self s)))
  = Ok (self s) /\
  ((forall i c, nth_error (ParameterizedWFE.coefficients (self s)) i = Some c ->
                c <> 0 -> (i < 1)%nat) ->
   exists out, ParameterizedWFE.get_opd (np := sample_numpy) (pp := sample_poppy)
                 (PyWavefront (sample_wave 2)) s = (Ok out, s)) /\
  ((exists i c, nth_error (ParameterizedWFE.coefficients (self s)) i = Some c /\
                c <> 0 /\ (1 <= i)%nat) ->
   ParameterizedWFE.get_opd (np := sample_numpy) (pp := sample_poppy)
     (PyWavefront (sample_wave 2)) s = (Raise IndexError, s)).
Proof.
  apply (Parameterized_errors (np := sample_numpy) (pp := sample_poppy) (sample_wave 2)
           (mkSt sample_parameterized world0)
           [[1; 1]; [1; 1]] [[1; 1]; [1; 1]] 2 2 1).
  - reflexivity.
  - split; [reflexivity|repeat constructor].
  - split; [reflexivity|repeat constructor].
  - lia.
  - intros rho theta Hrho _. split; [reflexivity|]. constructor; [exact Hrho|constructor].
Defined.

(** C9 as stated fails on the code: with two coefficients, a factory that
    returns one term and a radius of -1 the object is constructed and
    [get_opd] returns an array. *)
Lemma Parameterized_counterexample :
  let k := sample_parameterized in
  ParameterizedWFE.__init__ (ParameterizedWFE.coefficients k) (ParameterizedWFE.radius k)
    (Some (ParameterizedWFE.basis_factory k)) = Ok k /\
  ParameterizedWFE.radius k <= 0 /\
  (forall rho theta,
     length (ParameterizedWFE.basis_factory k (length (ParameterizedWFE.coefficients k))
               rho theta 0)
     <> length (ParameterizedWFE.coefficients k)) /\
  exists out,
    ParameterizedWFE.get_opd (np := sample_numpy) (pp := sample_poppy)
      (PyWavefront (sample_wave 2)) (mkSt k world0) = (Ok out, mkSt k world0).
Proof.
  cbv zeta. split; [reflexivity|]. split; [cbn; lra|]. split; [intros; cbn; lia|].
  eexists. run. reflexivity.
Qed.

(** *** KolmogorovWFE: von Karman without an outer scale *)

Lemma power_spectrum_von_Karman_raises (wave : pyobj) (s : st KolmogorovWFE.t) :
  KolmogorovWFE.outer_scale (self s) = None ->
  exists e,
    KolmogorovWFE.power_spectrum wave "von Karman" s = (Raise e, s) /\
    (forall w, attrs wave = Ok w -> e = KolmogorovWFE.no_outer_scale).
Proof.
  intro Houter. unfold KolmogorovWFE.power_spectrum.
  change (existsb (String.eqb "von Karman") KolmogorovWFE.kinds) with true.
  change (String.eqb "von Karman" "von Karman") with true.
  cbn [negb]. unfold bind, lift, gets, raise.
  destruct (attrs wave) as [w|e].
  - rewrite Houter. eexists. split; [reflexivity|]. reflexivity.
  - exists e. split; [reflexivity|]. intros w [=].
Qed.

(** C2, as the code has it: with kind ['von Karman'] and no outer scale
    [get_opd] never returns an array and leaves the object as it was,
    whatever its argument and the seed; nothing is checked before the
    random numbers are drawn: on a wavefront of even side [N >= 2] and with
    a seed the generator accepts, the error is the configuration error of
    [power_spectrum], and it is raised after [rand_turbulent] has run, the
    log of Gaussian draws having grown by two draws of [N] by [N]
    deviates. *)
Theorem von_Karman_without_outer_scale {np : Numpy}
  (wave : pyobj) (s : st KolmogorovWFE.t) :
  KolmogorovWFE.kind (self s) = "von Karman"%string ->
  KolmogorovWFE.outer_scale (self s) = None ->
  let r := KolmogorovWFE.get_opd wave s in
  (exists e, fst r = Raise e) /\
  self (snd r) = self s /\
  (forall w h, attrs wave = Ok w -> npix w = (2 * h)%nat -> (1 <= h)%nat ->
     seed_ok (KolmogorovWFE.seed (self s)) ->
     fst r = Raise KolmogorovWFE.no_outer_scale /\
     draws (env (snd r)) = (npix w, npix w) :: (npix w, npix w) :: draws (env s)).
Proof.
  intros Hkind Houter r.
  assert (Hrest : forall (w : Wavefront) (s1 : st KolmogorovWFE.t) (a : cmatrix),
            self s1 = self s ->
            exists e,
              bind (gets (fun s => KolmogorovWFE.kind (self s)))
                (fun kd =>
                   phi <- KolmogorovWFE.power_spectrum wave kd ;;
                   dz <- gets (fun s => KolmogorovWFE.dz (self s)) ;;
                   g <- lift (ifft2 (zip2 (fun c p =>
                          Cscale (2 * PI / INR (npix w) / pixelscale w
                                  * sqrt (2 * PI * dz * p)) c) a phi)) ;;
                   modify (on_self (KolmogorovWFE.set_opd
                                      (mmap (fun z => INR (npix w) ^ 2 * Cre z) g))) ;;;
                   ret (mmap (fun z => INR (npix w) ^ 2 * Cre z) g)) s1
              = (Raise e, s1) /\
              (forall w', attrs wave = Ok w' -> e = KolmogorovWFE.no_outer_scale)).
  { intros w s1 a Hs1.
    assert (Ho : KolmogorovWFE.outer_scale (self s1) = None) by now rewrite Hs1.
    destruct (power_spectrum_von_Karman_raises wave s1 Ho) as (e & E & He).
    exists e. split; [|exact He].
    unfold bind at 1. unfold gets at 1. cbn [fst snd]. rewrite Hs1, Hkind.
    now apply bind_raise. }
  assert (Hrun : forall w, attrs wave = Ok w -> npix w <> 0%nat ->
            r = bind (KolmogorovWFE.rand_turbulent (npix w))
                  (fun a =>
                     kd <- gets (fun s => KolmogorovWFE.kind (self s)) ;;
                     phi <- KolmogorovWFE.power_spectrum wave kd ;;
                     dz <- gets (fun s => KolmogorovWFE.dz (self s)) ;;
                     g <- lift (ifft2 (zip2 (fun c p =>
                            Cscale (2 * PI / INR (npix w) / pixelscale w
                                    * sqrt (2 * PI * dz * p)) c) a phi)) ;;
                     modify (on_self (KolmogorovWFE.set_opd
                                        (mmap (fun z => INR (npix w) ^ 2 * Cre z) g))) ;;;
                     ret (mmap (fun z => INR (npix w) ^ 2 * Cre z) g)) s).
  { intros w Hw Hn. unfold r, KolmogorovWFE.get_opd. rewrite Hw.
    unfold bind at 1. unfold lift at 1. cbv beta iota zeta.
    replace (npix w =? 0)%nat with false by (symmetry; now apply Nat.eqb_neq).
    now rewrite (bind_ok _ _ s s tt) by reflexivity. }
  assert (Hall : (exists e, fst r = Raise e) /\ self (snd r) = self s).
  { destruct (attrs wave) as [w|e] eqn:Hw.
    2:{ unfold r, KolmogorovWFE.get_opd. rewrite Hw. split; [eexists|]; reflexivity. }
    destruct (Nat.eq_dec (npix w) 0) as [H0|H0].
    { assert (E0 : r = (Raise ZeroDivisionError, s)).
      { unfold r, KolmogorovWFE.get_opd. rewrite Hw.
        unfold bind at 1. unfold lift at 1. cbv beta iota zeta. now rewrite H0. }
      rewrite E0. split; [eexists|]; reflexivity. }
    rewrite (Hrun w eq_refl H0).
    pose proof (rand_turbulent_keeps (fun k => k) (npix w) s) as Hk.
    destruct (KolmogorovWFE.rand_turbulent (npix w) s) as [[a|e] s1] eqn:Ert;
      cbn [snd] in Hk.
    - rewrite (bind_ok _ _ _ _ _ Ert).
      destruct (Hrest w s1 a Hk) as (e & -> & _). cbn [fst snd].
      split; [now exists e|exact Hk].
    - rewrite (bind_raise _ _ _ _ _ Ert). cbn [fst snd].
      split; [now exists e|exact Hk]. }
  destruct Hall as [H1 H2]. split; [exact H1|]. split; [exact H2|].
  intros w h Hw Hn Hh Hseed.
  destruct (rand_turbulent_run h s Hh Hseed) as (a & b & _ & _ & Ert).
  rewrite <- Hn in Ert.
  rewrite (Hrun w Hw ltac:(lia)), (bind_ok _ _ _ _ _ Ert).
  match type of Ert with
  | _ = (_, ?s1) =>
      destruct (Hrest w s1 (KolmogorovWFE.combine_fields a b) eq_refl) as (e & E & He)
  end.
  rewrite E. cbn [fst snd env]. rewrite (He w Hw). split; reflexivity.
Qed.

Lemma von_Karman_without_outer_scale_witness :
  let r := KolmogorovWFE.get_opd (np := sample_numpy) (PyWavefront (sample_wave 2))
             (mkSt (sample_kolmogorov (Some 0%Z) "von Karman") world0) in
  (exists e, fst r = Raise e) /\
  self (snd r) = sample_kolmogorov (Some 0%Z) "von Karman" /\
  fst r = Raise KolmogorovWFE.no_outer_scale /\
  draws (env (snd r)) = (2, 2)%nat :: (2, 2)%nat :: draws world0.
Proof.
  destruct (von_Karman_without_outer_scale (np := sample_numpy)
              (PyWavefront (sample_wave 2))
              (mkSt (sample_kolmogorov (Some 0%Z) "von Karman") world0)
              eq_refl eq_refl) as (H1 & H2 & H3).
  split; [exact H1|]. split; [exact H2|].
  apply (H3 (sample_wave 2) 1%nat); [reflexivity | reflexivity | lia | simpl; lia].
Defined.

(** *** PowerSpectrumWFE: an aperture without a sample of transmission 1 *)

(** C3 as stated fails on the code: with a target rms of 3, a radius, no
    reflection and normal incidence, on an aperture that has no sample of
    transmission 1 the selection of line 564 is empty, [get_opd] returns an
    array all the same, and the rms of that array inside the aperture is not
    the target. *)
Lemma rms_gray_aperture_counterexample :
  exists out s3,
    PowerSpectrumWFE.get_opd (np := flat_numpy) (pp := gray_poppy)
      (PyWavefront (sample_wave 2))
      (mkSt (sample_power_spectrum (Some 2%nat) (Some 3)) world0) = (Ok out, s3) /\
    PowerSpectrumWFE.rms_measure (pp := gray_poppy) (sample_wave 2) 1 out <> Ok 3.
Proof.
  eexists. eexists. split.
  - run. reflexivity.
  - run. intros [= H]. unfold mean, sum in H. cbn -[Rdiv Rmult Rplus sqrt] in H.
    unfold Rdiv in H. rewrite Rmult_0_l, sqrt_0 in H. lra.
Qed.

(** *** PowerSpectrumWFE: the default screen size *)

(** The default screen size is worked out for the first wavefront and kept
    on the object: after a call on an unpadded wavefront [w1], a call on an
    unpadded wavefront [w2] more than four times as large raises the
    exception of line 499, although no screen size was ever configured and
    the object as constructed would work with four times the side of
    [w2]. *)
Lemma default_screen_size_sticks {np : Numpy} {pp : Poppy} {U : Units}
  (w1 w2 : Wavefront) (s : st PowerSpectrumWFE.t) :
  PowerSpectrumWFE.screen_size (self s) = None ->
  ispadded w1 = false -> ispadded w2 = false -> (npix w1 * 4 < npix w2)%nat ->
  let s1 := snd (PowerSpectrumWFE.get_opd (PyWavefront w1) s) in
  PowerSpectrumWFE.screen_size (self s1) = Some (npix w1 * 4)%nat /\
  PowerSpectrumWFE.get_opd (PyWavefront w2) s1
  = (Raise (Exception_
       "PSD screen size smaller than wavefront size, recommend at least 2x larger"), s1) /\
  fst (PowerSpectrumWFE.resolve_screen_size w2 s) = Ok (npix w2 * 4)%nat.
Proof.
  intros Hnone H1 H2 Hlt s1.
  assert (Hs1 : PowerSpectrumWFE.screen_size (self s1) = Some (npix w1 * 4)%nat).
  { unfold s1. rewrite PowerSpectrum_get_opd_screen_size.
    unfold screen_size_after. now rewrite Hnone, H1. }
  split; [exact Hs1|]. split.
  - rewrite PowerSpectrum_get_opd_unfold. apply bind_raise.
    unfold PowerSpectrumWFE.resolve_screen_size. rewrite H2.
    unfold bind, ret, gets. cbn [fst snd]. rewrite Hs1.
    apply Nat.ltb_lt in Hlt. now rewrite Hlt.
  - unfold PowerSpectrumWFE.resolve_screen_size. rewrite H2.
    unfold bind, ret, gets, modify. cbn [fst snd negb]. rewrite Hnone. reflexivity.
Qed.

(** After a call on a 2 by 2 wavefront the object holds a screen size of 8,
    and a 16 by 16 wavefront is refused; the object as constructed takes
    it, with a screen of 64. *)
Example screen_size_sticks :
  let s := mkSt (sample_power_spectrum None None) world0 in
  let s1 := snd (PowerSpectrumWFE.get_opd (np := sample_numpy) (pp := sample_poppy)
                   (PyWavefront (plain_wave 2)) s) in
  PowerSpectrumWFE.screen_size (self s1) = Some 8%nat /\
  PowerSpectrumWFE.get_opd (np := sample_numpy) (pp := sample_poppy)
    (PyWavefront (plain_wave 16)) s1
  = (Raise (Exception_
       "PSD screen size smaller than wavefront size, recommend at least 2x larger"), s1) /\
  fst (PowerSpectrumWFE.resolve_screen_size (plain_wave 16) s) = Ok 64%nat.
Proof.
  apply (default_screen_size_sticks (np := sample_numpy) (pp := sample_poppy)
           (U := sample_units) (plain_wave 2) (plain_wave 16)
           (mkSt (sample_power_spectrum None None) world0));
    [reflexivity | reflexivity | reflexivity | cbn; lia].
Qed.

(** * Further properties *)

(** *** KolmogorovWFE: which sides [rand_symmetrized] accepts *)

Lemma broadcast1_mismatch {A : Type} (v : list A) (n : nat) :
  length v <> n -> length v <> 1%nat -> broadcast1 v n = None.
Proof.
  intros Hn H1. unfold broadcast1.
  destruct (Nat.eqb_spec (length v) n) as [E|_]; [now elim Hn|].
  destruct v as [|x [|y u]]; trivial. now elim H1.
Qed.

(** On an odd side other than 1 and 5 the first mirror assignment already
    fails: the slice [a[0, 1:h]] is one entry shorter than [a[0, h+1:N]]. *)
Lemma symmetrize_odd_mismatch (h : nat) (s : R) (a : matrix) :
  (1 <= h)%nat -> h <> 2%nat -> rect (2 * h + 1) (2 * h + 1) a ->
  KolmogorovWFE.symmetrize (2 * h + 1) s a = Raise broadcast_error.
Proof.
  intros Hh H2 Ha. unfold KolmogorovWFE.symmetrize.
  replace ((2 * h + 1) / 2)%nat with h by (apply (Nat.div_unique _ 2 h 1); lia).
  assert (Hrow : exists r t, a = r :: t).
  { destruct a as [|r t]; [destruct Ha as [Hl _]; simpl in Hl; lia|eauto]. }
  destruct Hrow as (r & t & ->). cbn [row0_slice set_row0].
  assert (Hr : length r = (2 * h + 1)%nat) by (apply (rect_row _ _ _ 0%nat Ha); lia).
  unfold set_block.
  rewrite (rect_shape (1 - 0) (2 * h + 1 - (h + 1)) _
             (block_rect _ _ (r :: t) 0 1 (h + 1) (2 * h + 1) Ha ltac:(lia) ltac:(lia)))
    by lia.
  unfold broadcast2. rewrite (broadcast1_exact _ (1 - 0)) by reflexivity.
  cbn [map all_some].
  rewrite broadcast1_mismatch; [reflexivity| |];
    unfold scale1; rewrite length_map, length_rev, slice_length by lia; lia.
Qed.

Lemma rand_symmetrized_after_draw {np : Numpy} (n : nat) (sign : Z)
  (s : st KolmogorovWFE.t) :
  Z.abs sign = 1%Z -> seed_ok (KolmogorovWFE.seed (self s)) ->
  KolmogorovWFE.rand_symmetrized n sign s =
    (KolmogorovWFE.symmetrize n (IZR sign)
       (normal_array (seed_key (KolmogorovWFE.seed (self s)) (env s)) n n),
     mkSt (self s) (after_draw (KolmogorovWFE.seed (self s)) n n (env s))).
Proof.
  intros Hsign Hseed. unfold KolmogorovWFE.rand_symmetrized.
  rewrite (sign_check sign Hsign).
  now rewrite (bind_ok _ _ _ _ _ (raw_samples_run n s Hseed)).
Qed.

(** X1: with a sign of +1 or -1 and a seed the generator accepts,
    [rand_symmetrized] returns an array on a side of 1 (the array [[0]])
    and on every even side from 2 on, and on no other side: a side of 0
    raises [IndexError], and an odd side from 3 on makes a mirror
    assignment fail on the lengths of its two slices.  In each case one
    draw of [npix] by [npix] deviates has been made. *)
Theorem rand_symmetrized_sides {np : Numpy} (npix : nat) (sign : Z)
  (s : st KolmogorovWFE.t) :
  Z.abs sign = 1%Z -> seed_ok (KolmogorovWFE.seed (self s)) ->
  let r := KolmogorovWFE.rand_symmetrized npix sign s in
  snd r = mkSt (self s) (after_draw (KolmogorovWFE.seed (self s)) npix npix (env s)) /\
  (npix = 0%nat -> fst r = Raise IndexError) /\
  (npix = 1%nat -> fst r = Ok [[0]]) /\
  (forall h, (1 <= h)%nat -> npix = (2 * h + 1)%nat -> fst r = Raise broadcast_error) /\
  (forall h, (1 <= h)%nat -> npix = (2 * h)%nat ->
     exists a, fst r = Ok a /\ rect npix npix a).
Proof.
  intros Hsign Hseed r. subst r.
  rewrite (rand_symmetrized_after_draw npix sign s Hsign Hseed). cbn [fst snd].
  split; [reflexivity|]. split; [|split; [|split]].
  - intros ->. reflexivity.
  - intros ->. reflexivity.
  - intros h Hh ->. destruct (Nat.eq_dec h 2) as [->|H2].
    + reflexivity.
    + apply symmetrize_odd_mismatch; trivial. apply normal_array_rect.
  - intros h Hh ->.
    destruct (symmetrize_even_symmetry h (IZR sign) _ Hh (sign_squared sign Hsign)
                (normal_array_rect (seed_key (KolmogorovWFE.seed (self s)) (env s))
                   (2 * h) (2 * h))) as (a & E & Hrect & _).
    exists a. split; [exact E|exact Hrect].
Qed.

Lemma rand_symmetrized_sides_witness :
  let s := mkSt (sample_kolmogorov (Some 0%Z) "Kolmogorov") world0 in
  let r := KolmogorovWFE.rand_symmetrized (np := sample_numpy) 7 (-1) s in
  snd r = mkSt (self s) (after_draw (KolmogorovWFE.seed (self s)) 7 7 (env s)) /\
  (7%nat = 0%nat -> fst r = Raise IndexError) /\
  (7%nat = 1%nat -> fst r = Ok [[0]]) /\
  (forall h, (1 <= h)%nat -> 7%nat = (2 * h + 1)%nat -> fst r = Raise broadcast_error) /\
  (forall h, (1 <= h)%nat -> 7%nat = (2 * h)%nat ->
     exists a, fst r = Ok a /\ rect 7 7 a).
Proof.
  apply (rand_symmetrized_sides (np := sample_numpy) 7 (-1)
           (mkSt (sample_kolmogorov (Some 0%Z) "Kolmogorov") world0)).
  - reflexivity.
  - simpl. lia.
Defined.

(** X2: [get_opd] of a [KolmogorovWFE] fails on every wavefront whose side
    is odd and larger than 1: the first call of [rand_symmetrized] raises
    the shape error of its mirror assignment, after one draw, and nothing
    is written on the object. *)
Theorem Kolmogorov_get_opd_odd_side {np : Numpy} (w : Wavefront) (h : nat)
  (s : st KolmogorovWFE.t) :
  npix w = (2 * h + 1)%nat -> (1 <= h)%nat -> seed_ok (KolmogorovWFE.seed (self s)) ->
  KolmogorovWFE.get_opd (PyWavefront w) s
  = (Raise broadcast_error,
     mkSt (self s) (after_draw (KolmogorovWFE.seed (self s)) (npix w) (npix w) (env s))).
Proof.
  intros Hn Hh Hseed.
  destruct (rand_symmetrized_sides (npix w) 1 s eq_refl Hseed)
    as (Hs & _ & _ & Hodd & _).
  specialize (Hodd h Hh Hn).
  unfold KolmogorovWFE.get_opd. cbn [attrs lift bind].
  replace (npix w =? 0)%nat with false by (symmetry; apply Nat.eqb_neq; lia).
  cbn [bind ret]. unfold KolmogorovWFE.rand_turbulent.
  unfold bind at 1 2.
  destruct (KolmogorovWFE.rand_symmetrized (npix w) 1 s) as [r s1].
  cbn [fst snd] in *. now rewrite Hodd, Hs.
Qed.

Lemma Kolmogorov_get_opd_odd_side_witness :
  KolmogorovWFE.get_opd (np := sample_numpy) (PyWavefront (sample_wave 3))
    (mkSt (sample_kolmogorov None "Kolmogorov") world0)
  = (Raise broadcast_error,
     mkSt (sample_kolmogorov None "Kolmogorov") (after_draw None 3 3 world0)).
Proof.
  apply (Kolmogorov_get_opd_odd_side (np := sample_numpy) (sample_wave 3) 1
           (mkSt (sample_kolmogorov None "Kolmogorov") world0)).
  - reflexivity.
  - lia.
  - exact I.
Defined.

(** *** KolmogorovWFE: the complex field *)

Lemma zip2_cget2 (f : R -> R -> C) (n m : nat) (a b : matrix) (i j : nat) :
  rect n m a -> rect n m b -> (i < n)%nat -> (j < m)%nat ->
  cget2 (zip2 f a b) i j = f (get2 a i j) (get2 b i j).
Proof.
  intros Ha Hb Hi Hj. pose proof Ha as [Hla _]. pose proof Hb as [Hlb _].
  unfold cget2, get2, zip2.
  rewrite (map2_nth _ a b i [] []) by lia.
  apply map2_nth.
  - rewrite (rect_row n m a i Ha Hi). exact Hj.
  - rewrite (rect_row n m b i Hb Hi). exact Hj.
Qed.

(** X3: on an even side [N = 2h] the field [c] of [rand_turbulent] is 0 at
    [(0, 0)] and, away from the Nyquist index [h], conjugate symmetric:
    [c[N-i, N-j]] has the real part of [c[i, j]] and the opposite imaginary
    part, for all [i], [j] in [1 .. N-1] other than [h]. *)
Theorem rand_turbulent_conjugate_symmetry {np : Numpy} (h : nat)
  (s : st KolmogorovWFE.t) :
  (1 <= h)%nat -> seed_ok (KolmogorovWFE.seed (self s)) ->
  exists c s',
    KolmogorovWFE.rand_turbulent (2 * h) s = (Ok c, s') /\
    cget2 c 0 0 = (0, 0) /\
    forall i j, (1 <= i < 2 * h)%nat -> (1 <= j < 2 * h)%nat -> i <> h -> j <> h ->
      Cre (cget2 c (2 * h - i) (2 * h - j)) = Cre (cget2 c i j) /\
      Cim (cget2 c (2 * h - i) (2 * h - j)) = - Cim (cget2 c i j).
Proof.
  intros Hh Hseed.
  destruct (rand_turbulent_run h s Hh Hseed) as (a & b & Ea & Eb & Hrun).
  cbv zeta in *.
  match type of Ea with
  | KolmogorovWFE.symmetrize _ _ (normal_array ?key _ _) = _ =>
      destruct (symmetrize_even_symmetry h (IZR 1) _ Hh (sign_squared 1 eq_refl)
                  (normal_array_rect key (2 * h) (2 * h)))
        as (a' & Ea' & Ra & Sa & _ & _ & Za)
  end.
  rewrite Ea in Ea'. injection Ea' as <-.
  match type of Eb with
  | KolmogorovWFE.symmetrize _ _ (normal_array ?key _ _) = _ =>
      destruct (symmetrize_even_symmetry h (IZR (-1)) _ Hh (sign_squared (-1) eq_refl)
                  (normal_array_rect key (2 * h) (2 * h)))
        as (b' & Eb' & Rb & Sb & _ & _ & Zb)
  end.
  rewrite Eb in Eb'. injection Eb' as <-.
  eexists. eexists. split; [exact Hrun|].
  unfold KolmogorovWFE.combine_fields. split.
  - rewrite (zip2_cget2 _ (2 * h) (2 * h)) by (trivial; lia). rewrite Za, Zb.
    unfold Rdiv. now rewrite Rmult_0_l.
  - intros i j Hi Hj Hih Hjh.
    rewrite !(zip2_cget2 _ (2 * h) (2 * h)) by (trivial; lia).
    rewrite (Sa i j Hi Hj Hih Hjh), (Sb i j Hi Hj Hih Hjh).
    unfold Cre, Cim. cbn [fst snd]. split; unfold Rdiv; ring.
Qed.

Lemma rand_turbulent_conjugate_symmetry_witness :
  exists c s',
    KolmogorovWFE.rand_turbulent (np := sample_numpy) (2 * 2)
      (mkSt (sample_kolmogorov None "Kolmogorov") world0) = (Ok c, s') /\
    cget2 c 0 0 = (0, 0) /\
    forall i j, (1 <= i < 2 * 2)%nat -> (1 <= j < 2 * 2)%nat -> i <> 2%nat -> j <> 2%nat ->
      Cre (cget2 c (2 * 2 - i) (2 * 2 - j)) = Cre (cget2 c i j) /\
      Cim (cget2 c (2 * 2 - i) (2 * 2 - j)) = - Cim (cget2 c i j).
Proof.
  apply (rand_turbulent_conjugate_symmetry (np := sample_numpy) 2
           (mkSt (sample_kolmogorov None "Kolmogorov") world0)).
  - lia.
  - exact I.
Defined.

(** *** KolmogorovWFE: the power spectrum *)

Lemma imap2_rect (f : nat -> nat -> R -> R) (n m : nat) (a : matrix) :
  rect n m a -> rect n m (imap (fun i row => imap (fun j x => f i j x) row) a).
Proof.
  intro Ha. pose proof Ha as [Hl _]. apply rect_intro.
  - now rewrite imap_length.
  - intros i Hi. rewrite (imap_nth _ a i [] []) by lia.
    rewrite imap_length. now apply (rect_row n m).
Qed.

Lemma imap2_get2 (f : nat -> nat -> R -> R) (n m : nat) (a : matrix) (i j : nat) :
  rect n m a -> (i < n)%nat -> (j < m)%nat ->
  get2 (imap (fun i row => imap (fun j x => f i j x) row) a) i j = f i j (get2 a i j).
Proof.
  intros Ha Hi Hj. pose proof Ha as [Hl _]. unfold get2.
  rewrite (imap_nth _ a i [] []) by lia.
  rewrite (imap_nth _ _ j 0 0) by (rewrite (rect_row n m a i Ha Hi); lia).
  reflexivity.
Qed.

Lemma zip2_get2 (f : R -> R -> R) (n m : nat) (a b : matrix) (i j : nat) :
  rect n m a -> rect n m b -> (i < n)%nat -> (j < m)%nat ->
  get2 (zip2 f a b) i j = f (get2 a i j) (get2 b i j).
Proof.
  intros Ha Hb Hi Hj. pose proof Ha as [Hla _]. pose proof Hb as [Hlb _].
  unfold get2, zip2.
  rewrite (map2_nth _ a b i [] []) by lia.
  apply map2_nth.
  - rewrite (rect_row n m a i Ha Hi). exact Hj.
  - rewrite (rect_row n m b i Hb Hi). exact Hj.
Qed.

Lemma fftfreq_length (n : nat) (d : R) : length (KolmogorovWFE.fftfreq n d) = n.
Proof. unfold KolmogorovWFE.fftfreq. now rewrite length_map, length_seq. Qed.

Lemma outer_rect {A : Type} (f : R -> R -> A) (q : vector) :
  rect (length q) (length q) (map (fun qi => map (fun qj => f qi qj) q) q).
Proof.
  split; [now rewrite length_map|].
  apply Forall_map, Forall_forall. intros x _. now rewrite length_map.
Qed.

(** X4: whenever [power_spectrum] returns, the spectrum has the shape of
    the wavefront and is 0 at the zero-frequency sample [(0, 0)], for every
    kind and with or without the inner-scale factor. *)
Theorem power_spectrum_zero_frequency (wave : pyobj) (w : Wavefront) (kind : string)
  (s s' : st KolmogorovWFE.t) (phi : matrix) :
  attrs wave = Ok w ->
  KolmogorovWFE.power_spectrum wave kind s = (Ok phi, s') ->
  rect (npix w) (npix w) phi /\ get2 phi 0 0 = 0.
Proof.
  intro Hw. unfold KolmogorovWFE.power_spectrum.
  destruct (negb (existsb (String.eqb kind) KolmogorovWFE.kinds)); [discriminate|].
  rewrite Hw. unfold bind, lift, gets, ret, raise.
  set (q := scale1 (2 * PI) (KolmogorovWFE.fftfreq (npix w) (pixelscale w))).
  assert (Hq : length q = npix w)
    by (unfold q, scale1; now rewrite length_map, fftfreq_length).
  set (k2 := map (fun qi => map (fun qj => qj ^ 2 + qi ^ 2) q) q).
  assert (Rk2 : rect (npix w) (npix w) k2)
    by (rewrite <- Hq; apply (outer_rect (fun qi qj => qj ^ 2 + qi ^ 2))).
  assert (Hphi : forall (c : R) (q2 : matrix), rect (npix w) (npix w) q2 ->
            npix w <> 0%nat ->
            let phi0 := imap (fun i row =>
                          imap (fun j x => if ((i =? 0) && (j =? 0))%nat then 0
                                           else 0.0330054 * c * Rpower x (- 11 / 6)) row) q2 in
            rect (npix w) (npix w) phi0 /\ get2 phi0 0 0 = 0 /\
            forall g, rect (npix w) (npix w) (zip2 (fun p k => p * g k) phi0 k2) /\
                      get2 (zip2 (fun p k => p * g k) phi0 k2) 0 0 = 0).
  { intros c q2 Rq2 Hn phi0.
    assert (R0 : rect (npix w) (npix w) phi0)
      by (apply (imap2_rect (fun i j x => if ((i =? 0) && (j =? 0))%nat then 0
                                          else 0.0330054 * c * Rpower x (- 11 / 6))), Rq2).
    assert (Z0 : get2 phi0 0 0 = 0).
    { unfold phi0.
      rewrite (imap2_get2 (fun i j x => if ((i =? 0) && (j =? 0))%nat then 0
                                        else 0.0330054 * c * Rpower x (- 11 / 6))
                 (npix w) (npix w)) by (trivial; lia).
      reflexivity. }
    split; [exact R0|]. split; [exact Z0|]. intro g. split.
    - now apply zip2_rect.
    - rewrite (zip2_get2 _ (npix w) (npix w)) by (trivial; lia).
      rewrite Z0. apply Rmult_0_l. }
  destruct (String.eqb kind "von Karman").
  - destruct (KolmogorovWFE.outer_scale (self s)) as [L0|]; [|discriminate].
    destruct (npix w =? 0)%nat eqn:Hn; [discriminate|]. apply Nat.eqb_neq in Hn.
    destruct (KolmogorovWFE.get_Cn2 (self s) (wavelength w)) as [c|]; [|discriminate].
    destruct (Hphi c (mmap (fun x => x + 1 / L0 ^ 2) k2) (mmap_rect _ _ _ _ Rk2) Hn)
      as (R0 & Z0 & Hz).
    destruct (String.eqb kind "Tatarski" || true || String.eqb kind "Hill")%bool.
    + destruct (KolmogorovWFE.inner_scale (self s)) as [l0|]; [|discriminate].
      destruct (String.eqb kind "Tatarski" || true)%bool; intros [= <- _]; apply Hz.
    + intros [= <- _]. now split.
  - destruct (npix w =? 0)%nat eqn:Hn; [discriminate|]. apply Nat.eqb_neq in Hn.
    destruct (KolmogorovWFE.get_Cn2 (self s) (wavelength w)) as [c|]; [|discriminate].
    destruct (Hphi c k2 Rk2 Hn) as (R0 & Z0 & Hz).
    destruct (String.eqb kind "Tatarski" || false || String.eqb kind "Hill")%bool.
    + destruct (KolmogorovWFE.inner_scale (self s)) as [l0|]; [|discriminate].
      destruct (String.eqb kind "Tatarski" || false)%bool; intros [= <- _]; apply Hz.
    + intros [= <- _]. now split.
Qed.

Lemma power_spectrum_zero_frequency_witness :
  exists phi s',
    KolmogorovWFE.power_spectrum (PyWavefront (sample_wave 2)) "Kolmogorov"
      (mkSt (sample_kolmogorov None "Kolmogorov") world0) = (Ok phi, s') /\
    rect 2 2 phi /\ get2 phi 0 0 = 0.
Proof.
  eexists. eexists. split; [reflexivity|].
  apply (power_spectrum_zero_frequency (PyWavefront (sample_wave 2)) (sample_wave 2)
           "Kolmogorov" (mkSt (sample_kolmogorov None "Kolmogorov") world0) _ _
           eq_refl eq_refl).
Defined.

Lemma kinds_spec (kind : string) :
  existsb (String.eqb kind) KolmogorovWFE.kinds = true <-> In kind KolmogorovWFE.kinds.
Proof.
  rewrite existsb_exists. split.
  - intros (x & Hx & E). apply String.eqb_eq in E. now subst.
  - intro H. exists kind. split; [exact H | apply String.eqb_refl].
Qed.

(** X5: [power_spectrum] returns an array exactly when the kind is one of
    the four known ones, the argument has a wavefront's attributes and at
    least one sample, [get_Cn2] has a value, the outer scale is given for
    ['von Karman'] and the inner scale for every kind but ['Kolmogorov'];
    in every case it leaves the object and the generator as they were. *)
Theorem power_spectrum_returns (wave : pyobj) (kind : string)
  (s : st KolmogorovWFE.t) :
  snd (KolmogorovWFE.power_spectrum wave kind s) = s /\
  ((exists phi, fst (KolmogorovWFE.power_spectrum wave kind s) = Ok phi) <->
   spectrum_defined (self s) wave kind).
Proof.
  unfold KolmogorovWFE.power_spectrum, spectrum_defined.
  destruct (existsb (String.eqb kind) KolmogorovWFE.kinds) eqn:E.
  - apply kinds_spec in E. cbn [negb].
    assert (K : forall P : Prop, (In kind KolmogorovWFE.kinds /\ P) <-> P) by tauto.
    rewrite K. clear K.
    destruct wave as [w|w|x]; cbn [attrs]; unfold bind, lift, gets, ret, raise;
      try (split; [reflexivity|]; split;
           [intros (? & [=]) | intros ((? & [=] & _) & _)]).
    all: destruct E as [<-|[<-|[<-|[<-|[]]]]]; cbn [String.eqb Ascii.eqb Bool.eqb orb];
         cbv beta iota;
         destruct (KolmogorovWFE.outer_scale (self s)) as [L0|]; cbv beta iota;
         destruct (npix w) as [|n] eqn:Hn; cbn [Nat.eqb]; cbv beta iota;
         destruct (KolmogorovWFE.get_Cn2 (self s) (wavelength w)) as [c|] eqn:Hc; cbv beta iota;
         destruct (KolmogorovWFE.inner_scale (self s)) as [l0|];
         (split; [reflexivity|]); cbn [fst];
         (split;
          [ intros (phi & H); try discriminate H; clear H;
            (split; [exists w; split; [reflexivity | split; [rewrite Hn | rewrite Hc]; discriminate]|]);
            (split; intro Hk;
             [ try discriminate Hk; discriminate
             | try (exfalso; apply Hk; reflexivity); discriminate ])
          | intros ((w' & [= <-] & H1 & H2) & H3 & H4);
            try (exfalso; apply H1; exact Hn);
            try (exfalso; apply H2; exact Hc);
            try (exfalso; apply H3; reflexivity);
            try (exfalso; apply H4; [discriminate | reflexivity]);
            eexists; reflexivity ]).
  - split; [reflexivity|]. cbn [negb fst]. unfold raise. cbn [fst]. split.
    + intros (? & [=]).
    + intros (H & _). apply kinds_spec in H. congruence.
Qed.

(** X6: the outer scale is read by ['von Karman'] alone and the inner scale
    by every kind but ['Kolmogorov']: the value [power_spectrum] returns for
    ['Kolmogorov'] is the same whatever the two scales are, and the one for
    ['Tatarski'] and for ['Hill'] whatever the outer scale is. *)
Theorem power_spectrum_unread_scales (wave : pyobj) (k : KolmogorovWFE.t)
  (e : world) (l0 L0 : option R) :
  fst (KolmogorovWFE.power_spectrum wave "Kolmogorov" (mkSt (with_scales l0 L0 k) e))
    = fst (KolmogorovWFE.power_spectrum wave "Kolmogorov" (mkSt k e)) /\
  fst (KolmogorovWFE.power_spectrum wave "Tatarski"
         (mkSt (with_scales (KolmogorovWFE.inner_scale k) L0 k) e))
    = fst (KolmogorovWFE.power_spectrum wave "Tatarski" (mkSt k e)) /\
  fst (KolmogorovWFE.power_spectrum wave "Hill"
         (mkSt (with_scales (KolmogorovWFE.inner_scale k) L0 k) e))
    = fst (KolmogorovWFE.power_spectrum wave "Hill" (mkSt k e)).
Proof.
  assert (G : forall a b w, KolmogorovWFE.get_Cn2 (with_scales a b k) w
                            = KolmogorovWFE.get_Cn2 k w) by reflexivity.
  split; [|split];
    unfold KolmogorovWFE.power_spectrum;
    cbn [existsb KolmogorovWFE.kinds String.eqb Ascii.eqb Bool.eqb orb negb];
    destruct wave as [w|w|x]; cbn [attrs]; unfold bind, lift, gets, ret, raise;
    cbv beta iota; cbn [fst snd self]; rewrite ?G; try reflexivity;
    destruct (npix w =? 0)%nat; cbv beta iota; try reflexivity;
    destruct (KolmogorovWFE.get_Cn2 k (wavelength w)); cbv beta iota; cbn [fst snd self];
    try reflexivity;
    cbn [with_scales KolmogorovWFE.inner_scale];
    destruct (KolmogorovWFE.inner_scale k); reflexivity.
Qed.

(** *** KolmogorovWFE: the whole of [get_opd] *)

Lemma rect_not_empty {A : Type} (n m : nat) (a : list (list A)) :
  rect n m a -> (0 < n)%nat -> (0 < m)%nat -> is_empty a = false.
Proof.
  intros Ha Hn Hm. unfold is_empty. rewrite (rect_shape n m a Ha Hn).
  destruct n; [lia|]. destruct m; [lia|]. reflexivity.
Qed.

(** X7: on a wavefront of even side [N >= 2] and with a seed the generator
    accepts, [get_opd] of a [KolmogorovWFE] makes two [N] by [N] draws and
    then returns exactly when [power_spectrum] has what it needs for the
    kind of the object; the array returned is the one stored in [self.opd],
    and a failing call writes nothing on the object. *)
Theorem Kolmogorov_get_opd_returns {np : Numpy} (wave : pyobj) (w : Wavefront) (h : nat)
  (s : st KolmogorovWFE.t) :
  attrs wave = Ok w -> npix w = (2 * h)%nat -> (1 <= h)%nat ->
  seed_ok (KolmogorovWFE.seed (self s)) ->
  let sd := KolmogorovWFE.seed (self s) in
  let world2 := after_draw sd (npix w) (npix w) (after_draw sd (npix w) (npix w) (env s)) in
  (spectrum_defined (self s) wave (KolmogorovWFE.kind (self s)) ->
   exists o, KolmogorovWFE.get_opd wave s
             = (Ok o, mkSt (KolmogorovWFE.set_opd o (self s)) world2)) /\
  (~ spectrum_defined (self s) wave (KolmogorovWFE.kind (self s)) ->
   exists e, KolmogorovWFE.get_opd wave s = (Raise e, mkSt (self s) world2)).
Proof.
  intros Hw Hn Hh Hseed sd world2.
  destruct (rand_turbulent_run h s Hh Hseed) as (a & b & Ea & Eb & Hrun).
  match type of Ea with
  | KolmogorovWFE.symmetrize _ _ (normal_array ?key _ _) = _ =>
      destruct (symmetrize_even_symmetry h (IZR 1) _ Hh ltac:(lra)
                  (normal_array_rect key (2 * h) (2 * h))) as (a' & Ea' & Ra & _)
  end.
  match type of Eb with
  | KolmogorovWFE.symmetrize _ _ (normal_array ?key _ _) = _ =>
      destruct (symmetrize_even_symmetry h (IZR (-1)) _ Hh ltac:(lra)
                  (normal_array_rect key (2 * h) (2 * h))) as (b' & Eb' & Rb & _)
  end.
  rewrite Ea in Ea'. injection Ea' as <-. rewrite Eb in Eb'. injection Eb' as <-.
  fold sd in Hrun. rewrite <- Hn in Hrun. fold world2 in Hrun.
  assert (Hget : KolmogorovWFE.get_opd wave s
    = bind (KolmogorovWFE.power_spectrum wave (KolmogorovWFE.kind (self s)))
        (fun phi =>
           dz <- gets (fun s => KolmogorovWFE.dz (self s)) ;;
           g <- lift (ifft2 (zip2 (fun c p =>
                   Cscale (2 * PI / INR (npix w) / pixelscale w
                           * sqrt (2 * PI * dz * p)) c)
                   (KolmogorovWFE.combine_fields a b) phi)) ;;
           let o := mmap (fun z => INR (npix w) ^ 2 * Cre z) g in
           modify (on_self (KolmogorovWFE.set_opd o)) ;;; ret o)
        (mkSt (self s) world2)).
  { unfold KolmogorovWFE.get_opd. rewrite Hw. unfold bind at 1. unfold lift at 1.
    cbv beta iota zeta.
    replace (npix w =? 0)%nat with false by (symmetry; apply Nat.eqb_neq; lia).
    unfold ret at 1. cbv beta iota.
    rewrite (bind_ok _ _ s s tt) by reflexivity.
    rewrite (bind_ok _ _ _ _ _ Hrun). reflexivity. }
  rewrite Hget. clear Hget.
  pose proof (power_spectrum_returns wave (KolmogorovWFE.kind (self s))
                (mkSt (self s) world2)) as [Hst Hiff].
  cbn [self] in Hiff.
  destruct (KolmogorovWFE.power_spectrum wave (KolmogorovWFE.kind (self s))
              (mkSt (self s) world2)) as [[phi|e] s1] eqn:Eps; cbn [fst snd] in *; subst s1.
  - destruct (power_spectrum_zero_frequency wave w _ _ _ phi Hw Eps) as [Rphi _].
    split; [|intro Hnot; exfalso; apply Hnot, Hiff; now exists phi].
    intros _. rewrite (bind_ok _ _ _ _ _ Eps).
    unfold bind, gets, lift, ifft2. cbn [self].
    rewrite (rect_not_empty (npix w) (npix w)); [|apply zip2_rect; [|exact Rphi] |lia|lia].
    + eexists. reflexivity.
    + unfold KolmogorovWFE.combine_fields. rewrite Hn. now apply zip2_rect.
  - split; [intro Hdef; apply Hiff in Hdef; destruct Hdef as (? & [=])|].
    intros _. exists e. now rewrite (bind_raise _ _ _ _ _ Eps).
Qed.

Lemma Kolmogorov_get_opd_returns_witness :
  (exists o, KolmogorovWFE.get_opd (np := sample_numpy) (PyWavefront (sample_wave 2))
               (mkSt (sample_kolmogorov (Some 0%Z) "Kolmogorov") world0)
             = (Ok o, mkSt (KolmogorovWFE.set_opd o (sample_kolmogorov (Some 0%Z) "Kolmogorov"))
                        (after_draw (Some 0%Z) 2 2 (after_draw (Some 0%Z) 2 2 world0)))) /\
  (exists e, KolmogorovWFE.get_opd (np := sample_numpy) (PyWavefront (sample_wave 2))
               (mkSt (sample_kolmogorov (Some 0%Z) "Hill") world0)
             = (Raise e, mkSt (sample_kolmogorov (Some 0%Z) "Hill")
                           (after_draw (Some 0%Z) 2 2 (after_draw (Some 0%Z) 2 2 world0)))).
Proof.
  split.
  - apply (Kolmogorov_get_opd_returns (np := sample_numpy) (PyWavefront (sample_wave 2))
             (sample_wave 2) 1 (mkSt (sample_kolmogorov (Some 0%Z) "Kolmogorov") world0)
             eq_refl eq_refl); [lia | cbn; lia |].
    split; [cbn; tauto|]. split.
    + exists (sample_wave 2). split; [reflexivity|]. split; discriminate.
    + split; [discriminate | intro H; now contradiction H].
  - apply (Kolmogorov_get_opd_returns (np := sample_numpy) (PyWavefront (sample_wave 2))
             (sample_wave 2) 1 (mkSt (sample_kolmogorov (Some 0%Z) "Hill") world0)
             eq_refl eq_refl); [lia | cbn; lia |].
    intros (_ & _ & _ & H). cbn in H. apply H; [discriminate | reflexivity].
Defined.

(** *** ParameterizedWFE and ZernikeWFE: the weighted sums *)

Lemma zeros_get2 (n m i j : nat) : get2 (zeros n m) i j = 0.
Proof.
  unfold get2, zeros.
  destruct (Nat.lt_ge_cases i n) as [Hi|Hi].
  - rewrite (nth_indep _ [] (repeat 0 m)) by (now rewrite repeat_length).
    rewrite nth_repeat. apply nth_repeat.
  - rewrite (nth_overflow (repeat (repeat 0 m) n) []) by (now rewrite repeat_length).
    now destruct j.
Qed.

Lemma accumulate_sum (n m : nat) (terms : list matrix) (coefficients : list R) :
  Forall (rect n m) terms -> (0 < n)%nat ->
  forall idx combined, rect n m combined ->
    (forall i c, nth_error coefficients i = Some c -> c <> 0 ->
                 (idx + i < length terms)%nat) ->
    exists out, ParameterizedWFE.accumulate idx coefficients terms combined = Ok out /\
      rect n m out /\
      forall i j, (i < n)%nat -> (j < m)%nat ->
        get2 out i j = get2 combined i j
                       + weighted_sum (fun k => nth k terms []) idx coefficients i j.
Proof.
  intros Hterms Hn. induction coefficients as [|c rest IH]; intros idx combined Hc Hidx.
  - exists combined. split; [reflexivity|]. split; [exact Hc|].
    intros i j _ _. cbn [weighted_sum]. ring.
  - cbn [ParameterizedWFE.accumulate weighted_sum].
    assert (Hrest : forall i c', nth_error rest i = Some c' -> c' <> 0 ->
                                 (S idx + i < length terms)%nat).
    { intros i c' Hi Hc'. specialize (Hidx (S i) c' Hi Hc'). lia. }
    destruct (Req_dec_T c 0) as [->|Hne].
    + destruct (IH (S idx) combined Hc Hrest) as (out & E & Rout & G).
      exists out. split; [exact E|]. split; [exact Rout|].
      intros i j Hi Hj. rewrite (G i j Hi Hj). ring.
    + specialize (Hidx 0%nat c eq_refl Hne). rewrite Nat.add_0_r in Hidx.
      destruct (nth_error terms idx) as [term|] eqn:E;
        [|apply nth_error_None in E; lia].
      assert (Hterm : rect n m term).
      { rewrite Forall_forall in Hterms. apply Hterms. eapply nth_error_In. exact E. }
      destruct (iadd_exact n m combined (scale c term) Hc (scale_rect n m c term Hterm) Hn)
        as [-> Hc'].
      destruct (IH (S idx) _ Hc' Hrest) as (out & E' & Rout & G).
      exists out. split; [exact E'|]. split; [exact Rout|].
      intros i j Hi Hj. rewrite (G i j Hi Hj).
      rewrite (zip2_get2 Rplus n m) by (trivial; now apply scale_rect).
      rewrite scale_get2, (nth_error_nth _ _ _ E). ring.
Qed.

(** X8: with coordinate arrays and basis terms of the shape of the grid, and
    a basis term for every non-zero coefficient, [get_opd] of a
    [ParameterizedWFE] returns the array whose entry [(i, j)] is the sum over
    all the coefficients of [coefficient * term[i, j]], the terms being those
    of [basis_factory] on [(rho, theta)]: leaving the zero coefficients out
    of the loop changes nothing, and the object is left as it was. *)
Theorem Parameterized_get_opd_sum {np : Numpy} {pp : Poppy}
  (w : Wavefront) (s : st ParameterizedWFE.t) (y x : matrix) (n m L : nat) :
  get_coordinates w = (y, x) -> rect n m y -> rect n m x -> (0 < n)%nat ->
  (forall rho theta, rect n m rho -> rect n m theta ->
     let terms := ParameterizedWFE.basis_factory (self s)
                    (length (ParameterizedWFE.coefficients (self s))) rho theta 0 in
     length terms = L /\ Forall (rect n m) terms) ->
  (forall i c, nth_error (ParameterizedWFE.coefficients (self s)) i = Some c ->
               c <> 0 -> (i < L)%nat) ->
  exists rho theta out,
    _wave_y_x_to_rho_theta y x (ParameterizedWFE.radius (self s)) = Ok (rho, theta) /\
    ParameterizedWFE.get_opd (PyWavefront w) s = (Ok out, s) /\
    rect n m out /\
    forall i j, (i < n)%nat -> (j < m)%nat ->
      get2 out i j =
      weighted_sum
        (fun k => nth k (ParameterizedWFE.basis_factory (self s)
                           (length (ParameterizedWFE.coefficients (self s))) rho theta 0) [])
        0 (ParameterizedWFE.coefficients (self s)) i j.
Proof.
  intros Hcoord Hy Hx Hn Hbasis Hidx.
  destruct (rho_theta_rect n m y x (ParameterizedWFE.radius (self s)) Hy Hx Hn)
    as (rho & theta & E & Hrho & Htheta).
  destruct (Hbasis rho theta Hrho Htheta) as [Hlen Hterms].
  destruct (accumulate_sum n m _ (ParameterizedWFE.coefficients (self s)) Hterms Hn
              0%nat (zeros n m) (zeros_rect n m)) as (out & Eo & Rout & G).
  { intros i c Hi Hc. rewrite Hlen. cbn. now apply (Hidx i c). }
  exists rho, theta, out. split; [exact E|]. split; [|split; [exact Rout|]].
  - unfold ParameterizedWFE.get_opd, _check_wavefront_arg.
    cbn [isinstance_BaseWavefront negb attrs]. unfold bind, lift, gets.
    rewrite Hcoord, E. rewrite (rect_shape n m rho Hrho Hn). cbn [fst snd].
    now rewrite Eo.
  - intros i j Hi Hj. rewrite (G i j Hi Hj), zeros_get2. ring.
Qed.

Lemma Parameterized_get_opd_sum_witness :
  let s := mkSt sample_parameterized world0 in
  exists rho theta out,
    _wave_y_x_to_rho_theta (np := sample_numpy) [[1; 1]; [1; 1]] [[1; 1]; [1; 1]]
      (ParameterizedWFE.radius (self s)) = Ok (rho, theta) /\
    ParameterizedWFE.get_opd (np := sample_numpy) (pp := sample_poppy)
      (PyWavefront (sample_wave 2)) s = (Ok out, s) /\
    rect 2 2 out /\
    forall i j, (i < 2)%nat -> (j < 2)%nat ->
      get2 out i j =
      weighted_sum
        (fun k => nth k (ParameterizedWFE.basis_factory (self s)
                           (length (ParameterizedWFE.coefficients (self s))) rho theta 0) [])
        0 (ParameterizedWFE.coefficients (self s)) i j.
Proof.
  apply (Parameterized_get_opd_sum (np := sample_numpy) (pp := sample_poppy) (sample_wave 2)
           (mkSt sample_parameterized world0)
           [[1; 1]; [1; 1]] [[1; 1]; [1; 1]] 2 2 1).
  - reflexivity.
  - split; [reflexivity|repeat constructor].
  - split; [reflexivity|repeat constructor].
  - lia.
  - intros rho theta Hrho _. split; [reflexivity|]. constructor; [exact Hrho|constructor].
  - intros [|[|[|i]]] c; cbn; intros [= <-] Hc; [lia | now contradiction Hc].
Defined.

Lemma Zernike_accumulate_sum (n m : nat) (term : nat -> matrix) (coefficients : list R) :
  (forall j, rect n m (term j)) -> (0 < n)%nat ->
  forall j0 combined, rect n m combined ->
    exists out, ZernikeWFE.accumulate j0 coefficients term combined = Ok out /\
      rect n m out /\
      forall i j, (i < n)%nat -> (j < m)%nat ->
        get2 out i j = get2 combined i j + weighted_sum term j0 coefficients i j.
Proof.
  intros Hterm Hn. induction coefficients as [|c rest IH]; intros j0 combined Hc.
  - exists combined. split; [reflexivity|]. split; [exact Hc|].
    intros i j _ _. cbn [weighted_sum]. ring.
  - cbn [ZernikeWFE.accumulate weighted_sum].
    destruct (iadd_exact n m combined (scale c (term j0)) Hc
                (scale_rect n m c _ (Hterm j0)) Hn) as [-> Hc'].
    destruct (IH (S j0) _ Hc') as (out & E & Rout & G).
    exists out. split; [exact E|]. split; [exact Rout|].
    intros i j Hi Hj. rewrite (G i j Hi Hj).
    rewrite (zip2_get2 Rplus n m) by (trivial; now apply scale_rect).
    rewrite scale_get2. ring.
Qed.

Lemma same_shape_check (n m : nat) (a b : matrix) :
  rect n m a -> rect n m b ->
  (Nat.eqb (length a) (length b)
   && forallb (fun p => Nat.eqb (length (fst p)) (length (snd p))) (combine a b))%bool = true.
Proof.
  intros [Hla Ha] [Hlb Hb]. apply andb_true_iff. split.
  - apply Nat.eqb_eq. congruence.
  - apply forallb_forall. intros [r1 r2] Hin. cbn [fst snd]. apply Nat.eqb_eq.
    rewrite Forall_forall in Ha, Hb.
    rewrite (Ha r1 (in_combine_l _ _ _ _ Hin)), (Hb r2 (in_combine_r _ _ _ _ Hin)).
    reflexivity.
Qed.

(** X9: with an aperture array and Zernike terms of the shape of the
    wavefront, [get_opd] of a [ZernikeWFE] returns the array that is 0
    wherever the transmission of the circular aperture is 0 and, everywhere
    else, the sum over the coefficients of [coefficient * Z_j], the first
    coefficient going with the Noll index [j = 1]; the object is left as it
    was. *)
Theorem Zernike_get_opd_masked_sum {np : Numpy} {pp : Poppy}
  (w : Wavefront) (s : st ZernikeWFE.t) :
  let k := self s in
  let N := npix w in
  let ap := circular_transmission (ZernikeWFE.radius k) w in
  (0 < N)%nat -> rect N N ap ->
  (ZernikeWFE.has_offset_coords k = true ->
   rect N N (fst (get_coordinates w)) /\ rect N N (snd (get_coordinates w))) ->
  (forall j, rect N N (zernike_term k w j)) ->
  exists out,
    ZernikeWFE.get_opd (PyWavefront w) s = (Ok out, s) /\
    rect N N out /\
    forall i j, (i < N)%nat -> (j < N)%nat ->
      get2 out i j = if Req_dec_T (get2 ap i j) 0 then 0
                     else weighted_sum (zernike_term k w) 1 (ZernikeWFE.coefficients k) i j.
Proof.
  intros k N ap HN Hap Hcoord Hterm.
  assert (Hrun : exists term,
            (forall j, term j = zernike_term k w j) /\
            ZernikeWFE.get_opd (PyWavefront w) s
            = bind (lift (ZernikeWFE.accumulate 1 (ZernikeWFE.coefficients k) term
                            (zeros N N)))
                (fun c =>
                   if (Nat.eqb (length c) (length ap)
                       && forallb (fun p => Nat.eqb (length (fst p)) (length (snd p)))
                            (combine c ap))%bool
                   then ret (zip2 (fun v t => if Req_dec_T t 0 then 0 else v) c ap)
                   else raise IndexError) s).
  { unfold ZernikeWFE.get_opd, _check_wavefront_arg.
    cbn [isinstance_BaseWavefront negb attrs].
    unfold zernike_term. fold k.
    destruct (ZernikeWFE.has_offset_coords k) eqn:Hoff.
    - destruct (Hcoord eq_refl) as [Hy Hx].
      destruct (get_coordinates w) as [y x] eqn:Hc. cbn [fst snd] in *.
      destruct (rho_theta_rect N N y x (ZernikeWFE.radius k) Hy Hx HN)
        as (rho & theta & E & _ & _).
      exists (fun j => zernike1 j rho theta). split.
      + intro j. now rewrite E.
      + unfold bind at 1. unfold lift at 1. unfold bind at 1. unfold gets at 1.
        fold k. rewrite Hoff. unfold bind at 1. unfold bind at 1. unfold lift at 1.
        fold k. rewrite ?Hc, E. reflexivity.
    - exists (fun j => cached_zernike1 j (wshape w) (pixelscale w) (ZernikeWFE.radius k)).
      split; [reflexivity|].
      unfold bind at 1. unfold lift at 1. unfold bind at 1. unfold gets at 1.
      fold k. rewrite Hoff. reflexivity. }
  destruct Hrun as (term & Hterm' & ->).
  assert (Ht : forall j, rect N N (term j)) by (intro j; rewrite Hterm'; apply Hterm).
  destruct (Zernike_accumulate_sum N N term (ZernikeWFE.coefficients k) Ht HN 1%nat
              (zeros N N) (zeros_rect N N)) as (c & Ec & Rc & G).
  unfold bind, lift. rewrite Ec, (same_shape_check N N c ap Rc Hap).
  eexists. split; [reflexivity|]. split.
  - now apply zip2_rect.
  - intros i j Hi Hj.
    rewrite (zip2_get2 _ N N) by trivial.
    destruct (Req_dec_T (get2 ap i j) 0); [reflexivity|].
    rewrite (G i j Hi Hj), zeros_get2, Rplus_0_l.
    clear -Hterm'. generalize 1%nat.
    induction (ZernikeWFE.coefficients k) as [|c0 rest IH]; intro j0; [reflexivity|].
    cbn [weighted_sum]. now rewrite Hterm', IH.
Qed.

Lemma Zernike_get_opd_masked_sum_witness :
  let s := mkSt sample_zernike world0 in
  let w := sample_wave 2 in
  exists out,
    ZernikeWFE.get_opd (np := sample_numpy) (pp := sample_poppy) (PyWavefront w) s
    = (Ok out, s) /\
    rect 2 2 out /\
    forall i j, (i < 2)%nat -> (j < 2)%nat ->
      get2 out i j =
      if Req_dec_T (get2 (circular_transmission (Poppy := sample_poppy) 1 w) i j) 0 then 0
      else weighted_sum (zernike_term (np := sample_numpy) (pp := sample_poppy)
                           sample_zernike w) 1 [1; 2] i j.
Proof.
  apply (Zernike_get_opd_masked_sum (np := sample_numpy) (pp := sample_poppy)
           (sample_wave 2) (mkSt sample_zernike world0)).
  - cbn. lia.
  - split; [reflexivity|repeat constructor].
  - discriminate.
  - intro j. split; [reflexivity|repeat constructor].
Defined.

(** *** SineWaveWFE and the polar coordinates *)

Lemma mmap_get2_cases (f : R -> R) (a : matrix) (i j : nat) :
  get2 (mmap f a) i j = 0 \/ get2 (mmap f a) i j = f (get2 a i j).
Proof.
  unfold get2, mmap.
  change (@nil R) with (map f []) at 1 2. rewrite map_nth.
  destruct (Nat.lt_ge_cases j (length (nth i a []))) as [Hj|Hj].
  - right. rewrite (nth_indep _ 0 (f 0)) by (now rewrite length_map). apply map_nth.
  - left. apply nth_overflow. now rewrite length_map.
Qed.

Lemma shape_mmap {A B : Type} (f : A -> B) (a : list (list A)) :
  shape (mmap f a) = shape a.
Proof.
  unfold shape, mmap. rewrite length_map. f_equal.
  destruct a as [|r t]; [reflexivity|]. cbn [hd map]. apply length_map.
Qed.

(** X10: [get_opd] of a [SineWaveWFE] never fails on a wavefront: it returns
    an array of the shape of the x coordinates whose entries all lie between
    [-|amplitude|] and [|amplitude|], and leaves the object as it was. *)
Theorem SineWave_get_opd_bounded {pp : Poppy} (w : Wavefront) (s : st SineWaveWFE.t) :
  exists opd,
    SineWaveWFE.get_opd (PyWavefront w) s = (Ok opd, s) /\
    shape opd = shape (snd (get_coordinates w)) /\
    forall i j, Rabs (get2 opd i j) <= Rabs (SineWaveWFE.sine_amplitude (self s)).
Proof.
  unfold SineWaveWFE.get_opd, _check_wavefront_arg.
  cbn [isinstance_BaseWavefront negb attrs]. unfold bind, lift, gets, ret.
  destruct (get_coordinates w) as [y x]. cbn [snd].
  eexists. split; [reflexivity|]. split; [apply shape_mmap|].
  intros i j.
  match goal with
  | |- context [get2 (mmap ?f x) i j] => destruct (mmap_get2_cases f x i j) as [-> | ->]
  end.
  - rewrite Rabs_R0. apply Rabs_pos.
  - rewrite Rabs_mult. rewrite <- (Rmult_1_r (Rabs _)) at 2.
    apply Rmult_le_compat_l; [apply Rabs_pos|].
    apply Rabs_le. apply SIN_bound.
Qed.

(** X11: for coordinate arrays of one shape and a positive pupil radius,
    [_wave_y_x_to_rho_theta] returns arrays of that shape, and [rho] is
    never negative, is 1 exactly at the samples that lie at the pupil radius
    from the origin, and is at most 1 exactly at the samples inside. *)
Theorem rho_normalised {np : Numpy} (n m : nat) (y x : matrix) (pupil_radius : R) :
  rect n m y -> rect n m x -> (0 < n)%nat -> 0 < pupil_radius ->
  exists rho theta,
    _wave_y_x_to_rho_theta y x pupil_radius = Ok (rho, theta) /\
    rect n m rho /\ rect n m theta /\
    forall i j, (i < n)%nat -> (j < m)%nat ->
      let d2 := get2 x i j ^ 2 + get2 y i j ^ 2 in
      0 <= get2 rho i j /\
      (get2 rho i j = 1 <-> d2 = pupil_radius ^ 2) /\
      (get2 rho i j <= 1 <-> d2 <= pupil_radius ^ 2).
Proof.
  intros Hy Hx Hn Hr. unfold _wave_y_x_to_rho_theta.
  rewrite (binop_exact _ n m x y Hx Hy Hn), (binop_exact _ n m y x Hy Hx Hn).
  eexists. eexists. split; [reflexivity|].
  split; [now apply zip2_rect|]. split; [now apply zip2_rect|].
  intros i j Hi Hj. rewrite (zip2_get2 _ n m) by trivial.
  set (d2 := get2 x i j ^ 2 + get2 y i j ^ 2).
  assert (Hd : 0 <= d2) by (unfold d2; nra).
  assert (Hs : 0 <= sqrt d2) by apply sqrt_pos.
  assert (Hsq : sqrt d2 * sqrt d2 = d2) by (now apply sqrt_sqrt).
  assert (Hdiv : forall t, sqrt d2 / pupil_radius = t <-> sqrt d2 = t * pupil_radius).
  { intro t. split; intro H.
    - rewrite <- H. field. lra.
    - rewrite H. field. lra. }
  split; [|split].
  - apply Rmult_le_pos; [exact Hs|]. left. now apply Rinv_0_lt_compat.
  - rewrite Hdiv, Rmult_1_l. split; intro H.
    + rewrite <- Hsq, H. ring.
    + apply (Rsqr_inj _ _ Hs (Rlt_le _ _ Hr)). unfold Rsqr. rewrite Hsq, H. ring.
  - split; intro H.
    + apply (Rmult_le_compat_r pupil_radius) in H; [|lra].
      replace (sqrt d2 / pupil_radius * pupil_radius) with (sqrt d2) in H by (field; lra).
      rewrite Rmult_1_l in H. rewrite <- Hsq. nra.
    + apply (Rmult_le_reg_r pupil_radius); [exact Hr|].
      replace (sqrt d2 / pupil_radius * pupil_radius) with (sqrt d2) by (field; lra).
      rewrite Rmult_1_l. apply Rsqr_incr_0_var; [|lra]. unfold Rsqr. rewrite Hsq. nra.
Qed.

Lemma rho_normalised_witness :
  exists rho theta,
    _wave_y_x_to_rho_theta (np := sample_numpy) [[0; 3]] [[2; 4]] 5 = Ok (rho, theta) /\
    rect 1 2 rho /\ rect 1 2 theta /\
    forall i j, (i < 1)%nat -> (j < 2)%nat ->
      let d2 := get2 [[2; 4]] i j ^ 2 + get2 [[0; 3]] i j ^ 2 in
      0 <= get2 rho i j /\
      (get2 rho i j = 1 <-> d2 = 5 ^ 2) /\
      (get2 rho i j <= 1 <-> d2 <= 5 ^ 2).
Proof.
  apply (rho_normalised (np := sample_numpy) 1 2 [[0; 3]] [[2; 4]] 5).
  - split; [reflexivity|repeat constructor].
  - split; [reflexivity|repeat constructor].
  - lia.
  - lra.
Defined.

(** *** StatisticalPSDWFE: the normalisation *)

Lemma concat_mmap {A B : Type} (f : A -> B) (a : list (list A)) :
  concat (mmap f a) = map f (concat a).
Proof. unfold mmap. symmetry. apply concat_map. Qed.

Lemma sum_shift (c : R) (l : list R) :
  sum (map (fun v => v - c) l) = sum l - INR (length l) * c.
Proof.
  induction l as [|x l IH]; [cbn; ring|].
  cbn [map sum fold_right length]. fold (sum (map (fun v => v - c) l)). fold (sum l).
  rewrite IH, S_INR. ring.
Qed.

Lemma sum_times (c : R) (l : list R) : sum (map (fun v => v * c) l) = sum l * c.
Proof.
  induction l as [|x l IH]; [cbn; ring|].
  cbn [map sum fold_right]. fold (sum (map (fun v => v * c) l)). fold (sum l).
  rewrite IH. ring.
Qed.

Lemma mean_centred (l : list R) : mean (map (fun v => v - mean l) l) = 0.
Proof.
  unfold mean at 1. rewrite sum_shift, length_map.
  destruct l as [|x l]; [cbn; unfold Rdiv; ring|].
  assert (Hn : INR (length (x :: l)) <> 0) by (apply not_0_INR; discriminate).
  unfold mean. field. exact Hn.
Qed.

Lemma std_zero_mean (l : list R) :
  mean l = 0 -> std l = sqrt (mean (map (fun x => x ^ 2) l)).
Proof.
  intro H. unfold std. rewrite H. do 2 f_equal. apply map_ext. intro x. ring.
Qed.

Lemma screen_factors {np : Numpy} (k : StatisticalPSDWFE.t) (psd rndm_phase : matrix) :
  StatisticalPSDWFE.screen k psd rndm_phase =
  match phase_screen psd rndm_phase with
  | Raise e => Raise e
  | Ok p => Ok (mmap (fun v => v / std (concat (centred p)) * StatisticalPSDWFE.wfe k)
                  (centred p))
  end.
Proof.
  unfold StatisticalPSDWFE.screen, phase_screen.
  destruct (fft2 _) as [f|e]; [|reflexivity].
  destruct (binop _ _ _) as [scaled|e]; [|reflexivity].
  destruct (ifft2 _) as [g|e]; reflexivity.
Qed.

(** X12: whenever the phase screen of lines 351-353 was computed and, once
    centred, has a standard deviation other than 0, the array that
    [StatisticalPSDWFE.get_opd] makes of it has the shape of the screen, mean
    0 and standard deviation [|wfe|]. *)
Theorem StatisticalPSD_screen_normalised {np : Numpy} (k : StatisticalPSDWFE.t)
  (psd rndm_phase p : matrix) :
  phase_screen psd rndm_phase = Ok p ->
  std (concat (centred p)) <> 0 ->
  exists o,
    StatisticalPSDWFE.screen k psd rndm_phase = Ok o /\
    shape o = shape p /\
    mean (concat o) = 0 /\
    std (concat o) = Rabs (StatisticalPSDWFE.wfe k).
Proof.
  intros Hp Hsd. rewrite screen_factors, Hp. eexists. split; [reflexivity|].
  split; [unfold centred; now rewrite !shape_mmap|].
  set (l0 := concat (centred p)) in *.
  assert (Hm0 : mean l0 = 0).
  { unfold l0, centred. rewrite concat_mmap. apply mean_centred. }
  set (c := / std l0 * StatisticalPSDWFE.wfe k).
  assert (Ho : concat (mmap (fun v => v / std l0 * StatisticalPSDWFE.wfe k) (centred p))
               = map (fun v => v * c) l0).
  { rewrite concat_mmap. fold l0. apply map_ext. intro v. unfold c, Rdiv. ring. }
  rewrite Ho.
  assert (Hm : mean (map (fun v => v * c) l0) = 0).
  { unfold mean in *. rewrite sum_times, length_map.
    replace (sum l0 * c / INR (length l0)) with (sum l0 / INR (length l0) * c)
      by (unfold Rdiv; ring).
    rewrite Hm0. ring. }
  split; [exact Hm|].
  rewrite (std_zero_mean _ Hm).
  replace (map (fun v => v * c) l0) with (map (Rmult c) l0)
    by (apply map_ext; intro v; ring).
  rewrite rms_scale, <- (std_zero_mean _ Hm0).
  assert (Hpos : 0 < std l0).
  { destruct (sqrt_pos (mean (map (fun x => (x - mean l0) ^ 2) l0))) as [H|H].
    - exact H.
    - exfalso. apply Hsd. symmetry. exact H. }
  unfold c. rewrite Rabs_mult, (Rabs_right (/ std l0)).
  - field. exact Hsd.
  - apply Rle_ge. left. now apply Rinv_0_lt_compat.
Qed.

Lemma StatisticalPSD_screen_normalised_witness :
  let k := StatisticalPSDWFE.mk 3 (-5) 1 None None in
  exists o,
    StatisticalPSDWFE.screen (np := sample_numpy) k [[1; 1]] [[0; 2]] = Ok o /\
    shape o = shape [[sqrt 1 * 0; sqrt 1 * 2]] /\
    mean (concat o) = 0 /\
    std (concat o) = Rabs (-5).
Proof.
  apply (StatisticalPSD_screen_normalised (np := sample_numpy)
           (StatisticalPSDWFE.mk 3 (-5) 1 None None) [[1; 1]] [[0; 2]]
           [[sqrt 1 * 0; sqrt 1 * 2]]).
  - reflexivity.
  - apply Rgt_not_eq, Rlt_gt, sqrt_lt_R0. unfold centred, mean, sum.
    cbn -[Rdiv Rmult Rplus Rminus sqrt]. rewrite sqrt_1. lra.
Defined.

(** *** The stored screen *)

Section Stores.
Context {Obj : Type} (opd : Obj -> option matrix).

Lemma stores_raise (e : exn) : stores opd (raise e).
Proof. intro s. reflexivity. Qed.

Lemma stores_bind {A : Type} (m : M (st Obj) A) (k : A -> M (st Obj) matrix) :
  keeps opd m -> (forall a, stores opd (k a)) -> stores opd (bind m k).
Proof.
  intros Hm Hk s. unfold bind. specialize (Hm s).
  destruct (m s) as [[a|e] s1]; cbn [fst snd] in *; [|exact Hm].
  specialize (Hk a s1). destruct (k a s1) as [[o|e] s2]; cbn [fst snd] in *; congruence.
Qed.

Lemma stores_set (set_opd : matrix -> Obj -> Obj) (o : matrix) :
  (forall k, opd (set_opd o k) = Some o) ->
  stores opd (modify (on_self (set_opd o)) ;;; ret o).
Proof. intros H s. apply H. Qed.

Lemma stores_check (g : pyobj -> M (st Obj) matrix) (wave : pyobj) :
  (forall wave, stores opd (g wave)) -> stores opd (_check_wavefront_arg g wave).
Proof.
  intro H. unfold _check_wavefront_arg.
  destruct (negb (isinstance_BaseWavefront wave)); [apply stores_raise|apply H].
Qed.
End Stores.

(** X13: the three classes that keep their last screen return from
    [get_opd] the very array they have stored in [self.opd], and a call
    that raises leaves [self.opd] as it was, whatever the argument. *)
Theorem get_opd_stores_result {np : Numpy} {pp : Poppy} {U : Units} (wave : pyobj) :
  stores StatisticalPSDWFE.opd (StatisticalPSDWFE.get_opd wave) /\
  stores PowerSpectrumWFE.opd (PowerSpectrumWFE.get_opd wave) /\
  stores KolmogorovWFE.opd (KolmogorovWFE.get_opd wave).
Proof.
  split; [|split].
  - unfold StatisticalPSDWFE.get_opd. apply stores_check. intro wv.
    apply stores_bind; [apply keeps_lift|intro w].
    apply stores_bind; [apply keeps_gets|intro k].
    destruct (get_coordinates w) as [y x].
    apply stores_bind; [apply keeps_lift|intro p].
    apply stores_bind; [apply keeps_RandomState_new|intro rs].
    apply stores_bind; [apply keeps_rs_seed|intro rs'].
    apply stores_bind; [apply keeps_rs_normal|intro noise].
    apply stores_bind; [apply keeps_lift|intro o].
    apply stores_set. reflexivity.
  - unfold PowerSpectrumWFE.get_opd. apply stores_check. intro wv.
    apply stores_bind; [apply keeps_lift|intro w].
    apply stores_bind;
      [unfold PowerSpectrumWFE.resolve_screen_size; keeps_all|intro size].
    apply stores_bind; [apply synthesize_keeps|intro o].
    unfold PowerSpectrumWFE.calibrate.
    apply stores_bind; [apply keeps_gets|intro k].
    apply stores_bind; [keeps_all|intro o'].
    apply stores_set. reflexivity.
  - unfold KolmogorovWFE.get_opd.
    apply stores_bind; [apply keeps_lift|intro w].
    apply stores_bind; [keeps_all|intros _].
    apply stores_bind; [apply rand_turbulent_keeps|intro a].
    apply stores_bind; [apply keeps_gets|intro kd].
    apply stores_bind; [apply power_spectrum_keeps|intro phi].
    apply stores_bind; [apply keeps_gets|intro dz].
    apply stores_bind; [apply keeps_lift|intro g].
    apply stores_set. reflexivity.
Qed.

(** *** PowerSpectrumWFE: the checks before the draw *)

(** X14: when the screen size given at construction is smaller than the
    true size of the wavefront (the side of the array, divided by the
    oversampling when the wavefront is padded), [get_opd] raises the
    exception of line 499 and leaves the object and the generator as they
    were. *)
Theorem PowerSpectrum_screen_too_small {np : Numpy} {pp : Poppy} {U : Units}
  (w : Wavefront) (s : st PowerSpectrumWFE.t) (n : nat) :
  PowerSpectrumWFE.screen_size (self s) = Some n ->
  (ispadded w = true -> oversample w <> 0%nat) ->
  (n < (if ispadded w then npix w / oversample w else npix w))%nat ->
  PowerSpectrumWFE.get_opd (PyWavefront w) s
  = (Raise (Exception_
       "PSD screen size smaller than wavefront size, recommend at least 2x larger"), s).
Proof.
  intros Hsize Hover Hlt. rewrite PowerSpectrum_get_opd_unfold.
  apply bind_raise. unfold PowerSpectrumWFE.resolve_screen_size.
  destruct (ispadded w).
  - destruct (oversample w =? 0)%nat eqn:E;
      [apply Nat.eqb_eq in E; now elim (Hover eq_refl)|].
    unfold bind, ret, gets. cbn [fst snd]. rewrite Hsize.
    apply Nat.ltb_lt in Hlt. now rewrite Hlt.
  - unfold bind, ret, gets. cbn [fst snd]. rewrite Hsize.
    apply Nat.ltb_lt in Hlt. now rewrite Hlt.
Qed.

Lemma PowerSpectrum_screen_too_small_witness :
  PowerSpectrumWFE.get_opd (np := sample_numpy) (pp := sample_poppy) (U := sample_units)
    (PyWavefront (sample_wave 4)) (mkSt (sample_power_spectrum (Some 2%nat) None) world0)
  = (Raise (Exception_
       "PSD screen size smaller than wavefront size, recommend at least 2x larger"),
     mkSt (sample_power_spectrum (Some 2%nat) None) world0).
Proof.
  apply (PowerSpectrum_screen_too_small (np := sample_numpy) (pp := sample_poppy)
           (U := sample_units) (sample_wave 4)
           (mkSt (sample_power_spectrum (Some 2%nat) None) world0) 2).
  - reflexivity.
  - discriminate.
  - cbn. lia.
Defined.

Lemma rect_ext (n m : nat) (a b : matrix) :
  rect n m a -> rect n m b ->
  (forall i j, (i < n)%nat -> (j < m)%nat -> get2 a i j = get2 b i j) -> a = b.
Proof.
  intros Ha Hb H. pose proof Ha as [Hla _]. pose proof Hb as [Hlb _].
  apply (nth_ext a b [] []); [congruence|].
  intros i Hi. rewrite Hla in Hi.
  apply (nth_ext _ _ 0 0).
  - now rewrite (rect_row n m a i Ha Hi), (rect_row n m b i Hb Hi).
  - intros j Hj. rewrite (rect_row n m a i Ha Hi) in Hj. now apply H.
Qed.

(** The PSD of one term on a frequency map that is 0 at the centre: every
    entry, and the map handed on to the next term, which is the map the
    term was given. *)
Lemma psd_interm_entries {U : Units} (cen : nat) (dk : R) (k_map : matrix)
  (p : PowerSpectrumWFE.psd_term) :
  (1 <= cen)%nat -> rect (2 * cen) (2 * cen) k_map -> get2 k_map cen cen = 0 ->
  exists interm,
    PowerSpectrumWFE.psd_interm cen dk k_map p = Ok (interm, k_map) /\
    rect (2 * cen) (2 * cen) interm /\
    forall i j, (i < 2 * cen)%nat -> (j < 2 * cen)%nat ->
      get2 interm i j =
      if ((i =? cen) && (j =? cen))%nat
      then if Req_dec_T (PowerSpectrumWFE.outer_scale p) 0 then 0
           else psd_value p (get2 k_map i j)
      else psd_value p (get2 k_map i j).
Proof.
  intros Hcen Hk H0. unfold PowerSpectrumWFE.psd_interm, psd_value. cbv zeta.
  destruct (Req_dec_T (PowerSpectrumWFE.outer_scale p) 0) as [Hp|Hp].
  - destruct (set_item_exact _ _ k_map cen cen (1 * dk) Hk) as (k1 & E1 & R1 & G1); try lia.
    rewrite E1.
    match goal with
    | |- context [set_item (zip2 ?f k1 ?den) cen cen 0] =>
        assert (Rz : rect (2 * cen) (2 * cen) (zip2 f k1 den))
          by (apply zip2_rect; [exact R1|now apply mmap_rect])
    end.
    destruct (set_item_exact _ _ _ cen cen 0 Rz) as (interm & E2 & R2 & G2); try lia.
    rewrite E2.
    destruct (set_item_exact _ _ k1 cen cen 0 R1) as (k2 & E3 & R3 & G3); try lia.
    rewrite E3.
    assert (Hk2 : k2 = k_map).
    { apply (rect_ext (2 * cen) (2 * cen)); trivial.
      intros i j _ _. rewrite G3, G1.
      destruct ((i =? cen) && (j =? cen))%nat eqn:E; [|reflexivity].
      apply andb_true_iff in E. destruct E as [Ei Ej].
      apply Nat.eqb_eq in Ei, Ej. subst. now rewrite H0. }
    rewrite Hk2. exists interm. split; [reflexivity|]. split; [exact R2|].
    intros i j Hi Hj. rewrite G2.
    destruct ((i =? cen) && (j =? cen))%nat eqn:E; [reflexivity|].
    rewrite (zip2_get2 _ (2 * cen) (2 * cen)) by (trivial; now apply mmap_rect).
    rewrite (mmap_get2 _ (2 * cen) (2 * cen)) by trivial.
    now rewrite G1, E.
  - eexists. split; [reflexivity|]. split.
    + apply zip2_rect; [exact Hk|now apply mmap_rect].
    + intros i j Hi Hj.
      rewrite (zip2_get2 _ (2 * cen) (2 * cen)) by (trivial; now apply mmap_rect).
      rewrite (mmap_get2 _ (2 * cen) (2 * cen)) by trivial.
      now destruct ((i =? cen) && (j =? cen))%nat.
Qed.

Lemma psd_loop_total {U : Units} (cen : nat) (dk : R) (k_map : matrix)
  (ps : list PowerSpectrumWFE.psd_term) (weights : list R) :
  (1 <= cen)%nat -> rect (2 * cen) (2 * cen) k_map -> get2 k_map cen cen = 0 ->
  forall n psd surf,
    rect (2 * cen) (2 * cen) psd ->
    (n + length weights <= length ps)%nat ->
    (forall i p, (n <= i < n + length weights)%nat -> nth_error ps i = Some p ->
                 units_consistent p = true) ->
    exists psd' surf',
      PowerSpectrumWFE.psd_loop n weights (Some ps) cen dk k_map psd surf
      = Ok (psd', surf') /\
      rect (2 * cen) (2 * cen) psd' /\
      (weights <> [] -> surf' <> None) /\
      forall i j, (i < 2 * cen)%nat -> (j < 2 * cen)%nat ->
        get2 psd' i j
        = get2 psd i j
          + psd_total n weights ps ((i =? cen) && (j =? cen))%nat (get2 k_map i j).
Proof.
  intros Hcen Hk H0. induction weights as [|weight rest IH]; intros n psd surf Hpsd Hlen Hu.
  - exists psd, surf. split; [reflexivity|]. split; [exact Hpsd|].
    split; [now intros []|]. intros i j _ _. cbn [psd_total]. ring.
  - cbn [PowerSpectrumWFE.psd_loop psd_total]. cbn [length] in Hlen, Hu.
    destruct (nth_error ps n) as [p|] eqn:Ep; [|apply nth_error_None in Ep; lia].
    assert (Hc : units_consistent p = true) by (apply (Hu n p); [lia|exact Ep]).
    unfold units_consistent in Hc. cbv zeta. rewrite Hc. cbn [negb].
    destruct (psd_interm_entries cen dk k_map p Hcen Hk H0) as (interm & E & Ri & G).
    rewrite E.
    assert (Rc : rect (2 * cen) (2 * cen) (PowerSpectrumWFE.contribution weight p interm))
      by (now apply mmap_rect).
    destruct (IH (S n) (zip2 Rplus psd (PowerSpectrumWFE.contribution weight p interm))
                (Some (surf_unit (psd_units (qunit (PowerSpectrumWFE.beta p))
                                    (PowerSpectrumWFE.alpha p)))))
      as (psd' & surf' & E' & R' & Hs' & G').
    + now apply zip2_rect.
    + lia.
    + intros i q Hi. apply Hu. lia.
    + exists psd', surf'. split; [exact E'|]. split; [exact R'|]. split.
      * intros _. destruct rest as [|w2 rest'].
        -- cbn in E'. now injection E' as _ <-.
        -- apply Hs'. discriminate.
      * intros i j Hi Hj. rewrite (G' i j Hi Hj).
        rewrite (zip2_get2 Rplus (2 * cen) (2 * cen)) by trivial.
        unfold PowerSpectrumWFE.contribution.
        rewrite (mmap_get2 _ (2 * cen) (2 * cen)) by trivial.
        rewrite (G i j Hi Hj). ring.
Qed.

Lemma nth_map_seq {A : Type} (g : nat -> A) (n i : nat) (d : A) :
  (i < n)%nat -> nth i (map g (seq 0 n)) d = g i.
Proof.
  intro H. rewrite (nth_indep _ d (g 0%nat)) by (now rewrite length_map, length_seq).
  rewrite (map_nth g (seq 0 n) 0%nat i). now rewrite seq_nth.
Qed.

Lemma k_grid_get2 (cen : nat) (dk : R) (i j : nat) :
  (i < 2 * cen)%nat -> (j < 2 * cen)%nat ->
  get2 (PowerSpectrumWFE.k_grid cen dk) i j
  = sqrt (((INR j - INR cen) * dk) ^ 2 + ((INR i - INR cen) * dk) ^ 2).
Proof.
  intros Hi Hj. unfold get2, PowerSpectrumWFE.k_grid.
  rewrite (nth_map_seq _ (2 * cen) i [] Hi).
  now rewrite (nth_map_seq _ (2 * cen) j 0 Hj).
Qed.

Lemma k_grid_centre (cen : nat) (dk : R) :
  (1 <= cen)%nat -> get2 (PowerSpectrumWFE.k_grid cen dk) cen cen = 0.
Proof.
  intro H. rewrite k_grid_get2 by lia.
  replace (((INR cen - INR cen) * dk) ^ 2 + ((INR cen - INR cen) * dk) ^ 2) with 0 by ring.
  apply sqrt_0.
Qed.

Lemma half_size (size : nat) : (2 <= size)%nat -> (1 <= size / 2)%nat.
Proof.
  intro H. change 1%nat with (2 / 2)%nat. apply Nat.Div0.div_le_mono. exact H.
Qed.

(** X15: on a screen of at least two samples a side, with a parameter list
    that has a term for every weight and consistent units, the total PSD of
    lines 501-549 is, at every sample, the sum over the terms of
    [weight * (PSD of the term at the frequency of the sample + roughness)],
    where a term without outer scale counts at the zero-frequency sample
    with its roughness alone: the temporary overwrite of the frequency map
    by such a term is undone before the next term reads the map. *)
Theorem PowerSpectrum_psd_total {U : Units} (k : PowerSpectrumWFE.t) (w : Wavefront)
  (size : nat) (ps : list PowerSpectrumWFE.psd_term) :
  (2 <= size)%nat ->
  PowerSpectrumWFE.psd_parameters k = Some ps ->
  (length (PowerSpectrumWFE.psd_weight k) <= length ps)%nat ->
  (forall i p, (i < length (PowerSpectrumWFE.psd_weight k))%nat ->
               nth_error ps i = Some p -> units_consistent p = true) ->
  let cen := (size / 2)%nat in
  let dk := 1 / (INR size * pixelscale w) in
  exists psd surf,
    PowerSpectrumWFE.psd_model k w size = Ok (psd, surf) /\
    rect (2 * cen) (2 * cen) psd /\
    forall i j, (i < 2 * cen)%nat -> (j < 2 * cen)%nat ->
      get2 psd i j
      = psd_total 0 (PowerSpectrumWFE.psd_weight k) ps ((i =? cen) && (j =? cen))%nat
          (sqrt (((INR j - INR cen) * dk) ^ 2 + ((INR i - INR cen) * dk) ^ 2)).
Proof.
  intros Hsize Hps Hlen Hu cen dk.
  pose proof (half_size size Hsize) as Hcen. fold cen in Hcen.
  destruct (psd_loop_total cen dk (PowerSpectrumWFE.k_grid cen dk) ps
              (PowerSpectrumWFE.psd_weight k) Hcen (k_grid_rect cen dk)
              (k_grid_centre cen dk Hcen) 0%nat (zeros (2 * cen) (2 * cen)) None
              (zeros_rect _ _))
    as (psd & surf & E & Rp & _ & G).
  - exact Hlen.
  - intros i p Hi. apply Hu. lia.
  - exists psd, surf. split; [|split; [exact Rp|]].
    + unfold PowerSpectrumWFE.psd_model. cbv zeta. fold cen. fold dk. now rewrite Hps.
    + intros i j Hi Hj. rewrite (G i j Hi Hj), zeros_get2, Rplus_0_l.
      now rewrite k_grid_get2.
Qed.

Lemma PowerSpectrum_psd_total_witness :
  let k := sample_power_spectrum (Some 2%nat) None in
  exists psd surf,
    PowerSpectrumWFE.psd_model k (sample_wave 2) 2 = Ok (psd, surf) /\
    rect (2 * (2 / 2)) (2 * (2 / 2)) psd /\
    forall i j, (i < 2 * (2 / 2))%nat -> (j < 2 * (2 / 2))%nat ->
      get2 psd i j
      = psd_total 0 [1] [sample_term] ((i =? 2 / 2) && (j =? 2 / 2))%nat
          (sqrt (((INR j - INR (2 / 2)) * (1 / (INR 2 * 1))) ^ 2
                 + ((INR i - INR (2 / 2)) * (1 / (INR 2 * 1))) ^ 2)).
Proof.
  apply (PowerSpectrum_psd_total (U := sample_units)
           (sample_power_spectrum (Some 2%nat) None) (sample_wave 2) 2 [sample_term]).
  - lia.
  - reflexivity.
  - cbn. lia.
  - intros i p _ _. reflexivity.
Defined.

Lemma psd_loop_units {U : Units} (cen : nat) (dk : R) (k_map : matrix)
  (ps : list PowerSpectrumWFE.psd_term) :
  (1 <= cen)%nat -> rect (2 * cen) (2 * cen) k_map -> get2 k_map cen cen = 0 ->
  forall weights n psd surf i p,
    (i < length weights)%nat -> nth_error ps (n + i) = Some p ->
    units_consistent p = false ->
    PowerSpectrumWFE.psd_loop n weights (Some ps) cen dk k_map psd surf
    = Raise PowerSpectrumWFE.units_inconsistent.
Proof.
  intros Hcen Hk H0. induction weights as [|weight rest IH];
    intros n psd surf i p Hi Hp Hbad; [cbn in Hi; lia|].
  cbn [PowerSpectrumWFE.psd_loop].
  destruct (nth_error ps n) as [q|] eqn:Eq.
  - cbv zeta. fold (units_consistent q).
    destruct (units_consistent q) eqn:Hq; cbn [negb]; [|reflexivity].
    destruct (psd_interm_entries cen dk k_map q Hcen Hk H0) as (interm & E & _).
    rewrite E. destruct i as [|i].
    + rewrite Nat.add_0_r in Hp. congruence.
    + apply (IH (S n) _ _ i p); [cbn in Hi; lia| |exact Hbad].
      rewrite Nat.add_succ_r in Hp. exact Hp.
  - exfalso. assert (n + i < length ps)%nat by (apply nth_error_Some; congruence).
    apply nth_error_None in Eq. lia.
Qed.

(** X16: when one of the terms that has a weight carries a roughness floor
    whose unit is not that of its PSD, [get_opd] raises the assertion error
    of line 523 before any random number is drawn; of the object only the
    screen size can have changed, which the call has worked out by then. *)
Theorem PowerSpectrum_units_checked_before_draw {np : Numpy} {pp : Poppy} {U : Units}
  (w : Wavefront) (s s1 : st PowerSpectrumWFE.t) (size i : nat)
  (ps : list PowerSpectrumWFE.psd_term) (p : PowerSpectrumWFE.psd_term) :
  PowerSpectrumWFE.resolve_screen_size w s = (Ok size, s1) ->
  (2 <= size)%nat ->
  PowerSpectrumWFE.psd_parameters (self s) = Some ps ->
  (i < length (PowerSpectrumWFE.psd_weight (self s)))%nat ->
  nth_error ps i = Some p ->
  units_consistent p = false ->
  PowerSpectrumWFE.get_opd (PyWavefront w) s
  = (Raise PowerSpectrumWFE.units_inconsistent, s1) /\
  env s1 = env s /\
  PowerSpectrum_config (self s1) = PowerSpectrum_config (self s) /\
  PowerSpectrumWFE.opd (self s1) = PowerSpectrumWFE.opd (self s).
Proof.
  intros Hres Hsize Hps Hi Hp Hbad.
  pose proof (resolve_screen_size_keeps w s) as Hcfg.
  pose proof (resolve_screen_size_run w s) as (_ & Henv & _).
  assert (Hopd : keeps PowerSpectrumWFE.opd (PowerSpectrumWFE.resolve_screen_size w))
    by (unfold PowerSpectrumWFE.resolve_screen_size; keeps_all).
  specialize (Hopd s). rewrite Hres in Hcfg, Henv, Hopd. cbn [snd] in *.
  split; [|split; [exact Henv|split; [exact Hcfg|exact Hopd]]].
  rewrite PowerSpectrum_get_opd_unfold, (bind_ok _ _ _ _ _ Hres).
  apply bind_raise. unfold PowerSpectrumWFE.synthesize.
  unfold bind at 1. unfold gets at 1. cbn [fst snd].
  apply bind_raise. unfold lift. f_equal.
  unfold PowerSpectrum_config in Hcfg. injection Hcfg as Hps' _ _ _ _ _ Hw'.
  unfold PowerSpectrumWFE.psd_model. cbv zeta. rewrite Hps', Hw', Hps.
  pose proof (half_size size Hsize) as Hcen.
  apply (psd_loop_units _ _ _ ps Hcen (k_grid_rect _ _) (k_grid_centre _ _ Hcen)
           _ 0%nat _ _ i p Hi Hp Hbad).
Qed.

Lemma PowerSpectrum_units_checked_before_draw_witness :
  let s := mkSt odd_power_spectrum world0 in
  PowerSpectrumWFE.get_opd (np := sample_numpy) (pp := sample_poppy) (U := strict_units)
    (PyWavefront (sample_wave 2)) s
  = (Raise PowerSpectrumWFE.units_inconsistent, s) /\
  env s = env s /\
  PowerSpectrum_config (self s) = PowerSpectrum_config (self s) /\
  PowerSpectrumWFE.opd (self s) = PowerSpectrumWFE.opd (self s).
Proof.
  apply (PowerSpectrum_units_checked_before_draw (np := sample_numpy) (pp := sample_poppy)
           (U := strict_units) (sample_wave 2) (mkSt odd_power_spectrum world0)
           (mkSt odd_power_spectrum world0) 2 0 [odd_term] odd_term).
  - reflexivity.
  - lia.
  - reflexivity.
  - cbn. lia.
  - reflexivity.
  - reflexivity.
Defined.

(** *** PowerSpectrumWFE: the shape of the screen *)

Lemma roll_length {A : Type} (k : nat) (l : list A) : length (roll k l) = length l.
Proof. unfold roll. rewrite length_app, length_skipn, length_firstn. lia. Qed.

Lemma roll_Forall {A : Type} (P : A -> Prop) (k : nat) (l : list A) :
  Forall P l -> Forall P (roll k l).
Proof.
  intro H. unfold roll. apply Forall_app. split.
  - now apply Forall_skipn'.
  - now apply Forall_firstn'.
Qed.

Lemma fftshift_rect {A : Type} (n m : nat) (a : list (list A)) :
  rect n m a -> rect n m (fftshift a).
Proof.
  intros [Hl Hr]. unfold fftshift, fftshift1. split.
  - now rewrite roll_length, length_map.
  - apply roll_Forall, Forall_map. rewrite Forall_forall in *.
    intros r Hin. rewrite roll_length. now apply Hr.
Qed.

Lemma ifftshift_rect {A : Type} (n m : nat) (a : list (list A)) :
  rect n m a -> rect n m (ifftshift a).
Proof.
  intros [Hl Hr]. unfold ifftshift, ifftshift1. split.
  - now rewrite roll_length, length_map.
  - apply roll_Forall, Forall_map. rewrite Forall_forall in *.
    intros r Hin. rewrite roll_length. now apply Hr.
Qed.

Lemma binop_mismatch {A B D : Type} (f : A -> B -> D) (n m : nat)
  (a : list (list A)) (b : list (list B)) :
  rect n n a -> rect m m b -> (2 <= n)%nat -> (2 <= m)%nat -> n <> m ->
  binop f a b = Raise broadcast_error.
Proof.
  intros Ha Hb Hn Hm Hne. unfold binop.
  rewrite (rect_shape n n a Ha), (rect_shape m m b Hb) by lia. cbn [fst snd].
  unfold broadcast_dim.
  replace (n =? m)%nat with false by (symmetry; apply Nat.eqb_neq; lia).
  replace (n =? 1)%nat with false by (symmetry; apply Nat.eqb_neq; lia).
  replace (m =? 1)%nat with false by (symmetry; apply Nat.eqb_neq; lia).
  reflexivity.
Qed.

Lemma rect_1_1 {A : Type} (a : list (list A)) :
  rect (2 * 0 + 1) (2 * 0 + 1) a -> exists z, a = [[z]].
Proof.
  intros [Hl Hr]. destruct a as [|r [|r2 t]]; try discriminate Hl.
  inversion Hr as [|? ? Hr1 _]. subst.
  destruct r as [|z [|z2 t2]]; try discriminate Hr1. now exists z.
Qed.

Lemma psd_loop_nil {U : Units} (cen : nat) (dk : R) (weights : list R)
  (params : option (list PowerSpectrumWFE.psd_term)) :
  forall n k_map surf r,
    PowerSpectrumWFE.psd_loop n weights params cen dk k_map [] surf = Ok r -> fst r = [].
Proof.
  induction weights as [|weight rest IH]; intros n k_map surf r H.
  - cbn in H. now injection H as <-.
  - cbn [PowerSpectrumWFE.psd_loop] in H.
    destruct params as [ps|]; [|discriminate].
    destruct (nth_error ps n) as [p|]; [|discriminate].
    cbv zeta in H. destruct (negb _); [discriminate|].
    destruct (PowerSpectrumWFE.psd_interm cen dk k_map p) as [[interm k_map']|e];
      [|discriminate].
    now apply IH in H.
Qed.

Lemma psd_loop_rect {U : Units} (cen : nat) (dk : R) (k_map : matrix) (weights : list R)
  (params : option (list PowerSpectrumWFE.psd_term)) :
  (1 <= cen)%nat -> rect (2 * cen) (2 * cen) k_map -> get2 k_map cen cen = 0 ->
  forall n psd surf r,
    rect (2 * cen) (2 * cen) psd ->
    PowerSpectrumWFE.psd_loop n weights params cen dk k_map psd surf = Ok r ->
    rect (2 * cen) (2 * cen) (fst r).
Proof.
  intros Hcen Hk H0. induction weights as [|weight rest IH]; intros n psd surf r Hpsd H.
  - cbn in H. now injection H as <-.
  - cbn [PowerSpectrumWFE.psd_loop] in H.
    destruct params as [ps|]; [|discriminate].
    destruct (nth_error ps n) as [p|]; [|discriminate].
    cbv zeta in H. destruct (negb _); [discriminate|].
    destruct (psd_interm_entries cen dk k_map p Hcen Hk H0) as (interm & E & Ri & _).
    rewrite E in H. apply IH in H; [exact H|].
    apply zip2_rect; [exact Hpsd|]. now apply mmap_rect.
Qed.

Lemma psd_model_rect {U : Units} (k : PowerSpectrumWFE.t) (w : Wavefront) (size : nat)
  (psd : matrix) (surf : option Unit) :
  PowerSpectrumWFE.psd_model k w size = Ok (psd, surf) ->
  rect (2 * (size / 2)) (2 * (size / 2)) psd.
Proof.
  unfold PowerSpectrumWFE.psd_model. cbv zeta. intro H.
  destruct (size / 2)%nat as [|c] eqn:Ec.
  - apply psd_loop_nil in H. cbn [fst] in H. subst psd. split; [reflexivity|constructor].
  - assert (Hc : (1 <= S c)%nat) by lia.
    change psd with (fst (psd, surf)).
    apply (psd_loop_rect (S c) _ _ _ _ Hc (k_grid_rect _ _)
             (k_grid_centre _ _ Hc) _ _ _ _ (zeros_rect _ _) H).
Qed.

(** What [synthesize] comes to: an exception before the noise is shaped, or
    [shape_noise] on the total PSD and the deviates of some seed. *)
Lemma synthesize_cases {np : Numpy} {pp : Poppy} {U : Units}
  (w : Wavefront) (size : nat) (s : st PowerSpectrumWFE.t) :
  (exists e s', PowerSpectrumWFE.synthesize w size s = (Raise e, s')) \/
  (exists psd surf key s',
     PowerSpectrumWFE.psd_model (self s) w size = Ok (psd, surf) /\
     PowerSpectrumWFE.synthesize w size s
     = (PowerSpectrumWFE.shape_noise w psd surf (normal_array key size size), s') /\
     self s' = self s).
Proof.
  unfold PowerSpectrumWFE.synthesize, RandomState_new, rs_seed, rs_normal, fresh_entropy,
    bind, ret, raise, modify, lift, gets.
  cbv beta iota.
  destruct (PowerSpectrumWFE.psd_model (self s) w size) as [[psd surf]|e] eqn:Em;
    [|left; eauto].
  cbv beta iota. cbn [fst snd].
  destruct (PowerSpectrumWFE.seed (self s)) as [z|].
  - destruct ((0 <=? z) && (z <? 2 ^ 32))%Z; cbv beta iota; [|left; eauto].
    right. exists psd, surf. eexists. eexists. split; [reflexivity|].
    split; [reflexivity|reflexivity].
  - cbv beta iota. right. exists psd, surf. eexists. eexists. split; [reflexivity|].
    split; [reflexivity|reflexivity].
Qed.

Lemma shape_noise_fails {np : Numpy} {pp : Poppy} {U : Units}
  (w : Wavefront) (size : nat) (psd : matrix) (surf : option Unit) (key : Z) :
  (forall n m a, rect n m a -> rect n m (fft2_ a)) ->
  rect (2 * (size / 2)) (2 * (size / 2)) psd ->
  size = 0%nat \/ Nat.odd size = true ->
  exists e, PowerSpectrumWFE.shape_noise w psd surf (normal_array key size size) = Raise e.
Proof.
  intros Hfft Hpsd Hsize. unfold PowerSpectrumWFE.shape_noise.
  destruct Hsize as [-> | Hodd]; [cbn; eauto|].
  apply Nat.odd_spec in Hodd. destruct Hodd as [h ->].
  assert (Hh : ((2 * h + 1) / 2 = h)%nat).
  { rewrite Nat.mul_comm, Nat.div_add_l by lia. cbn. lia. }
  rewrite Hh in Hpsd.
  pose proof (normal_array_rect key (2 * h + 1) (2 * h + 1)) as Rn.
  pose proof (mmap_rect of_real _ _ _ Rn) as Rc.
  unfold fft2. rewrite (rect_not_empty _ _ _ Rc) by lia.
  pose proof (fftshift_rect _ _ _ (Hfft _ _ _ Rc)) as Rf.
  destruct h as [|h].
  - apply rect_0 in Hpsd. subst psd.
    destruct (rect_1_1 _ Rf) as [z ->]. cbn. eauto.
  - rewrite (binop_mismatch _ (2 * S h) (2 * S h + 1)) by (trivial; lia). eauto.
Qed.

Lemma synthesize_fails {np : Numpy} {pp : Poppy} {U : Units}
  (w : Wavefront) (s : st PowerSpectrumWFE.t) (size : nat) :
  (forall n m a, rect n m a -> rect n m (fft2_ a)) ->
  size = 0%nat \/ Nat.odd size = true ->
  exists e s', PowerSpectrumWFE.synthesize w size s = (Raise e, s').
Proof.
  intros Hfft Hsize.
  destruct (synthesize_cases w size s)
    as [(e & s' & E) | (psd & surf & key & s' & Em & E & _)].
  - now exists e, s'.
  - destruct (shape_noise_fails w size psd surf key Hfft (psd_model_rect _ _ _ _ _ Em) Hsize)
      as (e & Ee).
    rewrite Ee in E. now exists e, s'.
Qed.

(** X17: with a Fourier transform that keeps the shape of its argument,
    [get_opd] of a [PowerSpectrumWFE] never returns when the screen size it
    works with is 0 or odd: the frequency map of lines 505-509 has
    [2 * int(size / 2)] samples a side, one fewer than the noise, and for
    sizes from 3 on the product of line 556 cannot be broadcast. *)
Theorem PowerSpectrum_odd_screen_fails {np : Numpy} {pp : Poppy} {U : Units}
  (w : Wavefront) (s s1 : st PowerSpectrumWFE.t) (size : nat) :
  (forall n m a, rect n m a -> rect n m (fft2_ a)) ->
  PowerSpectrumWFE.resolve_screen_size w s = (Ok size, s1) ->
  size = 0%nat \/ Nat.odd size = true ->
  exists e s', PowerSpectrumWFE.get_opd (PyWavefront w) s = (Raise e, s').
Proof.
  intros Hfft Hres Hsize.
  destruct (synthesize_fails w s1 size Hfft Hsize) as (e & s' & E).
  exists e, s'.
  rewrite PowerSpectrum_get_opd_unfold, (bind_ok _ _ _ _ _ Hres).
  now apply bind_raise.
Qed.

Lemma PowerSpectrum_odd_screen_fails_witness :
  exists e s',
    PowerSpectrumWFE.get_opd (np := sample_numpy) (pp := sample_poppy) (U := sample_units)
      (PyWavefront (sample_wave 2)) (mkSt (sample_power_spectrum (Some 3%nat) None) world0)
    = (Raise e, s').
Proof.
  apply (PowerSpectrum_odd_screen_fails (np := sample_numpy) (pp := sample_poppy)
           (U := sample_units) (sample_wave 2)
           (mkSt (sample_power_spectrum (Some 3%nat) None) world0)
           (mkSt (sample_power_spectrum (Some 3%nat) None) world0) 3).
  - intros n m a H. exact H.
  - reflexivity.
  - right. reflexivity.
Defined.

Lemma grid_rect {A : Type} (f : nat -> nat -> A) (n m : nat) :
  rect n m (map (fun i => map (fun j => f i j) (seq 0 m)) (seq 0 n)).
Proof.
  split; [now rewrite length_map, length_seq|].
  apply Forall_map, Forall_forall. intros i _. now rewrite length_map, length_seq.
Qed.

Lemma pad_or_crop_rect (n t : nat) (a : matrix) :
  rect n n a -> (1 <= n)%nat -> rect t t (pad_or_crop_to_shape a (t, t)).
Proof.
  intros Ha Hn. unfold pad_or_crop_to_shape.
  rewrite (rect_shape n n a Ha) by lia.
  destruct ((n =? t) && (n =? t))%nat eqn:E.
  - apply andb_true_iff in E. destruct E as [E _]. apply Nat.eqb_eq in E. now subst t.
  - destruct ((n <? t) || (n <? t))%nat; apply grid_rect.
Qed.

Lemma shape_noise_rect {np : Numpy} {pp : Poppy} {U : Units}
  (w : Wavefront) (h : nat) (psd : matrix) (surf : option Unit) (key : Z) (o : matrix) :
  (forall n m a, rect n m a -> rect n m (fft2_ a)) ->
  (forall n m a, rect n m a -> rect n m (ifft2_ a)) ->
  (1 <= h)%nat -> rect (2 * h) (2 * h) psd ->
  PowerSpectrumWFE.shape_noise w psd surf (normal_array key (2 * h) (2 * h)) = Ok o ->
  rect (2 * h) (2 * h) o.
Proof.
  intros Hfft Hifft Hh Hpsd. unfold PowerSpectrumWFE.shape_noise.
  pose proof (mmap_rect of_real _ _ _ (normal_array_rect key (2 * h) (2 * h))) as Rc.
  unfold fft2. rewrite (rect_not_empty _ _ _ Rc) by lia.
  pose proof (fftshift_rect _ _ _ (Hfft _ _ _ Rc)) as Rf.
  rewrite (binop_exact _ (2 * h) (2 * h) psd _ Hpsd Rf) by lia.
  match goal with
  | |- context [ifft2 (ifftshift ?z)] =>
      assert (Rz : rect (2 * h) (2 * h) (ifftshift z))
        by (apply ifftshift_rect, zip2_rect; trivial)
  end.
  unfold ifft2. rewrite (rect_not_empty _ _ _ Rz) by lia.
  destruct surf as [u|]; [|discriminate].
  destruct (to_m u) as [factor|]; [|discriminate].
  intros [= <-]. apply mmap_rect, Hifft, Rz.
Qed.

Lemma calibrate_rect {np : Numpy} {pp : Poppy} {U : Units}
  (w : Wavefront) (h : nat) (opd o : matrix) (s s' : st PowerSpectrumWFE.t) :
  (1 <= h)%nat -> rect (2 * h) (2 * h) opd ->
  PowerSpectrumWFE.calibrate w (2 * h) opd s = (Ok o, s') ->
  rect (Nat.min (2 * h) (npix w)) (Nat.min (2 * h) (npix w)) o.
Proof.
  intros Hh Ro. unfold PowerSpectrumWFE.calibrate.
  unfold bind at 1. unfold gets at 1. cbv beta iota.
  assert (Hfin : forall opd1, rect (2 * h) (2 * h) opd1 ->
            let opd2 := if Req_dec_T (PowerSpectrumWFE.incident_angle (self s)) 0 then opd1
                        else scale (/ cos (PowerSpectrumWFE.incident_angle (self s))) opd1 in
            let opd3 := if PowerSpectrumWFE.apply_reflection (self s) then scale 2 opd2
                        else opd2 in
            let opd4 := if (npix w <? 2 * h)%nat then pad_or_crop_to_shape opd3 (wshape w)
                        else opd3 in
            rect (Nat.min (2 * h) (npix w)) (Nat.min (2 * h) (npix w)) opd4).
  { intros opd1 R1 opd2 opd3 opd4.
    assert (R2 : rect (2 * h) (2 * h) opd2)
      by (unfold opd2; destruct (Req_dec_T _ 0); [exact R1|now apply scale_rect]).
    assert (R3 : rect (2 * h) (2 * h) opd3)
      by (unfold opd3; destruct (PowerSpectrumWFE.apply_reflection _);
          [now apply scale_rect|exact R2]).
    unfold opd4. destruct (npix w <? 2 * h)%nat eqn:E.
    - apply Nat.ltb_lt in E. rewrite Nat.min_r by lia.
      apply (pad_or_crop_rect (2 * h)); [exact R3|lia].
    - apply Nat.ltb_ge in E. rewrite Nat.min_l by lia. exact R3. }
  destruct (PowerSpectrumWFE.rms (self s)) as [target|].
  - destruct (PowerSpectrumWFE.radius (self s)) as [r|];
      unfold bind, ret, raise, lift, modify; cbv beta iota; [|discriminate].
    destruct (PowerSpectrumWFE.rms_measure w r opd) as [m|e]; cbv beta iota; [|discriminate].
    intros [= <- _]. apply Hfin. now apply scale_rect.
  - unfold bind, ret, modify. cbv beta iota. intros [= <- _]. now apply Hfin.
Qed.

(** X18: with Fourier transforms that keep the shape of their argument,
    whenever [get_opd] of a [PowerSpectrumWFE] returns, the screen size the
    object holds afterwards is even and at least 2, and the array returned
    is square with the smaller of the screen size and the side of the
    wavefront array as its side: a screen larger than the wavefront is
    cropped to it, and a smaller one is returned as it is. *)
Theorem PowerSpectrum_get_opd_shape {np : Numpy} {pp : Poppy} {U : Units}
  (w : Wavefront) (s s' : st PowerSpectrumWFE.t) (o : matrix) :
  (forall n m a, rect n m a -> rect n m (fft2_ a)) ->
  (forall n m a, rect n m a -> rect n m (ifft2_ a)) ->
  PowerSpectrumWFE.get_opd (PyWavefront w) s = (Ok o, s') ->
  exists h, (1 <= h)%nat /\
    PowerSpectrumWFE.screen_size (self s') = Some (2 * h)%nat /\
    rect (Nat.min (2 * h) (npix w)) (Nat.min (2 * h) (npix w)) o.
Proof.
  intros Hfft Hifft Hget.
  destruct (PowerSpectrumWFE.resolve_screen_size w s) as [[size|e] s1] eqn:Hres.
  2:{ rewrite PowerSpectrum_get_opd_unfold, (bind_raise _ _ _ _ _ Hres) in Hget.
      discriminate. }
  assert (Hsize : exists h, (1 <= h)%nat /\ size = (2 * h)%nat).
  { destruct (Nat.odd size) eqn:Hodd.
    - destruct (synthesize_fails w s1 size Hfft (or_intror Hodd)) as (e & s2 & E).
      rewrite PowerSpectrum_get_opd_unfold, (bind_ok _ _ _ _ _ Hres),
        (bind_raise _ _ _ _ _ E) in Hget. discriminate.
    - destruct size as [|size'].
      + destruct (synthesize_fails w s1 0 Hfft (or_introl eq_refl)) as (e & s2 & E).
        rewrite PowerSpectrum_get_opd_unfold, (bind_ok _ _ _ _ _ Hres),
          (bind_raise _ _ _ _ _ E) in Hget. discriminate.
      + assert (He : Nat.even (S size') = true) by (now rewrite <- Nat.negb_odd, Hodd).
        apply Nat.even_spec in He. destruct He as [h Hh']. exists h.
        split; [lia|exact Hh']. }
  destruct Hsize as (h & Hh & ->).
  pose proof (resolve_screen_size_run w s) as (_ & _ & Hstored).
  rewrite Hres in Hstored. cbn [fst snd] in Hstored.
  destruct (Hstored _ eq_refl) as [Hs1 _].
  rewrite PowerSpectrum_get_opd_unfold, (bind_ok _ _ _ _ _ Hres) in Hget.
  pose proof (synthesize_keeps PowerSpectrumWFE.screen_size w (2 * h) s1) as Hk2.
  destruct (PowerSpectrumWFE.synthesize w (2 * h) s1) as [[o0|e] s2] eqn:Hsyn;
    [|rewrite (bind_raise _ _ _ _ _ Hsyn) in Hget; discriminate].
  rewrite (bind_ok _ _ _ _ _ Hsyn) in Hget. cbn [snd] in Hk2.
  pose proof (calibrate_keeps_size w (2 * h) o0 s2) as Hk3.
  rewrite Hget in Hk3. cbn [snd] in Hk3.
  exists h. split; [exact Hh|]. split; [congruence|].
  apply (calibrate_rect w h o0 o s2 s' Hh); [|exact Hget].
  destruct (synthesize_cases w (2 * h) s1)
    as [(e & s3 & E) | (psd & surf & key & s3 & Em & E & _)]; [congruence|].
  rewrite Hsyn in E. injection E as E _.
  apply (shape_noise_rect w h psd surf key o0 Hfft Hifft Hh); [|now symmetry].
  pose proof (psd_model_rect _ _ _ _ _ Em) as Rp.
  replace (2 * h / 2)%nat with h in Rp; [exact Rp|].
  rewrite Nat.mul_comm. symmetry. apply Nat.div_mul. lia.
Qed.

Lemma PowerSpectrum_get_opd_shape_witness :
  exists o s',
    PowerSpectrumWFE.get_opd (np := sample_numpy) (pp := sample_poppy) (U := sample_units)
      (PyWavefront (sample_wave 4)) (mkSt (sample_power_spectrum None None) world0)
    = (Ok o, s') /\
    exists h, (1 <= h)%nat /\
      PowerSpectrumWFE.screen_size (self s') = Some (2 * h)%nat /\
      rect (Nat.min (2 * h) 4) (Nat.min (2 * h) 4) o.
Proof.
  eexists. eexists. split.
  2: apply (PowerSpectrum_get_opd_shape (np := sample_numpy) (pp := sample_poppy)
              (U := sample_units) (sample_wave 4)
              (mkSt (sample_power_spectrum None None) world0)).
  4: run; reflexivity.
  - run. reflexivity.
  - intros n m a H. exact H.
  - intros n m a H. exact H.
Defined.

(** *** PowerSpectrumWFE: incidence and reflection *)

Lemma scale_scale (c d : R) (a : matrix) : scale c (scale d a) = scale (c * d) a.
Proof.
  unfold scale, scale1. rewrite map_map. apply map_ext. intro r.
  rewrite map_map. apply map_ext. intro x. ring.
Qed.

Lemma scale_1 (a : matrix) : scale 1 a = a.
Proof.
  unfold scale, scale1. rewrite <- (map_id a) at 2. apply map_ext. intro r.
  rewrite <- (map_id r) at 2. apply map_ext. intro x. ring.
Qed.

Lemma resolve_paraxial {np : Numpy} {pp : Poppy} {U : Units}
  (w : Wavefront) (k : PowerSpectrumWFE.t) (e : world) :
  PowerSpectrumWFE.resolve_screen_size w (mkSt (paraxial k) e)
  = (fst (PowerSpectrumWFE.resolve_screen_size w (mkSt k e)),
     mkSt (paraxial (self (snd (PowerSpectrumWFE.resolve_screen_size w (mkSt k e)))))
          (env (snd (PowerSpectrumWFE.resolve_screen_size w (mkSt k e))))).
Proof.
  unfold PowerSpectrumWFE.resolve_screen_size, bind, gets, ret, raise, modify.
  destruct k as [ps sd refl [n|] rms rad ang wgt o];
    destruct (ispadded w); try destruct (oversample w =? 0)%nat; cbn;
    try reflexivity;
    match goal with
    | |- context [if ?b then _ else _] => destruct b; reflexivity
    end.
Qed.

Lemma synthesize_paraxial {np : Numpy} {pp : Poppy} {U : Units}
  (w : Wavefront) (size : nat) (k : PowerSpectrumWFE.t) (e : world) :
  PowerSpectrumWFE.synthesize w size (mkSt (paraxial k) e)
  = (fst (PowerSpectrumWFE.synthesize w size (mkSt k e)),
     mkSt (paraxial (self (snd (PowerSpectrumWFE.synthesize w size (mkSt k e)))))
          (env (snd (PowerSpectrumWFE.synthesize w size (mkSt k e))))).
Proof.
  unfold PowerSpectrumWFE.synthesize, RandomState_new, rs_seed, rs_normal, fresh_entropy,
    bind, ret, raise, modify, lift, gets.
  cbv beta iota. cbn [self env].
  change (PowerSpectrumWFE.psd_model (paraxial k) w size)
    with (PowerSpectrumWFE.psd_model k w size).
  change (PowerSpectrumWFE.seed (paraxial k)) with (PowerSpectrumWFE.seed k).
  destruct (PowerSpectrumWFE.psd_model k w size) as [[psd surf]|e1]; [|reflexivity].
  cbv beta iota. cbn [fst snd].
  destruct (PowerSpectrumWFE.seed k) as [z|].
  - destruct ((0 <=? z) && (z <? 2 ^ 32))%Z; reflexivity.
  - reflexivity.
Qed.

Lemma geometry_applied {U : Units} (w : Wavefront) (size : nat)
  (k : PowerSpectrumWFE.t) (opd1 : matrix) :
  (let opd2 := if Req_dec_T (PowerSpectrumWFE.incident_angle k) 0 then opd1
               else scale (/ cos (PowerSpectrumWFE.incident_angle k)) opd1 in
   let opd3 := if PowerSpectrumWFE.apply_reflection k then scale 2 opd2 else opd2 in
   if (npix w <? size)%nat then pad_or_crop_to_shape opd3 (wshape w) else opd3)
  = scale (geometry_factor k)
      (if (npix w <? size)%nat then pad_or_crop_to_shape opd1 (wshape w) else opd1).
Proof.
  cbv zeta. unfold geometry_factor.
  destruct (Req_dec_T (PowerSpectrumWFE.incident_angle k) 0);
    destruct (PowerSpectrumWFE.apply_reflection k);
    destruct (npix w <? size)%nat;
    rewrite ?pad_or_crop_scale, ?scale_scale, ?Rmult_1_r, ?Rmult_1_l, ?scale_1;
    reflexivity.
Qed.

Lemma calibrate_paraxial {np : Numpy} {pp : Poppy} {U : Units}
  (w : Wavefront) (size : nat) (opd : matrix) (k : PowerSpectrumWFE.t) (e : world) :
  let r0 := PowerSpectrumWFE.calibrate w size opd (mkSt (paraxial k) e) in
  let r := PowerSpectrumWFE.calibrate w size opd (mkSt k e) in
  env (snd r) = env (snd r0) /\
  match fst r0 with
  | Ok o0 => fst r = Ok (scale (geometry_factor k) o0)
  | Raise e0 => fst r = Raise e0
  end.
Proof.
  pose proof (geometry_applied w size k) as Hfin.
  unfold PowerSpectrumWFE.calibrate, bind, gets, ret, raise, lift, modify.
  cbv beta iota zeta. cbn [self env fst snd].
  change (PowerSpectrumWFE.rms (paraxial k)) with (PowerSpectrumWFE.rms k).
  change (PowerSpectrumWFE.radius (paraxial k)) with (PowerSpectrumWFE.radius k).
  change (PowerSpectrumWFE.incident_angle (paraxial k)) with 0.
  change (PowerSpectrumWFE.apply_reflection (paraxial k)) with false.
  destruct (Req_dec_T 0 0) as [_|Hne]; [|now elim Hne].
  cbv zeta in Hfin.
  destruct (PowerSpectrumWFE.rms k) as [target|].
  - destruct (PowerSpectrumWFE.radius k) as [r|]; cbv beta iota; [|split; reflexivity].
    destruct (PowerSpectrumWFE.rms_measure w r opd) as [m|e1]; cbv beta iota;
      [|split; reflexivity].
    cbn [fst snd env on_self]. split; [reflexivity|]. f_equal. apply Hfin.
  - cbv beta iota. cbn [fst snd env on_self]. split; [reflexivity|]. f_equal. apply Hfin.
Qed.

(** X19: the incident angle and the reflection flag of a [PowerSpectrumWFE]
    do nothing but scale the screen: on the same generator [get_opd]
    returns the array that the object at normal incidence and without
    reflection returns, multiplied by 2 when [apply_reflection] is set and
    divided by the cosine of the incident angle when this is not 0; it
    raises what that object raises, and draws the same random numbers. *)
Theorem PowerSpectrum_geometry_scales {np : Numpy} {pp : Poppy} {U : Units}
  (w : Wavefront) (s : st PowerSpectrumWFE.t) :
  let r0 := PowerSpectrumWFE.get_opd (PyWavefront w) (mkSt (paraxial (self s)) (env s)) in
  let r := PowerSpectrumWFE.get_opd (PyWavefront w) s in
  env (snd r) = env (snd r0) /\
  match fst r0 with
  | Ok o0 => fst r = Ok (scale (geometry_factor (self s)) o0)
  | Raise e0 => fst r = Raise e0
  end.
Proof.
  destruct s as [k e]. cbn [self env]. cbv zeta.
  rewrite !PowerSpectrum_get_opd_unfold.
  pose proof (resolve_screen_size_keeps w (mkSt k e)) as Hc1.
  pose proof (resolve_paraxial w k e) as Hres'.
  destruct (PowerSpectrumWFE.resolve_screen_size w (mkSt k e))
    as [[size|e1] [k1 e1']] eqn:Hres; cbn [fst snd self env] in *.
  2:{ rewrite (bind_raise _ _ _ _ _ Hres), (bind_raise _ _ _ _ _ Hres').
      split; reflexivity. }
  rewrite (bind_ok _ _ _ _ _ Hres), (bind_ok _ _ _ _ _ Hres').
  pose proof (synthesize_keeps PowerSpectrum_config w size (mkSt k1 e1')) as Hc2.
  pose proof (synthesize_paraxial w size k1 e1') as Hsyn'.
  destruct (PowerSpectrumWFE.synthesize w size (mkSt k1 e1'))
    as [[o|e2] [k2 e2']] eqn:Hsyn; cbn [fst snd self env] in *.
  2:{ rewrite (bind_raise _ _ _ _ _ Hsyn), (bind_raise _ _ _ _ _ Hsyn').
      split; reflexivity. }
  rewrite (bind_ok _ _ _ _ _ Hsyn), (bind_ok _ _ _ _ _ Hsyn').
  assert (Hg : geometry_factor k = geometry_factor k2).
  { unfold geometry_factor. unfold PowerSpectrum_config in Hc1, Hc2.
    injection Hc1 as _ _ Hr1 _ _ Ha1 _. injection Hc2 as _ _ Hr2 _ _ Ha2 _.
    now rewrite Hr2, Hr1, Ha2, Ha1. }
  rewrite Hg. apply calibrate_paraxial.
Qed.

(** X20: the rms normalisation comes before the angle and the reflection
    are applied: on a [PowerSpectrumWFE] with a target rms and a radius,
    whenever the screen was synthesised and its rms inside the aperture is
    not zero, the rms of the array [get_opd] returns, measured inside the
    aperture on the grid of the wavefront, is the target multiplied by 2
    when [apply_reflection] is set and divided by the absolute value of the
    cosine of the incident angle when this is not 0. *)
Theorem rms_scaled_by_geometry {np : Numpy} {pp : Poppy} {U : Units}
  (w : Wavefront) (s s1 s2 : st PowerSpectrumWFE.t) (size : nat) (opd0 : matrix)
  (target r m0 : R) :
  PowerSpectrumWFE.rms (self s) = Some target ->
  PowerSpectrumWFE.radius (self s) = Some r ->
  PowerSpectrumWFE.resolve_screen_size w s = (Ok size, s1) ->
  PowerSpectrumWFE.synthesize w size s1 = (Ok opd0, s2) ->
  PowerSpectrumWFE.rms_measure w r opd0 = Ok m0 ->
  m0 <> 0 -> 0 <= target ->
  exists out s3,
    PowerSpectrumWFE.get_opd (PyWavefront w) s = (Ok out, s3) /\
    PowerSpectrumWFE.rms_measure w r out
    = Ok (Rabs (geometry_factor (self s)) * target).
Proof.
  intros Hrms Hrad Hres Hsyn Hm0 Hne Ht.
  assert (Hcfg : PowerSpectrum_config (self s2) = PowerSpectrum_config (self s)).
  { pose proof (resolve_screen_size_keeps w s) as H1.
    pose proof (synthesize_keeps PowerSpectrum_config w size s1) as H2.
    rewrite Hres in H1. rewrite Hsyn in H2. cbn [snd] in *. congruence. }
  assert (Hg : geometry_factor (self s) = geometry_factor (self s2)).
  { unfold geometry_factor. unfold PowerSpectrum_config in Hcfg.
    injection Hcfg as _ _ Hr _ _ Ha _. now rewrite Hr, Ha. }
  unfold PowerSpectrum_config in Hcfg. injection Hcfg as _ _ _ Hrms2 Hrad2 _ _.
  rewrite Hrms in Hrms2. rewrite Hrad in Hrad2.
  rewrite PowerSpectrum_get_opd_unfold, (bind_ok _ _ _ _ _ Hres), (bind_ok _ _ _ _ _ Hsyn).
  pose proof (geometry_applied w size (self s2) (scale (target / m0) opd0)) as Hfin.
  cbv zeta in Hfin.
  unfold PowerSpectrumWFE.calibrate, bind, gets, ret, lift, modify.
  rewrite Hrms2, Hrad2, Hm0. cbv beta iota zeta. rewrite Hfin.
  eexists. eexists. split; [reflexivity|].
  rewrite Hg.
  match goal with
  | |- PowerSpectrumWFE.rms_measure w r (scale ?c ?a) = _ =>
      rewrite (rms_measure_scale w r c target a); [reflexivity|]
  end.
  destruct (npix w <? size)%nat.
  - rewrite rms_measure_cropped. now apply rescaled_rms.
  - now apply rescaled_rms.
Qed.

Lemma rms_scaled_by_geometry_witness :
  exists out s3,
    PowerSpectrumWFE.get_opd (np := flat_numpy) (pp := sample_poppy)
      (PyWavefront (sample_wave 2)) (mkSt mirror_power_spectrum world0) = (Ok out, s3) /\
    PowerSpectrumWFE.rms_measure (pp := sample_poppy) (sample_wave 2) 1 out
    = Ok (Rabs (geometry_factor mirror_power_spectrum) * 3).
Proof.
  eapply (rms_scaled_by_geometry (np := flat_numpy) (pp := sample_poppy) (U := sample_units)
            (sample_wave 2) (mkSt mirror_power_spectrum world0) _ _ 2 _ 3 1 _).
  - reflexivity.
  - reflexivity.
  - reflexivity.
  - run. reflexivity.
  - run. reflexivity.
  - apply Rgt_not_eq, Rlt_gt, sqrt_lt_R0. unfold mean, sum.
    cbn -[Rdiv Rmult Rplus]. apply Rdiv_lt_0_compat; lra.
  - lra.
Defined.

(** *** StatisticalPSDWFE: the grid *)

Lemma binop_mismatch_columns {A B D : Type} (f : A -> B -> D) (n m m' : nat)
  (a : list (list A)) (b : list (list B)) :
  rect n m a -> rect n m' b -> (1 <= n)%nat -> (2 <= m)%nat -> (2 <= m')%nat -> m <> m' ->
  binop f a b = Raise broadcast_error.
Proof.
  intros Ha Hb Hn Hm Hm' Hne. unfold binop.
  rewrite (rect_shape n m a Ha), (rect_shape n m' b Hb) by lia. cbn [fst snd].
  unfold broadcast_dim. rewrite Nat.eqb_refl.
  replace (m =? m')%nat with false by (symmetry; apply Nat.eqb_neq; lia).
  replace (m =? 1)%nat with false by (symmetry; apply Nat.eqb_neq; lia).
  replace (m' =? 1)%nat with false by (symmetry; apply Nat.eqb_neq; lia).
  reflexivity.
Qed.

Lemma screen_rect {np : Numpy} (k : StatisticalPSDWFE.t) (n : nat) (psd noise : matrix) :
  (forall n m a, rect n m a -> rect n m (fft2_ a)) ->
  (forall n m a, rect n m a -> rect n m (ifft2_ a)) ->
  (1 <= n)%nat -> rect n n psd -> rect n n noise ->
  exists o, StatisticalPSDWFE.screen k psd noise = Ok o /\ rect n n o.
Proof.
  intros Hfft Hifft Hn Hpsd Hnoise. unfold StatisticalPSDWFE.screen.
  pose proof (fftshift_rect _ _ _ (mmap_rect of_real _ _ _ Hnoise)) as Rc.
  unfold fft2. rewrite (rect_not_empty _ _ _ Rc) by lia.
  pose proof (fftshift_rect _ _ _ (Hfft _ _ _ Rc)) as Rf.
  rewrite (binop_exact _ n n psd _ Hpsd Rf) by lia.
  match goal with
  | |- context [ifft2 (ifftshift ?z)] =>
      assert (Rz : rect n n (ifftshift z)) by (apply ifftshift_rect, zip2_rect; trivial)
  end.
  unfold ifft2. rewrite (rect_not_empty _ _ _ Rz) by lia.
  eexists. split; [reflexivity|].
  do 3 apply mmap_rect. apply ifftshift_rect, Hifft, Rz.
Qed.

Lemma screen_not_square {np : Numpy} (k : StatisticalPSDWFE.t) (n m : nat)
  (psd noise : matrix) :
  (forall n m a, rect n m a -> rect n m (fft2_ a)) ->
  (2 <= n)%nat -> (2 <= m)%nat -> n <> m -> rect n m psd -> rect n n noise ->
  StatisticalPSDWFE.screen k psd noise = Raise broadcast_error.
Proof.
  intros Hfft Hn Hm Hne Hpsd Hnoise. unfold StatisticalPSDWFE.screen.
  pose proof (fftshift_rect _ _ _ (mmap_rect of_real _ _ _ Hnoise)) as Rc.
  unfold fft2. rewrite (rect_not_empty _ _ _ Rc) by lia.
  pose proof (fftshift_rect _ _ _ (Hfft _ _ _ Rc)) as Rf.
  rewrite (binop_mismatch_columns _ n m n psd _ Hpsd Rf) by lia. reflexivity.
Qed.

(** X21: [StatisticalPSDWFE.get_opd] draws its noise with as many rows as
    the y coordinates and as many columns as the x coordinates have rows.
    With Fourier transforms that keep the shape of their argument and a seed
    the generator accepts, on a square grid of coordinates it therefore
    returns an array of the shape of the grid, which it stores in
    [self.opd]; on a grid of [n] rows and [m <> n] columns, both at least 2,
    it raises the broadcasting error of line 352 after its draw and leaves
    the object as it was. *)
Theorem StatisticalPSD_get_opd_grid {np : Numpy} {pp : Poppy}
  (w : Wavefront) (s : st StatisticalPSDWFE.t) (y x : matrix) (n m : nat) :
  (forall n m a, rect n m a -> rect n m (fft2_ a)) ->
  (forall n m a, rect n m a -> rect n m (ifft2_ a)) ->
  get_coordinates w = (y, x) -> rect n m y -> rect n m x -> (1 <= n)%nat ->
  seed_ok (StatisticalPSDWFE.seed (self s)) ->
  let world1 := after_draw (StatisticalPSDWFE.seed (self s)) n n (env s) in
  (n = m ->
   exists o, StatisticalPSDWFE.get_opd (PyWavefront w) s
             = (Ok o, mkSt (StatisticalPSDWFE.set_opd o (self s)) world1) /\
             rect n n o) /\
  (n <> m -> (2 <= n)%nat -> (2 <= m)%nat ->
   StatisticalPSDWFE.get_opd (PyWavefront w) s
   = (Raise broadcast_error, mkSt (self s) world1)).
Proof.
  intros Hfft Hifft Hcoord Hy Hx Hn Hseed world1.
  destruct (rho_theta_rect n m y x (StatisticalPSDWFE.radius (self s)) Hy Hx ltac:(lia))
    as (rho & theta & E & Hrho & _).
  pose proof Hy as [Hly _]. pose proof Hx as [Hlx _].
  assert (Hrun : StatisticalPSDWFE.get_opd (PyWavefront w) s
    = bind (lift (StatisticalPSDWFE.screen (self s)
                    (mmap (fun r => Rpower r (- StatisticalPSDWFE.index (self s))) rho)
                    (normal_array (seed_key (StatisticalPSDWFE.seed (self s)) (env s)) n n)))
        (fun o => modify (on_self (StatisticalPSDWFE.set_opd o)) ;;; ret o)
        (mkSt (self s) world1)).
  { unfold StatisticalPSDWFE.get_opd, _check_wavefront_arg.
    cbn [isinstance_BaseWavefront negb attrs].
    unfold bind at 1. unfold lift at 1. unfold bind at 1. unfold gets at 1.
    rewrite Hcoord. unfold bind at 1. unfold lift at 1. rewrite E. cbn [fst snd].
    rewrite Hly, Hlx.
    destruct s as [k e]. cbn [self env] in *. unfold world1.
    unfold RandomState_new, rs_seed, rs_normal, fresh_entropy, after_draw, seed_key.
    destruct (StatisticalPSDWFE.seed k) as [z|]; cbn [seed_ok] in Hseed.
    - rewrite (seed_in_range z Hseed). reflexivity.
    - reflexivity. }
  rewrite Hrun. split.
  - intros <-.
    destruct (screen_rect (self s) n
                (mmap (fun r => Rpower r (- StatisticalPSDWFE.index (self s))) rho)
                (normal_array (seed_key (StatisticalPSDWFE.seed (self s)) (env s)) n n)
                Hfft Hifft Hn (mmap_rect _ _ _ _ Hrho) (normal_array_rect _ _ _))
      as (o & Eo & Ro).
    exists o. split; [|exact Ro]. unfold bind, lift. now rewrite Eo.
  - intros Hne H2n H2m. unfold bind, lift.
    now rewrite (screen_not_square (self s) n m _ _ Hfft H2n H2m Hne
                   (mmap_rect _ _ _ _ Hrho) (normal_array_rect _ _ _)).
Qed.

Lemma StatisticalPSD_get_opd_grid_witness :
  let s := mkSt (sample_statistical (Some 0%Z)) world0 in
  (exists o,
     StatisticalPSDWFE.get_opd (np := sample_numpy) (pp := sample_poppy)
       (PyWavefront (sample_wave 2)) s
     = (Ok o, mkSt (StatisticalPSDWFE.set_opd o (sample_statistical (Some 0%Z)))
                (after_draw (Some 0%Z) 2 2 world0)) /\
     rect 2 2 o) /\
  StatisticalPSDWFE.get_opd (np := sample_numpy) (pp := wide_poppy)
    (PyWavefront (sample_wave 2)) s
  = (Raise broadcast_error,
     mkSt (sample_statistical (Some 0%Z)) (after_draw (Some 0%Z) 2 2 world0)).
Proof.
  split.
  - apply (StatisticalPSD_get_opd_grid (np := sample_numpy) (pp := sample_poppy)
             (sample_wave 2) (mkSt (sample_statistical (Some 0%Z)) world0)
             [[1; 1]; [1; 1]] [[1; 1]; [1; 1]] 2 2).
    + intros n m a H. exact H.
    + intros n m a H. exact H.
    + reflexivity.
    + split; [reflexivity|repeat constructor].
    + split; [reflexivity|repeat constructor].
    + lia.
    + cbn. lia.
    + reflexivity.
  - apply (StatisticalPSD_get_opd_grid (np := sample_numpy) (pp := wide_poppy)
             (sample_wave 2) (mkSt (sample_statistical (Some 0%Z)) world0)
             [[1; 1; 1]; [1; 1; 1]] [[1; 1; 1]; [1; 1; 1]] 2 3).
    + intros n m a H. exact H.
    + intros n m a H. exact H.
    + reflexivity.
    + split; [reflexivity|repeat constructor].
    + split; [reflexivity|repeat constructor].
    + lia.
    + cbn. lia.
    + lia.
    + lia.
    + lia.
Defined.

(** *** PowerSpectrumWFE: the constructor and the default weights *)

Lemma skipn_cons_nth {A : Type} (l : list A) (n : nat) (x : A) (rest : list A) :
  skipn n l = x :: rest -> nth_error l n = Some x /\ skipn (S n) l = rest.
Proof.
  revert l. induction n as [|n IH]; intros l H.
  - destruct l; [discriminate|]. cbn in *. injection H as -> ->. now split.
  - destruct l as [|y l]; [discriminate|]. cbn [skipn nth_error] in *. now apply IH.
Qed.

Lemma psd_total_ones {U : Units} (ps : list PowerSpectrumWFE.psd_term) (centre : bool)
  (k : R) :
  forall rest n, skipn n ps = rest ->
    psd_total n (repeat 1 (length rest)) ps centre k = psd_sum rest centre k.
Proof.
  induction rest as [|p rest IH]; intros n H; [reflexivity|].
  destruct (skipn_cons_nth ps n p rest H) as [Hn Hs].
  cbn [length repeat psd_total psd_sum fold_right]. rewrite Hn.
  fold (psd_sum rest centre k). rewrite (IH (S n) Hs). ring.
Qed.

(** X22: an object that [__init__] has built from a list of terms, with the
    weights left to default, gives every term the weight 1: when the units
    of the terms are consistent, the total PSD of [get_opd] on a screen of at
    least two samples a side is, at every sample, the plain sum of the PSDs
    of the terms, each with its roughness floor. *)
Theorem PowerSpectrum_default_weights {U : Units}
  (ps : list PowerSpectrumWFE.psd_term) (seed : option Z) (apply_reflection : bool)
  (screen_size : option nat) (rms : option R) (incident_angle : R) (radius : option R)
  (k : PowerSpectrumWFE.t) (w : Wavefront) (size : nat) :
  PowerSpectrumWFE.__init__ (Some ps) None seed apply_reflection screen_size rms
    incident_angle radius = Ok k ->
  Forall (fun p => units_consistent p = true) ps ->
  (2 <= size)%nat ->
  let cen := (size / 2)%nat in
  let dk := 1 / (INR size * pixelscale w) in
  exists psd surf,
    PowerSpectrumWFE.psd_model k w size = Ok (psd, surf) /\
    forall i j, (i < 2 * cen)%nat -> (j < 2 * cen)%nat ->
      get2 psd i j
      = psd_sum ps ((i =? cen) && (j =? cen))%nat
          (sqrt (((INR j - INR cen) * dk) ^ 2 + ((INR i - INR cen) * dk) ^ 2)).
Proof.
  intros Hinit Hunits Hsize cen dk.
  assert (Hk : PowerSpectrumWFE.psd_parameters k = Some ps /\
               PowerSpectrumWFE.psd_weight k = repeat 1 (length ps)).
  { unfold PowerSpectrumWFE.__init__ in Hinit.
    destruct rms as [t|]; destruct radius as [r|]; try discriminate Hinit;
      destruct (Rle_dec (PI / 2) incident_angle); try discriminate Hinit;
      injection Hinit as <-; now split. }
  destruct Hk as [Hps Hw].
  pose proof (half_size size Hsize) as Hcen. fold cen in Hcen.
  destruct (psd_loop_total cen dk (PowerSpectrumWFE.k_grid cen dk) ps
              (PowerSpectrumWFE.psd_weight k) Hcen (k_grid_rect cen dk)
              (k_grid_centre cen dk Hcen) 0%nat (zeros (2 * cen) (2 * cen)) None
              (zeros_rect _ _))
    as (psd & surf & E & _ & _ & G).
  - rewrite Hw, repeat_length. cbn. lia.
  - intros i p _ Hp. rewrite Forall_forall in Hunits. apply Hunits.
    eapply nth_error_In. exact Hp.
  - exists psd, surf. split.
    + unfold PowerSpectrumWFE.psd_model. cbv zeta. fold cen. fold dk. now rewrite Hps.
    + intros i j Hi Hj. rewrite (G i j Hi Hj), zeros_get2, Rplus_0_l.
      rewrite k_grid_get2 by trivial. rewrite Hw. now apply psd_total_ones.
Qed.

Lemma PowerSpectrum_default_weights_witness :
  let k := PowerSpectrumWFE.mk (U := sample_units) (Some [sample_term]) (Some 0%Z) false
             (Some 2%nat) None None 0 [1] None in
  exists psd surf,
    PowerSpectrumWFE.psd_model k (sample_wave 2) 2 = Ok (psd, surf) /\
    forall i j, (i < 2 * (2 / 2))%nat -> (j < 2 * (2 / 2))%nat ->
      get2 psd i j
      = psd_sum [sample_term] ((i =? 2 / 2) && (j =? 2 / 2))%nat
          (sqrt (((INR j - INR (2 / 2)) * (1 / (INR 2 * 1))) ^ 2
                 + ((INR i - INR (2 / 2)) * (1 / (INR 2 * 1))) ^ 2)).
Proof.
  apply (PowerSpectrum_default_weights (U := sample_units) [sample_term] (Some 0%Z) false
           (Some 2%nat) None 0 None).
  - unfold PowerSpectrumWFE.__init__.
    destruct (Rle_dec (PI / 2) 0) as [H|_]; [|reflexivity].
    exfalso. pose proof PI_RGT_0. lra.
  - repeat constructor.
  - lia.
Defined.
